(** * A shallow embedding of the sudoku solver (package [internal])

    The Go sources are [internal/moves.go] (the candidate bit set),
    [internal/cell.go] (cells and slices of cell pointers) and
    [internal/sudoku.go] (the grid, [PlayMove] and [Solve]).

    Go's [int] is modelled as [Z] (no value in this program leaves the
    range of a machine word).  A [*Cell] always points into the board of
    one grid, so it is modelled as the pair of board indices it points
    to and is dereferenced against the current grid.  Methods with a
    pointer receiver on [*Sudoku] are state transformers that keep the
    grid they reached when they return an error. *)

From stdpp Require Import base list gmap.
From Stdlib Require Import ZArith Lia Sorted.

Local Open Scope Z_scope.

(** ** Errors and results *)

(** The errors built with [fmt.Errorf] and [errors.New]; every
    constructor stands for one format string and carries the operands
    the message is formatted with. *)
Inductive error : Type :=
  | RowOutOfBounds (row : Z)                (* "Row %d out of bounds" *)
  | ColOutOfBounds (col : Z)                (* "Col %d out of bounds" *)
  | ValueOutOfBounds (col : Z)              (* "Value %d out of bounds", formatted with col+1 *)
  | CellAlreadyContains (row col : Z)       (* "Cell %d,%d already contains %d" *)
  | RowAlreadyContains (row value : Z)      (* "Row %d already contains %d" *)
  | ColAlreadyContains (col value : Z)      (* "Col %d already contains %d" *)
  | SquareAlreadyContains (squareRow squareCol value : Z)
                                            (* "The %s square already contains %d" *)
  | NotValidSpot (row col value : Z)        (* "Cell %d,%d is not a valid spot for %d" *)
  | CellValueOutOfRange (value : Z)         (* "Cell value out of range: %s" *)
  | CellAlreadySet (value : Z)              (* "Cell already set to %d" *)
  | NoMovesLeft (row col : Z)               (* "No moves left at square %d,%d" *)
  | NoSolutionFound.                        (* "No solution found" *)

(** A call returns a value, returns an error, or panics. *)
Inductive result (A : Type) : Type :=
  | Ok (a : A)
  | Err (e : error)
  | Panic.
Arguments Ok {A} a.
Arguments Err {A} e.
Arguments Panic {A}.

Definition rbind {A B : Type} (r : result A) (f : A -> result B) : result B :=
  match r with
  | Ok a => f a
  | Err e => Err e
  | Panic => Panic
  end.

(** ** moves.go: the candidate set *)

Definition Moves : Type := Z.

Definition empty : Moves := 0.
Definition full : Moves := 511.        (* 0b111111111 *)

Definition mask (value : Z) : result Moves :=
  if (value <? 1) || (value >? 9) then Panic
  else Ok (Z.shiftl 1 (value - 1)).

Definition Moves_Contains (m : Moves) (value : Z) : result bool :=
  rbind (mask value) (fun k => Ok (negb (Z.land m k =? 0))).

(** [Add] and [Remove] have a pointer receiver: they return the flag
    together with the new contents of [*m]. *)
Definition Moves_Add (m : Moves) (value : Z) : result (bool * Moves) :=
  rbind (Moves_Contains m value) (fun present =>
    if present then Ok (false, m)
    else rbind (mask value) (fun k => Ok (true, Z.lor m k))).

Definition Moves_Remove (m : Moves) (value : Z) : result (bool * Moves) :=
  rbind (Moves_Contains m value) (fun present =>
    if negb present then Ok (false, m)
    else rbind (mask value) (fun k => Ok (true, Z.land m (Z.lnot k)))).

(** [Slice] asks [Contains] for 1..9 only, so it never panics. *)
Definition Moves_Slice (m : Moves) : list Z :=
  List.filter
    (fun value => match Moves_Contains m value with Ok true => true | _ => false end)
    (seqZ 1 9).

(** ** cell.go: cells *)

Record Cell : Type := mkCell {
  cell_row : Z;
  cell_col : Z;
  cell_value : Z;
  cell_moves : Moves
}.

(** The zero value of the struct. *)
Definition zeroCell : Cell := mkCell 0 0 0 0.

(** [Set] and [EliminateMove] mutate the receiver: the cell is returned
    next to the result. *)
Definition Cell_Set (c : Cell) (value : Z) : Cell * result unit :=
  if (value <? 1) || (value >? 9) then (c, Err (CellValueOutOfRange value))
  else if negb (cell_value c =? 0) then (c, Err (CellAlreadySet (cell_value c)))
  else (mkCell (cell_row c) (cell_col c) value empty, Ok tt).

Definition Cell_CanPlay (c : Cell) (value : Z) : result bool :=
  Moves_Contains (cell_moves c) value.

Definition Cell_EliminateMove (c : Cell) (value : Z) : Cell * result bool :=
  if (value <? 1) || (value >? 9) then (c, Panic)
  else match Moves_Remove (cell_moves c) value with
       | Ok (changed, m) =>
           (mkCell (cell_row c) (cell_col c) (cell_value c) m, Ok changed)
       | Err e => (c, Err e)
       | Panic => (c, Panic)
       end.

Definition Cell_Moves (c : Cell) : list Z := Moves_Slice (cell_moves c).

(** ** sudoku.go: the grid *)

Record Sudoku : Type := mkSudoku {
  board : list (list Cell)     (* [9][9]Cell *)
}.

(** [&s.board[row][col]]: the indices identify the cell. *)
Definition CellPtr : Type := (Z * Z)%type.
Definition Cells : Type := list CellPtr.

(** Reading [s.board[row][col]].  An index outside the array, which
    the program never computes, reads as the zero cell. *)
Definition boardAt (s : Sudoku) (row col : Z) : Cell :=
  if (row <? 0) || (col <? 0) then zeroCell
  else match board s !! Z.to_nat row with
       | Some r => match r !! Z.to_nat col with
                   | Some c => c
                   | None => zeroCell
                   end
       | None => zeroCell
       end.

Definition deref (s : Sudoku) (p : CellPtr) : Cell := boardAt s p.1 p.2.

(** Writing [s.board[row][col] = c]; nothing is written outside the
    array. *)
Definition boardSet (s : Sudoku) (row col : Z) (c : Cell) : Sudoku :=
  if (row <? 0) || (col <? 0) then s
  else match board s !! Z.to_nat row with
       | Some r => mkSudoku (<[Z.to_nat row := <[Z.to_nat col := c]> r]> (board s))
       | None => s
       end.

Definition store (s : Sudoku) (p : CellPtr) (c : Cell) : Sudoku :=
  boardSet s p.1 p.2 c.

Definition Sudoku_Cell (row col : Z) : CellPtr := (row, col).

Definition Range (top left bottom right : Z) : Cells :=
  List.flat_map
    (fun row => List.map (fun col => Sudoku_Cell row col) (seqZ left (right - left + 1)))
    (seqZ top (bottom - top + 1)).

Definition Sudoku_Cells : Cells := Range 0 0 8 8.
Definition Row (row : Z) : Cells := Range row 0 row 8.
Definition Col (col : Z) : Cells := Range 0 col 8 col.
Definition Square (row col : Z) : Cells :=
  Range (row * 3) (col * 3) (row * 3 + 2) (col * 3 + 2).

Definition Rows : list Cells := List.map Row (seqZ 0 9).
Definition Cols : list Cells := List.map Col (seqZ 0 9).
Definition Squares : list Cells :=
  List.flat_map (fun row => List.map (fun col => Square row col) (seqZ 0 3)) (seqZ 0 3).
Definition Groups : list Cells := (Rows ++ Cols) ++ Squares.

(** [Clone] copies the board array, a value type whose cells hold no
    pointer. *)
Definition Clone (s : Sudoku) : Sudoku := mkSudoku (board s).

(** ** The monad of the methods on [*Sudoku] *)

Definition M (A : Type) : Type := Sudoku -> Sudoku * result A.

Definition ret {A : Type} (a : A) : M A := fun s => (s, Ok a).
Definition raise {A : Type} (e : error) : M A := fun s => (s, Err e).
Definition bind {A B : Type} (m : M A) (f : A -> M B) : M B :=
  fun s =>
    match m s with
    | (s', Ok a) => f a s'
    | (s', Err e) => (s', Err e)
    | (s', Panic) => (s', Panic)
    end.
Definition lift {A : Type} (r : result A) : M A := fun s => (s, r).
Definition load (p : CellPtr) : M Cell := fun s => (s, Ok (deref s p)).

Notation "'do' x <- m ; k" := (bind m (fun x => k))
  (at level 10, x name, m at level 100, k at level 200).
Notation "'run' m ; k" := (bind m (fun _ => k))
  (at level 10, m at level 100, k at level 200).

(** A [for ... range] loop over a slice fixed at loop entry, threading
    the local variables [acc]; a [return err] in the body leaves the
    loop. *)
Fixpoint forM {X A : Type} (l : list X) (acc : A) (body : A -> X -> M A) : M A :=
  match l with
  | [] => ret acc
  | x :: l' => do acc' <- body acc x ; forM l' acc' body
  end.

(** A method call through a cell pointer: the cell is read from the
    board, the method runs on it, and the cell is written back. *)
Definition call {A : Type} (p : CellPtr) (method : Cell -> Cell * result A) : M A :=
  fun s => let (cell, r) := method (deref s p) in (store s p cell, r).

(** ** cell.go: slices of cell pointers *)

Definition Cells_FindMove (c : Cells) (value : Z) : M Cells :=
  forM c [] (fun cells p =>
    do cell <- load p ;
    do can <- lift (Cell_CanPlay cell value) ;
    ret (if can then cells ++ [p] else cells)).

Definition Cells_UnsetOnly (c : Cells) : M Cells :=
  forM c [] (fun cells p =>
    do cell <- load p ;
    ret (if cell_value cell =? 0 then cells ++ [p] else cells)).

Definition Cells_Excluding (c other : Cells) : M Cells :=
  fun s =>
    (s, Ok (List.filter
              (fun candidate =>
                 negb (List.existsb
                         (fun o => (cell_row (deref s candidate) =? cell_row (deref s o))
                                   && (cell_col (deref s candidate) =? cell_col (deref s o)))
                         other))
              c)).

Fixpoint Cells_PowerSet (c : Cells) : list Cells :=
  match c with
  | [] => [[]]
  | head :: rest =>
      let subsets := Cells_PowerSet rest in
      subsets ++ List.map (fun tail => head :: tail) subsets
  end.

Definition Cells_RemainingMoves (c : Cells) : M Moves :=
  forM c empty (fun moves p =>
    do cell <- load p ;
    ret (Z.lor moves (cell_moves cell))).

Definition Cells_EliminateMove (c : Cells) (value : Z) : M Z :=
  forM c 0 (fun changes p =>
    do changed <- call p (fun cell => Cell_EliminateMove cell value) ;
    ret (if changed then changes + 1 else changes)).

Definition Cells_UniqueRows (c : Cells) : M (list Z) :=
  fun s =>
    (s, Ok (List.filter
              (fun row => List.existsb (fun p => cell_row (deref s p) =? row) c)
              (seqZ 0 9))).

Definition Cells_UniqueCols (c : Cells) : M (list Z) :=
  fun s =>
    (s, Ok (List.filter
              (fun col => List.existsb (fun p => cell_col (deref s p) =? col) c)
              (seqZ 0 9))).

Definition uniqueSquares (values : list Z) : list Z :=
  List.filter
    (fun square => List.existsb (fun value => Z.quot value 3 =? square) values)
    (seqZ 0 3).

(** ** sudoku.go: PlayMove *)

(** The scan at the end of [PlayMove]: the first unset cell, in
    row-major order, that has no candidate left. *)
Definition scanNoMoves : M unit :=
  forM (seqZ 0 9) tt (fun _ row =>
    forM (seqZ 0 9) tt (fun _ col =>
      do cell <- load (Sudoku_Cell row col) ;
      if (cell_value cell =? 0) && (cell_moves cell =? empty)
      then raise (NoMovesLeft row col)
      else ret tt)).

Definition PlayMove (row col value : Z) : M unit :=
  if (row <? 0) || (row >=? 9) then raise (RowOutOfBounds row) else
  if (col <? 0) || (col >=? 9) then raise (ColOutOfBounds col) else
  if (value <? 1) || (value >? 9) then raise (ValueOutOfBounds col) else
  do target <- load (Sudoku_Cell row col) ;
  if negb (cell_value target =? 0) then raise (CellAlreadyContains row col) else
  do rowMoves <- Cells_RemainingMoves (Row row) ;
  do inRow <- lift (Moves_Contains rowMoves value) ;
  if negb inRow then raise (RowAlreadyContains row value) else
  do colMoves <- Cells_RemainingMoves (Col col) ;
  do inCol <- lift (Moves_Contains colMoves value) ;
  if negb inCol then raise (ColAlreadyContains col value) else
  let squareRow := Z.quot row 3 in
  let squareCol := Z.quot col 3 in
  do squareMoves <- Cells_RemainingMoves (Square squareRow squareCol) ;
  do inSquare <- lift (Moves_Contains squareMoves value) ;
  if negb inSquare then raise (SquareAlreadyContains squareRow squareCol value) else
  do target <- load (Sudoku_Cell row col) ;
  do can <- lift (Cell_CanPlay target value) ;
  if negb can then raise (NotValidSpot row col value) else
  run call (Sudoku_Cell row col) (fun cell => Cell_Set cell value) ;
  run Cells_EliminateMove (Row row) value ;
  run Cells_EliminateMove (Col col) value ;
  run Cells_EliminateMove (Square (Z.quot row 3) (Z.quot col 3)) value ;
  scanNoMoves.

(** ** sudoku.go: NewSudoku *)

Definition blank : Sudoku :=
  mkSudoku
    (List.map (fun row => List.map (fun col => mkCell row col 0 full) (seqZ 0 9))
              (seqZ 0 9)).

(** [board[row][col]] of the clue array. *)
Definition clueAt (b : list (list Z)) (row col : Z) : Z :=
  match b !! Z.to_nat row with
  | Some r => match r !! Z.to_nat col with Some v => v | None => 0 end
  | None => 0
  end.

Definition NewSudoku (b : list (list Z)) : Sudoku * result unit :=
  forM (seqZ 0 9) tt (fun _ row =>
    forM (seqZ 0 9) tt (fun _ col =>
      let value := clueAt b row col in
      if negb (value =? 0) then PlayMove row col value else ret tt))
    blank.

(** ** sudoku.go: Solve *)

Definition len {X : Type} (l : list X) : Z := Z.of_nat (length l).

(** Cells where only a single move is possible. *)
Definition nakedSingles (moves : Z) : M Z :=
  forM Sudoku_Cells moves (fun moves p =>
    do cell <- load p ;
    match Cell_Moves cell with
    | [value] =>
        run PlayMove (cell_row cell) (cell_col cell) value ;
        ret (moves + 1)
    | _ => ret moves
    end).

(** Squares, rows, columns where a number only fits in one cell: the
    same loop over three lists of groups. *)
Definition hiddenSingles (groups : list Cells) (moves : Z) : M Z :=
  forM groups moves (fun moves group =>
    do remaining <- Cells_RemainingMoves group ;
    forM (Moves_Slice remaining) moves (fun moves value =>
      do cells <- Cells_FindMove group value ;
      match cells with
      | [p] =>
          do cell <- load p ;
          run PlayMove (cell_row cell) (cell_col cell) value ;
          ret (moves + 1)
      | _ => ret moves
      end)).

(** If a number can only be in one row/col in a square, eliminate the
    number from that row/col in aligned squares. *)
Definition boxElimination (moves : Z) : M Z :=
  forM Squares moves (fun moves square =>
    do remaining <- Cells_RemainingMoves square ;
    forM (Moves_Slice remaining) moves (fun moves value =>
      do cells <- Cells_FindMove square value ;
      do rows <- Cells_UniqueRows cells ;
      do moves <-
        match rows with
        | [row] =>
            do others <- Cells_Excluding (Row row) square ;
            do changed <- Cells_EliminateMove others value ;
            ret (if changed >? 0 then moves + 1 else moves)
        | _ => ret moves
        end ;
      do cols <- Cells_UniqueCols cells ;
      match cols with
      | [col] =>
          do others <- Cells_Excluding (Col col) square ;
          do changed <- Cells_EliminateMove others value ;
          ret (if changed >? 0 then moves + 1 else moves)
      | _ => ret moves
      end)).

(** [group[0]]: indexing an empty slice panics. *)
Definition first (group : Cells) : M Cell :=
  match group with
  | p :: _ => load p
  | [] => lift Panic
  end.

(** If a number can only be played in a single square on a row,
    eliminate the number from the other rows in the square. *)
Definition rowElimination (moves : Z) : M Z :=
  forM Rows moves (fun moves row =>
    do remaining <- Cells_RemainingMoves row ;
    forM (Moves_Slice remaining) moves (fun moves value =>
      do cells <- Cells_FindMove row value ;
      do cols <- Cells_UniqueCols cells ;
      match uniqueSquares cols with
      | [squareCol] =>
          do head <- first row ;
          let squareRow := Z.quot (cell_row head) 3 in
          do others <- Cells_Excluding (Square squareRow squareCol) row ;
          do changed <- Cells_EliminateMove others value ;
          ret (if changed >? 0 then moves + 1 else moves)
      | _ => ret moves
      end)).

(** The same for a column. *)
Definition colElimination (moves : Z) : M Z :=
  forM Cols moves (fun moves col =>
    do remaining <- Cells_RemainingMoves col ;
    forM (Moves_Slice remaining) moves (fun moves value =>
      do cells <- Cells_FindMove col value ;
      do rows <- Cells_UniqueRows cells ;
      match uniqueSquares rows with
      | [squareRow] =>
          do head <- first col ;
          let squareCol := Z.quot (cell_col head) 3 in
          do others <- Cells_Excluding (Square squareRow squareCol) col ;
          do changed <- Cells_EliminateMove others value ;
          ret (if changed >? 0 then moves + 1 else moves)
      | _ => ret moves
      end)).

(** The body of the loop over the power set of a group's unset cells
    (the group has been replaced by [group.UnsetOnly()]). *)
Definition excludeSubset (group subset : Cells) (moves : Z) : M Z :=
  if (len subset <? 2) || (len subset =? len group) then ret moves
  else
    do union <- Cells_RemainingMoves subset ;
    let remainingMoves := Moves_Slice union in
    if len subset =? len remainingMoves then
      do otherCells <- Cells_Excluding group subset ;
      forM remainingMoves moves (fun moves value =>
        do excludable <- Cells_FindMove otherCells value ;
        if len excludable >? 0 then
          run Cells_EliminateMove excludable value ;
          ret (moves + 1)
        else ret moves)
    else ret moves.

Definition subsetExclusion (moves : Z) : M Z :=
  forM Groups moves (fun moves group =>
    do group <- Cells_UnsetOnly group ;
    forM (Cells_PowerSet group) moves (fun moves subset =>
      excludeSubset group subset moves)).

(** The deductions that come before the test for a solved grid. *)
Definition deductions (moves : Z) : M Z :=
  do moves <- nakedSingles moves ;
  do moves <- hiddenSingles Squares moves ;
  do moves <- hiddenSingles Rows moves ;
  do moves <- hiddenSingles Cols moves ;
  do moves <- boxElimination moves ;
  do moves <- rowElimination moves ;
  colElimination moves.

(** One activation of [Solve], up to its tail call: [Ok true] stands
    for [return s.Solve()], [Ok false] for [return nil]. *)
Definition Solve_call : M bool :=
  do moves <- deductions 0 ;
  do unset <- Cells_UnsetOnly Sudoku_Cells ;
  if len unset =? 0 then ret false
  else if moves >? 0 then ret true
  else
    do moves <- subsetExclusion moves ;
    if moves >? 0 then ret true
    else raise NoSolutionFound.

(** [Solve] with a bound on the depth of the recursion; [None] when the
    bound is reached. *)
Fixpoint Solve_fuel (fuel : nat) (s : Sudoku) : option (Sudoku * result unit) :=
  match fuel with
  | O => None
  | S fuel' =>
      match Solve_call s with
      | (s', Ok true) => Solve_fuel fuel' s'
      | (s', Ok false) => Some (s', Ok tt)
      | (s', Err e) => Some (s', Err e)
      | (s', Panic) => Some (s', Panic)
      end
  end.

(** The number of candidates left on the board: what every change of a
    deduction decreases. *)
Definition weight (c : Cell) : nat := length (Cell_Moves c).

Definition candidates (s : Sudoku) : nat :=
  list_sum (List.map (fun r => list_sum (List.map weight r)) (board s)).

Definition Solve (s : Sudoku) : Sudoku * result unit :=
  match Solve_fuel (S (candidates s)) s with
  | Some out => out
  | None => (s, Panic)
  end.

(** * Properties *)

(** ** The candidate set *)

(** Membership of a value between 1 and 9 is one bit of the set. *)
Definition has (m : Moves) (value : Z) : bool := Z.testbit m (value - 1).

Lemma land_bit (m n : Z) :
  0 <= n -> (Z.land m (Z.shiftl 1 n) =? 0) = negb (Z.testbit m n).
Proof.
  intros Hn. rewrite Z.shiftl_1_l.
  destruct (Z.testbit m n) eqn:Hb; simpl.
  - apply Z.eqb_neq. intros H0.
    assert (Hc : Z.testbit (Z.land m (2 ^ n)) n = true).
    { rewrite Z.land_spec, Hb, Z.pow2_bits_true by lia. reflexivity. }
    rewrite H0, Z.bits_0 in Hc. discriminate.
  - apply Z.eqb_eq. apply Z.bits_inj'. intros k Hk.
    rewrite Z.land_spec, Z.bits_0, Z.pow2_bits_eqb by lia.
    destruct (Z.eqb_spec n k) as [->|Hne].
    + rewrite Hb. reflexivity.
    + apply andb_false_r.
Qed.

Lemma mask_in (value : Z) :
  1 <= value <= 9 -> mask value = Ok (Z.shiftl 1 (value - 1)).
Proof.
  intros H. unfold mask.
  destruct (Z.ltb_spec value 1); [lia|].
  destruct (Z.gtb_spec value 9); [lia|]. reflexivity.
Qed.

Lemma mask_out (value : Z) : value < 1 \/ value > 9 -> mask value = Panic.
Proof.
  intros H. unfold mask.
  destruct (Z.ltb_spec value 1); [reflexivity|].
  destruct (Z.gtb_spec value 9); [reflexivity|lia].
Qed.

Lemma Moves_Contains_in (m : Moves) (value : Z) :
  1 <= value <= 9 -> Moves_Contains m value = Ok (has m value).
Proof.
  intros H. unfold Moves_Contains, has. rewrite mask_in by done. simpl.
  rewrite land_bit by lia. rewrite negb_involutive. reflexivity.
Qed.

Lemma Moves_Remove_in (m : Moves) (value : Z) :
  1 <= value <= 9 ->
  Moves_Remove m value = Ok (has m value, Z.ldiff m (Z.shiftl 1 (value - 1))).
Proof.
  intros H. unfold Moves_Remove. rewrite Moves_Contains_in by done. simpl.
  destruct (has m value) eqn:Hb; simpl.
  - rewrite mask_in by done. simpl. rewrite Z.ldiff_land. reflexivity.
  - f_equal. f_equal. apply Z.bits_inj'. intros k Hk.
    rewrite Z.ldiff_spec, Z.shiftl_1_l, Z.pow2_bits_eqb by lia.
    destruct (Z.eqb_spec (value - 1) k) as [<-|Hne]; simpl.
    + unfold has in Hb. rewrite Hb. reflexivity.
    + rewrite andb_true_r. reflexivity.
Qed.

Lemma has_ldiff (m : Moves) (value v : Z) :
  1 <= value -> 1 <= v ->
  has (Z.ldiff m (Z.shiftl 1 (value - 1))) v = has m v && negb (v =? value).
Proof.
  intros H1 H2. unfold has.
  rewrite Z.ldiff_spec, Z.shiftl_1_l, Z.pow2_bits_eqb by lia.
  f_equal. f_equal.
  destruct (Z.eqb_spec (value - 1) (v - 1)), (Z.eqb_spec v value); (reflexivity || lia).
Qed.

Lemma Moves_Slice_has (m : Moves) :
  Moves_Slice m = List.filter (has m) (seqZ 1 9).
Proof.
  unfold Moves_Slice. apply List.filter_ext_in. intros v Hv.
  apply list_elem_of_In, elem_of_seqZ in Hv.
  rewrite Moves_Contains_in by lia. destruct (has m v); reflexivity.
Qed.

Lemma elem_of_Moves_Slice (m : Moves) (v : Z) :
  v ∈ Moves_Slice m <-> 1 <= v <= 9 /\ has m v = true.
Proof.
  rewrite Moves_Slice_has, list_elem_of_In, List.filter_In, <- list_elem_of_In, elem_of_seqZ.
  intuition lia.
Qed.

Lemma Moves_Slice_empty : Moves_Slice empty = [].
Proof. reflexivity. Qed.

(** ** Reading and writing the board *)

(** The pointer designates a cell of the array. *)
Definition valid (s : Sudoku) (p : CellPtr) : Prop :=
  0 <= p.1 /\ 0 <= p.2 /\
  exists r, board s !! Z.to_nat p.1 = Some r /\ is_Some (r !! Z.to_nat p.2).

Lemma negative_false (row col : Z) :
  0 <= row -> 0 <= col -> (row <? 0) || (col <? 0) = false.
Proof.
  intros. destruct (Z.ltb_spec row 0), (Z.ltb_spec col 0); simpl; (reflexivity || lia).
Qed.

Lemma negative_true (row col : Z) :
  row < 0 \/ col < 0 -> (row <? 0) || (col <? 0) = true.
Proof.
  intros. destruct (Z.ltb_spec row 0), (Z.ltb_spec col 0); simpl; (reflexivity || lia).
Qed.

Lemma valid_dec (s : Sudoku) (p : CellPtr) : valid s p \/ ~ valid s p.
Proof.
  destruct p as [row col]. unfold valid. simpl.
  destruct (Z.le_gt_cases 0 row); [|right; intros (?&?&?); lia].
  destruct (Z.le_gt_cases 0 col); [|right; intros (?&?&?); lia].
  destruct (board s !! Z.to_nat row) as [r|] eqn:Hr.
  - destruct (r !! Z.to_nat col) as [c|] eqn:Hc.
    + left. eauto 6.
    + right. intros (_&_&r'&Hr'&[c' Hc']). congruence.
  - right. intros (_&_&r'&Hr'&_). discriminate.
Qed.

Lemma store_invalid (s : Sudoku) (p : CellPtr) (c : Cell) :
  ~ valid s p -> store s p c = s.
Proof.
  destruct p as [row col], s as [b]. unfold valid, store, boardSet. simpl. intros Hv.
  destruct ((row <? 0) || (col <? 0)) eqn:Hneg; [reflexivity|].
  apply orb_false_iff in Hneg as [H1%Z.ltb_ge H2%Z.ltb_ge].
  destruct (b !! Z.to_nat row) as [r|] eqn:Hr; [|reflexivity].
  f_equal. destruct (r !! Z.to_nat col) as [c0|] eqn:Hc.
  - exfalso. apply Hv. eauto 6.
  - apply lookup_ge_None in Hc. rewrite (list_insert_ge r) by done.
    apply list_insert_id. done.
Qed.

Lemma deref_invalid (s : Sudoku) (p : CellPtr) :
  ~ valid s p -> deref s p = zeroCell.
Proof.
  destruct p as [row col]. unfold valid, deref, boardAt. simpl. intros Hv.
  destruct ((row <? 0) || (col <? 0)) eqn:Hneg; [reflexivity|].
  apply orb_false_iff in Hneg as [H1%Z.ltb_ge H2%Z.ltb_ge].
  destruct (board s !! Z.to_nat row) as [r|] eqn:Hr; [|reflexivity].
  destruct (r !! Z.to_nat col) as [c0|] eqn:Hc; [|reflexivity].
  exfalso. apply Hv. eauto 6.
Qed.

Lemma deref_store_eq (s : Sudoku) (p : CellPtr) (c : Cell) :
  valid s p -> deref (store s p c) p = c.
Proof.
  destruct p as [row col]. unfold valid, deref, store, boardAt, boardSet. simpl.
  intros (H1&H2&r&Hr&[c0 Hc]).
  rewrite negative_false by done. rewrite Hr. simpl.
  rewrite list_lookup_insert_eq by (eapply lookup_lt_Some; eauto).
  rewrite list_lookup_insert_eq by (eapply lookup_lt_Some; eauto).
  reflexivity.
Qed.

Lemma deref_store_ne (s : Sudoku) (p q : CellPtr) (c : Cell) :
  p <> q -> deref (store s p c) q = deref s q.
Proof.
  destruct p as [row col], q as [row' col'].
  unfold deref, store, boardAt, boardSet. simpl. intros Hne.
  destruct ((row <? 0) || (col <? 0)) eqn:Hneg; [reflexivity|].
  apply orb_false_iff in Hneg as [H1%Z.ltb_ge H2%Z.ltb_ge].
  destruct (board s !! Z.to_nat row) as [r|] eqn:Hr; [|reflexivity].
  destruct ((row' <? 0) || (col' <? 0)) eqn:Hneg'; [reflexivity|].
  apply orb_false_iff in Hneg' as [H1'%Z.ltb_ge H2'%Z.ltb_ge]. simpl.
  destruct (decide (row = row')) as [<-|Hrow].
  - rewrite list_lookup_insert_eq by (eapply lookup_lt_Some; eauto). rewrite Hr.
    rewrite list_lookup_insert_ne; [reflexivity|].
    intros Heq. apply Hne. f_equal. lia.
  - rewrite list_lookup_insert_ne; [reflexivity|]. lia.
Qed.

Lemma valid_store (s : Sudoku) (p q : CellPtr) (c : Cell) :
  valid (store s p c) q <-> valid s q.
Proof.
  destruct (valid_dec s p) as [Hv|Hv]; [|rewrite store_invalid by done; reflexivity].
  destruct p as [row col], q as [row' col'].
  destruct Hv as (H1&H2&r&Hr&Hc). simpl in *.
  unfold valid, store, boardSet. simpl.
  rewrite negative_false by done. rewrite Hr. simpl.
  split; intros (H1'&H2'&r'&Hr'&Hc'); (split; [done|split; [done|]]).
  - destruct (decide (Z.to_nat row = Z.to_nat row')) as [Heq|Hne].
    + rewrite <- Heq in *.
      rewrite list_lookup_insert_eq in Hr' by (eapply lookup_lt_Some; eauto).
      injection Hr' as <-. exists r. split; [done|].
      apply lookup_lt_is_Some. apply lookup_lt_is_Some in Hc'.
      rewrite length_insert in Hc'. done.
    + rewrite list_lookup_insert_ne in Hr' by done. eauto.
  - destruct (decide (Z.to_nat row = Z.to_nat row')) as [Heq|Hne].
    + rewrite <- Heq in *. rewrite Hr in Hr'. injection Hr' as <-.
      exists (<[Z.to_nat col := c]> r). split.
      * apply list_lookup_insert_eq. eapply lookup_lt_Some; eauto.
      * apply lookup_lt_is_Some. rewrite length_insert.
        apply lookup_lt_is_Some. done.
    + exists r'. split; [|done]. rewrite list_lookup_insert_ne by done. done.
Qed.

Lemma store_deref (s : Sudoku) (p : CellPtr) : store s p (deref s p) = s.
Proof.
  destruct (valid_dec s p) as [Hv|Hv]; [|apply store_invalid; done].
  destruct p as [row col], s as [b].
  destruct Hv as (H1&H2&r&Hr&[c Hc]). simpl in *.
  unfold store, deref, boardSet, boardAt. simpl.
  rewrite negative_false by done. rewrite Hr, Hc. f_equal.
  rewrite (list_insert_id r) by done. apply list_insert_id. done.
Qed.

Lemma list_sum_insert {X : Type} (f : X -> nat) (l : list X) (i : nat) (x y : X) :
  l !! i = Some x ->
  (list_sum (List.map f (<[i := y]> l)) + f x = list_sum (List.map f l) + f y)%nat.
Proof.
  revert i. induction l as [|a l IH]; intros [|i] Hi; simpl in *; try discriminate.
  - injection Hi as ->. lia.
  - specialize (IH i Hi). lia.
Qed.

Lemma candidates_store (s : Sudoku) (p : CellPtr) (c : Cell) :
  valid s p ->
  (candidates (store s p c) + weight (deref s p) = candidates s + weight c)%nat.
Proof.
  destruct p as [row col]. intros (H1&H2&r&Hr&[c0 Hc]). simpl in *.
  unfold candidates, store, deref, boardSet, boardAt. simpl.
  rewrite negative_false by done. rewrite Hr, Hc. simpl.
  pose proof (list_sum_insert weight r (Z.to_nat col) c0 c Hc) as Hrow.
  pose proof (list_sum_insert (fun r => list_sum (List.map weight r)) (board s)
                (Z.to_nat row) r (<[Z.to_nat col := c]> r) Hr) as Hb.
  simpl in Hb. lia.
Qed.

(** ** Relations between the grid before and after a method

    Every mutating method is built from [Cell.Set] and
    [Cell.EliminateMove] through the loops of the program, so a
    reflexive and transitive relation that the two primitives respect
    is respected by every method. *)

Section Preservation.
Context (R : Sudoku -> Sudoku -> Prop).
Context (R_refl : forall s, R s s).
Context (R_trans : forall s1 s2 s3, R s1 s2 -> R s2 s3 -> R s1 s3).

Definition pres {A : Type} (m : M A) : Prop := forall s, R s (m s).1.

Lemma pres_reader {A : Type} (m : M A) : (forall s, (m s).1 = s) -> pres m.
Proof using R_refl. intros H s. rewrite H. apply R_refl. Qed.

Lemma pres_ret {A : Type} (a : A) : pres (ret a).
Proof using R_refl. apply pres_reader. reflexivity. Qed.

Lemma pres_raise {A : Type} (e : error) : pres (@raise A e).
Proof using R_refl. apply pres_reader. reflexivity. Qed.

Lemma pres_lift {A : Type} (r : result A) : pres (lift r).
Proof using R_refl. apply pres_reader. reflexivity. Qed.

Lemma pres_load (p : CellPtr) : pres (load p).
Proof using R_refl. apply pres_reader. reflexivity. Qed.

Lemma pres_bind {A B : Type} (m : M A) (f : A -> M B) :
  pres m -> (forall a, pres (f a)) -> pres (bind m f).
Proof using R_trans.
  intros Hm Hf s. unfold bind. specialize (Hm s).
  destruct (m s) as [s1 [a|e|]]; simpl in *; [|done..].
  eapply R_trans; [exact Hm|apply Hf].
Qed.

Lemma pres_forM {X A : Type} (l : list X) (acc : A) (body : A -> X -> M A) :
  (forall acc x, pres (body acc x)) -> pres (forM l acc body).
Proof using R_refl R_trans.
  intros Hb. revert acc. induction l as [|x l IH]; intros acc; simpl.
  - apply pres_ret.
  - apply pres_bind; [apply Hb|apply IH].
Qed.

Ltac pres_step :=
  match goal with
  | |- pres (bind _ _) => apply pres_bind; [|intros]
  | |- pres (forM _ _ _) => apply pres_forM; intros
  | |- pres (ret _) => apply pres_ret
  | |- pres (raise _) => apply pres_raise
  | |- pres (lift _) => apply pres_lift
  | |- pres (load _) => apply pres_load
  | |- pres (match ?x with _ => _ end) => destruct x
  | |- pres (let _ := _ in _) => cbv zeta
  end.

Lemma pres_Cells_FindMove (c : Cells) (value : Z) : pres (Cells_FindMove c value).
Proof using R_refl R_trans. unfold Cells_FindMove. repeat pres_step. Qed.

Lemma pres_Cells_UnsetOnly (c : Cells) : pres (Cells_UnsetOnly c).
Proof using R_refl R_trans. unfold Cells_UnsetOnly. repeat pres_step. Qed.

Lemma pres_Cells_RemainingMoves (c : Cells) : pres (Cells_RemainingMoves c).
Proof using R_refl R_trans. unfold Cells_RemainingMoves. repeat pres_step. Qed.

Lemma pres_Cells_Excluding (c other : Cells) : pres (Cells_Excluding c other).
Proof using R_refl. apply pres_reader. reflexivity. Qed.

Lemma pres_Cells_UniqueRows (c : Cells) : pres (Cells_UniqueRows c).
Proof using R_refl. apply pres_reader. reflexivity. Qed.

Lemma pres_Cells_UniqueCols (c : Cells) : pres (Cells_UniqueCols c).
Proof using R_refl. apply pres_reader. reflexivity. Qed.

Lemma pres_first (group : Cells) : pres (first group).
Proof using R_refl. apply pres_reader. destruct group; reflexivity. Qed.

Lemma pres_scanNoMoves : pres scanNoMoves.
Proof using R_refl R_trans. unfold scanNoMoves. repeat pres_step. Qed.

Context (R_elim : forall p value, pres (call p (fun cell => Cell_EliminateMove cell value))).

Lemma pres_Cells_EliminateMove (c : Cells) (value : Z) :
  pres (Cells_EliminateMove c value).
Proof using R_refl R_trans R_elim.
  unfold Cells_EliminateMove. repeat pres_step. apply R_elim.
Qed.

(** [PlayMove] from its two primitives. *)
Lemma pres_PlayMove_from_Set (row col value : Z) :
  (forall p v, pres (call p (fun cell => Cell_Set cell v))) ->
  pres (PlayMove row col value).
Proof using R_refl R_trans R_elim.
  intros R_set. unfold PlayMove.
  repeat first
    [ apply pres_Cells_RemainingMoves | apply pres_Cells_EliminateMove
    | apply pres_scanNoMoves | apply R_set | pres_step ].
Qed.

Context (R_play : forall row col value, pres (PlayMove row col value)).

Ltac pres_solve :=
  repeat first
    [ apply pres_Cells_RemainingMoves | apply pres_Cells_EliminateMove
    | apply pres_Cells_FindMove | apply pres_Cells_UnsetOnly
    | apply pres_Cells_Excluding | apply pres_Cells_UniqueRows
    | apply pres_Cells_UniqueCols | apply pres_first | apply R_play
    | pres_step ].

Lemma pres_nakedSingles (moves : Z) : pres (nakedSingles moves).
Proof using R_refl R_trans R_play. unfold nakedSingles. pres_solve. Qed.

Lemma pres_hiddenSingles (groups : list Cells) (moves : Z) :
  pres (hiddenSingles groups moves).
Proof using R_refl R_trans R_play. unfold hiddenSingles. pres_solve. Qed.

Lemma pres_boxElimination (moves : Z) : pres (boxElimination moves).
Proof using R_refl R_trans R_elim. unfold boxElimination. pres_solve. Qed.

Lemma pres_rowElimination (moves : Z) : pres (rowElimination moves).
Proof using R_refl R_trans R_elim. unfold rowElimination. pres_solve. Qed.

Lemma pres_colElimination (moves : Z) : pres (colElimination moves).
Proof using R_refl R_trans R_elim. unfold colElimination. pres_solve. Qed.

Lemma pres_excludeSubset (group subset : Cells) (moves : Z) :
  pres (excludeSubset group subset moves).
Proof using R_refl R_trans R_elim. unfold excludeSubset. pres_solve. Qed.

Lemma pres_subsetExclusion (moves : Z) : pres (subsetExclusion moves).
Proof using R_refl R_trans R_elim.
  unfold subsetExclusion.
  repeat first [ apply pres_excludeSubset | apply pres_Cells_UnsetOnly | pres_step ].
Qed.

Lemma pres_deductions (moves : Z) : pres (deductions moves).
Proof using R_refl R_trans R_elim R_play.
  unfold deductions.
  apply pres_bind; [apply pres_nakedSingles|intros].
  apply pres_bind; [apply pres_hiddenSingles|intros].
  apply pres_bind; [apply pres_hiddenSingles|intros].
  apply pres_bind; [apply pres_hiddenSingles|intros].
  apply pres_bind; [apply pres_boxElimination|intros].
  apply pres_bind; [apply pres_rowElimination|intros].
  apply pres_colElimination.
Qed.

Lemma pres_Solve_call : pres Solve_call.
Proof using R_refl R_trans R_elim R_play.
  unfold Solve_call.
  apply pres_bind; [apply pres_deductions|intros moves].
  apply pres_bind; [apply pres_Cells_UnsetOnly|intros unset].
  destruct (len unset =? 0); [apply pres_ret|].
  destruct (moves >? 0); [apply pres_ret|].
  apply pres_bind; [apply pres_subsetExclusion|intros moves'].
  destruct (moves' >? 0); [apply pres_ret|apply pres_raise].
Qed.

Lemma pres_Solve_fuel (fuel : nat) (s s' : Sudoku) (r : result unit) :
  Solve_fuel fuel s = Some (s', r) -> R s s'.
Proof using R_refl R_trans R_elim R_play.
  revert s. induction fuel as [|fuel IH]; intros s; simpl; [discriminate|].
  pose proof (pres_Solve_call s) as Hc.
  destruct (Solve_call s) as [s1 [[|]|e|]]; simpl in Hc; intros H.
  - eapply R_trans; [exact Hc|]. apply IH. exact H.
  - injection H as <- <-. exact Hc.
  - injection H as <- <-. exact Hc.
  - injection H as <- <-. exact Hc.
Qed.
End Preservation.

(** ** A grid only loses candidates *)

(** [c'] is a later state of the cell [c]: same coordinates, a value
    that is kept once it is set, and no new candidate. *)
Definition cell_le (c c' : Cell) : Prop :=
  cell_row c' = cell_row c /\ cell_col c' = cell_col c /\
  (cell_value c <> 0 -> cell_value c' = cell_value c) /\
  (forall n, Z.testbit (cell_moves c') n = true -> Z.testbit (cell_moves c) n = true).

(** The lengths of the rows of the board array. *)
Definition shape (s : Sudoku) : list nat := List.map length (board s).

Definition evolves (s s' : Sudoku) : Prop :=
  (forall p, cell_le (deref s p) (deref s' p)) /\
  shape s' = shape s /\
  (candidates s' <= candidates s)%nat.

Lemma map_length_insert (b : list (list Cell)) (i : nat) (r r' : list Cell) :
  b !! i = Some r -> length r' = length r ->
  List.map length (<[i := r']> b) = List.map length b.
Proof.
  revert i. induction b as [|a b IH]; intros [|i] Hi Hlen; simpl in *; try discriminate.
  - injection Hi as ->. rewrite Hlen. reflexivity.
  - f_equal. apply IH; done.
Qed.

Lemma shape_store (s : Sudoku) (p : CellPtr) (c : Cell) : shape (store s p c) = shape s.
Proof.
  destruct p as [row col]. unfold shape, store, boardSet. cbn [fst snd].
  destruct ((row <? 0) || (col <? 0)); [reflexivity|].
  destruct (board s !! Z.to_nat row) as [r|] eqn:Hr; [|reflexivity].
  cbn [board]. apply (map_length_insert _ _ r); [exact Hr|apply length_insert].
Qed.

Lemma cell_le_refl (c : Cell) : cell_le c c.
Proof. unfold cell_le. auto. Qed.

Lemma cell_le_trans (c1 c2 c3 : Cell) : cell_le c1 c2 -> cell_le c2 c3 -> cell_le c1 c3.
Proof.
  intros (Hr&Hc&Hv&Hm) (Hr'&Hc'&Hv'&Hm'). unfold cell_le.
  repeat split; [congruence|congruence| |auto].
  intros H. rewrite Hv' by (rewrite Hv; done). auto.
Qed.

Lemma filter_length_le {X : Type} (f g : X -> bool) (l : list X) :
  (forall x, f x = true -> g x = true) ->
  (length (List.filter f l) <= length (List.filter g l))%nat.
Proof.
  intros H. induction l as [|x l IH]; simpl; [lia|].
  destruct (f x) eqn:Hf.
  - rewrite (H x Hf). simpl. lia.
  - destruct (g x); simpl; lia.
Qed.

Lemma cell_le_weight (c c' : Cell) : cell_le c c' -> (weight c' <= weight c)%nat.
Proof.
  intros (_&_&_&Hm). unfold weight, Cell_Moves. rewrite !Moves_Slice_has.
  apply filter_length_le. intros v. unfold has. apply Hm.
Qed.

Lemma evolves_refl (s : Sudoku) : evolves s s.
Proof. split; [|split]; [intros; apply cell_le_refl|reflexivity|lia]. Qed.

Lemma evolves_trans (s1 s2 s3 : Sudoku) : evolves s1 s2 -> evolves s2 s3 -> evolves s1 s3.
Proof.
  intros (H1&V1&C1) (H2&V2&C2). split; [|split].
  - intros p. eapply cell_le_trans; [apply H1|apply H2].
  - rewrite V2. exact V1.
  - lia.
Qed.

Lemma evolves_store (s : Sudoku) (p : CellPtr) (c : Cell) :
  cell_le (deref s p) c -> evolves s (store s p c).
Proof.
  intros Hle. destruct (valid_dec s p) as [Hv|Hv].
  - split; [|split].
    + intros q. destruct (decide (p = q)) as [<-|Hne].
      * rewrite deref_store_eq by done. done.
      * rewrite deref_store_ne by done. apply cell_le_refl.
    + apply shape_store.
    + pose proof (candidates_store s p c Hv). pose proof (cell_le_weight _ _ Hle). lia.
  - rewrite store_invalid by done. apply evolves_refl.
Qed.

Lemma cell_le_EliminateMove (c : Cell) (value : Z) :
  cell_le c (Cell_EliminateMove c value).1.
Proof.
  unfold Cell_EliminateMove.
  destruct ((value <? 1) || (value >? 9)) eqn:Hr; [apply cell_le_refl|].
  apply orb_false_iff in Hr as [H1%Z.ltb_ge H2]. rewrite Z.gtb_ltb in H2.
  apply Z.ltb_ge in H2.
  rewrite Moves_Remove_in by lia. simpl. unfold cell_le. simpl.
  repeat split; try done. intros n. rewrite Z.ldiff_spec.
  intros [H _]%andb_true_iff. done.
Qed.

Lemma cell_le_Set (c : Cell) (value : Z) : cell_le c (Cell_Set c value).1.
Proof.
  unfold Cell_Set.
  destruct ((value <? 1) || (value >? 9)); [apply cell_le_refl|].
  destruct (Z.eqb_spec (cell_value c) 0) as [H0|H0]; simpl; [|apply cell_le_refl].
  unfold cell_le. simpl. repeat split; try done.
  intros n. unfold empty. rewrite Z.bits_0. discriminate.
Qed.

Lemma evolves_call {A : Type} (p : CellPtr) (method : Cell -> Cell * result A) :
  (forall c, cell_le c (method c).1) -> pres evolves (call p method).
Proof.
  intros H s. unfold call. specialize (H (deref s p)).
  destruct (method (deref s p)) as [c r]. simpl in *. apply evolves_store. done.
Qed.

Lemma evolves_elim (p : CellPtr) (value : Z) :
  pres evolves (call p (fun cell => Cell_EliminateMove cell value)).
Proof. apply evolves_call. intros c. apply cell_le_EliminateMove. Qed.

Lemma evolves_PlayMove (row col value : Z) : pres evolves (PlayMove row col value).
Proof.
  apply pres_PlayMove_from_Set;
    [apply evolves_refl|apply evolves_trans|apply evolves_elim|].
  intros p v. apply evolves_call. intros c. apply cell_le_Set.
Qed.

Lemma evolves_Cells_EliminateMove (c : Cells) (value : Z) :
  pres evolves (Cells_EliminateMove c value).
Proof.
  apply pres_Cells_EliminateMove;
    [apply evolves_refl|apply evolves_trans|apply evolves_elim].
Qed.

Lemma evolves_Solve_call : pres evolves Solve_call.
Proof.
  apply pres_Solve_call;
    [apply evolves_refl|apply evolves_trans|apply evolves_elim|apply evolves_PlayMove].
Qed.

Lemma evolves_Solve_fuel (fuel : nat) (s s' : Sudoku) (r : result unit) :
  Solve_fuel fuel s = Some (s', r) -> evolves s s'.
Proof.
  apply pres_Solve_fuel;
    [apply evolves_refl|apply evolves_trans|apply evolves_elim|apply evolves_PlayMove].
Qed.

Lemma evolves_Solve : pres evolves Solve.
Proof.
  intros s. unfold Solve.
  destruct (Solve_fuel (S (candidates s)) s) as [[s' r]|] eqn:H; simpl.
  - eapply evolves_Solve_fuel. exact H.
  - apply evolves_refl.
Qed.

(** ** What the readers return *)

(** The union of the candidate sets of the cells of a slice. *)
Definition union (s : Sudoku) (c : Cells) : Moves :=
  fold_left (fun moves p => Z.lor moves (cell_moves (deref s p))) c empty.

Lemma bind_unit {A B : Type} (m : M A) (f : A -> M B) (s : Sudoku) (a : A) :
  m s = (s, Ok a) -> bind m f s = f a s.
Proof. intros H. unfold bind. rewrite H. reflexivity. Qed.

Lemma Cells_RemainingMoves_spec (c : Cells) (s : Sudoku) :
  Cells_RemainingMoves c s = (s, Ok (union s c)).
Proof.
  unfold Cells_RemainingMoves, union. generalize empty.
  induction c as [|p c IH]; intros acc; simpl; [reflexivity|].
  unfold bind at 1. simpl. apply IH.
Qed.

Lemma has_fold_lor (s : Sudoku) (c : Cells) (acc : Moves) (v : Z) :
  has (fold_left (fun moves p => Z.lor moves (cell_moves (deref s p))) c acc) v
  = has acc v || List.existsb (fun p => has (cell_moves (deref s p)) v) c.
Proof.
  revert acc. induction c as [|p c IH]; intros acc; simpl.
  - rewrite orb_false_r. reflexivity.
  - rewrite IH. unfold has. rewrite Z.lor_spec. rewrite orb_assoc. reflexivity.
Qed.

Lemma has_union (s : Sudoku) (c : Cells) (v : Z) :
  has (union s c) v = List.existsb (fun p => has (cell_moves (deref s p)) v) c.
Proof.
  unfold union. rewrite has_fold_lor. unfold has, empty. rewrite Z.bits_0. reflexivity.
Qed.

Lemma FindMove_loop (c acc : Cells) (value : Z) (s : Sudoku) :
  1 <= value <= 9 ->
  forM c acc (fun cells p =>
    do cell <- load p ;
    do can <- lift (Cell_CanPlay cell value) ;
    ret (if can then cells ++ [p] else cells)) s
  = (s, Ok (acc ++ List.filter (fun p => has (cell_moves (deref s p)) value) c)).
Proof.
  intros Hv. revert acc. induction c as [|p c IH]; intros acc; simpl.
  - rewrite app_nil_r. reflexivity.
  - unfold bind at 1. unfold bind at 1. simpl. unfold Cell_CanPlay.
    rewrite Moves_Contains_in by done.
    unfold bind at 1. simpl. rewrite IH.
    destruct (has (cell_moves (deref s p)) value); simpl; [|reflexivity].
    rewrite <- app_assoc. reflexivity.
Qed.

Lemma Cells_FindMove_in (c : Cells) (value : Z) (s : Sudoku) :
  1 <= value <= 9 ->
  Cells_FindMove c value s
  = (s, Ok (List.filter (fun p => has (cell_moves (deref s p)) value) c)).
Proof. intros Hv. unfold Cells_FindMove. rewrite FindMove_loop by done. reflexivity. Qed.

Lemma UnsetOnly_loop (c acc : Cells) (s : Sudoku) :
  forM c acc (fun cells p =>
    do cell <- load p ;
    ret (if cell_value cell =? 0 then cells ++ [p] else cells)) s
  = (s, Ok (acc ++ List.filter (fun p => cell_value (deref s p) =? 0) c)).
Proof.
  revert acc. induction c as [|p c IH]; intros acc; simpl.
  - rewrite app_nil_r. reflexivity.
  - unfold bind at 1. unfold bind at 1. simpl. rewrite IH.
    destruct (cell_value (deref s p) =? 0); simpl; [|reflexivity].
    rewrite <- app_assoc. reflexivity.
Qed.

Lemma Cells_UnsetOnly_spec (c : Cells) (s : Sudoku) :
  Cells_UnsetOnly c s
  = (s, Ok (List.filter (fun p => cell_value (deref s p) =? 0) c)).
Proof. unfold Cells_UnsetOnly. rewrite UnsetOnly_loop. reflexivity. Qed.

(** ** What [Cells.EliminateMove] writes *)

Definition clear (value : Z) (c : Cell) : Cell :=
  mkCell (cell_row c) (cell_col c) (cell_value c)
         (Z.ldiff (cell_moves c) (Z.shiftl 1 (value - 1))).

Definition eliminated (c : Cells) (value : Z) (s : Sudoku) : Sudoku :=
  fold_left (fun s p => store s p (clear value (deref s p))) c s.

Lemma Cell_EliminateMove_in (c : Cell) (value : Z) :
  1 <= value <= 9 ->
  Cell_EliminateMove c value = (clear value c, Ok (has (cell_moves c) value)).
Proof.
  intros Hv. unfold Cell_EliminateMove.
  destruct (Z.ltb_spec value 1); [lia|]. destruct (Z.gtb_spec value 9); [lia|]. simpl.
  rewrite Moves_Remove_in by done. reflexivity.
Qed.

Lemma Cell_EliminateMove_out (c : Cell) (value : Z) :
  value < 1 \/ value > 9 -> Cell_EliminateMove c value = (c, Panic).
Proof.
  intros Hv. unfold Cell_EliminateMove.
  destruct (Z.ltb_spec value 1), (Z.gtb_spec value 9); simpl; (reflexivity || lia).
Qed.

Lemma Cells_EliminateMove_in (c : Cells) (value : Z) (s : Sudoku) :
  1 <= value <= 9 ->
  exists n, Cells_EliminateMove c value s = (eliminated c value s, Ok n).
Proof.
  intros Hv. unfold Cells_EliminateMove, eliminated. generalize 0.
  revert s. induction c as [|p c IH]; intros s acc; simpl.
  - exists acc. reflexivity.
  - unfold bind at 1. unfold bind at 1. unfold call.
    rewrite Cell_EliminateMove_in by done. simpl. apply IH.
Qed.

Lemma clear_clear (value : Z) (c : Cell) : clear value (clear value c) = clear value c.
Proof.
  unfold clear. simpl. f_equal. apply Z.bits_inj'. intros n Hn.
  rewrite !Z.ldiff_spec. destruct (Z.testbit (cell_moves c) n), (Z.testbit _ n); reflexivity.
Qed.

Lemma clear_zeroCell (value : Z) : clear value zeroCell = zeroCell.
Proof. reflexivity. Qed.

Lemma deref_store_clear (s : Sudoku) (p q : CellPtr) (value : Z) :
  deref (store s p (clear value (deref s p))) q
  = if decide (p = q) then clear value (deref s q) else deref s q.
Proof.
  destruct (decide (p = q)) as [<-|Hne]; [|apply deref_store_ne; done].
  destruct (valid_dec s p) as [Hv|Hv].
  - apply deref_store_eq. done.
  - rewrite store_invalid by done. rewrite deref_invalid by done. reflexivity.
Qed.

Lemma deref_eliminated (c : Cells) (value : Z) (s : Sudoku) (q : CellPtr) :
  deref (eliminated c value s) q
  = if decide (q ∈ c) then clear value (deref s q) else deref s q.
Proof.
  unfold eliminated. revert s. induction c as [|p c IH]; intros s; simpl.
  - destruct (decide (q ∈ [])) as [H|H]; [|reflexivity]. inversion H.
  - rewrite IH. rewrite !deref_store_clear.
    destruct (decide (p = q)) as [<-|Hne].
    + rewrite clear_clear. repeat case_decide; try reflexivity.
      all: exfalso; match goal with H : _ ∉ _ :: _ |- _ => apply H; constructor end.
    + repeat case_decide; try reflexivity.
      * exfalso. match goal with H : _ ∉ _ :: _ |- _ => apply H end. constructor. done.
      * exfalso. match goal with H : _ ∈ _ :: _ |- _ => inversion H; subst end;
          [congruence|done].
Qed.

(** ** The slices of the grid *)

Lemma elem_of_Range (top left bottom right : Z) (p : CellPtr) :
  p ∈ Range top left bottom right <-> top <= p.1 <= bottom /\ left <= p.2 <= right.
Proof.
  unfold Range, Sudoku_Cell. rewrite list_elem_of_In, List.in_flat_map. split.
  - intros (row & Hrow & Hp). apply List.in_map_iff in Hp as (col & <- & Hcol).
    apply list_elem_of_In, elem_of_seqZ in Hrow.
    apply list_elem_of_In, elem_of_seqZ in Hcol. simpl. lia.
  - intros [Hr Hc]. exists p.1. split.
    + apply list_elem_of_In, elem_of_seqZ. lia.
    + apply List.in_map_iff. exists p.2. split; [destruct p; reflexivity|].
      apply list_elem_of_In, elem_of_seqZ. lia.
Qed.

Lemma elem_of_Row (row : Z) (p : CellPtr) : p ∈ Row row <-> p.1 = row /\ 0 <= p.2 <= 8.
Proof. unfold Row. rewrite elem_of_Range. lia. Qed.

Lemma elem_of_Col (col : Z) (p : CellPtr) : p ∈ Col col <-> 0 <= p.1 <= 8 /\ p.2 = col.
Proof. unfold Col. rewrite elem_of_Range. lia. Qed.

Lemma elem_of_Square (row col : Z) (p : CellPtr) :
  0 <= row -> 0 <= col ->
  p ∈ Square row col <-> 0 <= p.1 /\ 0 <= p.2 /\ Z.quot p.1 3 = row /\ Z.quot p.2 3 = col.
Proof.
  intros Hr Hc. unfold Square. rewrite elem_of_Range. split.
  - intros [H1 H2]. split; [lia|]. split; [lia|].
    rewrite !Z.quot_div_nonneg by lia. split.
    + symmetry. apply (Z.div_unique _ _ _ (p.1 - row * 3)); lia.
    + symmetry. apply (Z.div_unique _ _ _ (p.2 - col * 3)); lia.
  - intros (H1 & H2 & <- & <-). rewrite !Z.quot_div_nonneg by lia.
    pose proof (Z.div_mod p.1 3 ltac:(lia)). pose proof (Z.mod_pos_bound p.1 3 ltac:(lia)).
    pose proof (Z.div_mod p.2 3 ltac:(lia)). pose proof (Z.mod_pos_bound p.2 3 ltac:(lia)).
    lia.
Qed.

Lemma elem_of_Sudoku_Cells (p : CellPtr) :
  p ∈ Sudoku_Cells <-> 0 <= p.1 <= 8 /\ 0 <= p.2 <= 8.
Proof. unfold Sudoku_Cells. apply elem_of_Range. Qed.

(** ** The scan for a cell without candidates *)

Definition deadb (s : Sudoku) (p : CellPtr) : bool :=
  (cell_value (deref s p) =? 0) && (cell_moves (deref s p) =? empty).

Definition scanResult (found : option CellPtr) : result unit :=
  match found with
  | Some p => Err (NoMovesLeft p.1 p.2)
  | None => Ok tt
  end.

Lemma find_app {X : Type} (f : X -> bool) (l1 l2 : list X) :
  List.find f (l1 ++ l2)
  = match List.find f l1 with Some x => Some x | None => List.find f l2 end.
Proof.
  induction l1 as [|x l1 IH]; simpl; [reflexivity|]. destruct (f x); [reflexivity|apply IH].
Qed.

Lemma scan_row (s : Sudoku) (row : Z) (cols : list Z) :
  forM cols tt (fun _ col =>
    do cell <- load (Sudoku_Cell row col) ;
    if (cell_value cell =? 0) && (cell_moves cell =? empty)
    then raise (NoMovesLeft row col)
    else ret tt) s
  = (s, scanResult (List.find (deadb s) (List.map (Sudoku_Cell row) cols))).
Proof.
  induction cols as [|col cols IH]; simpl; [reflexivity|].
  unfold bind at 1. unfold bind at 1. simpl.
  unfold deadb at 1. simpl. unfold deref. simpl.
  destruct ((cell_value (boardAt s row col) =? 0) && (cell_moves (boardAt s row col) =? empty));
    simpl; [reflexivity|apply IH].
Qed.

Lemma scan_rows (s : Sudoku) (rows cols : list Z) :
  forM rows tt (fun _ row =>
    forM cols tt (fun _ col =>
      do cell <- load (Sudoku_Cell row col) ;
      if (cell_value cell =? 0) && (cell_moves cell =? empty)
      then raise (NoMovesLeft row col)
      else ret tt)) s
  = (s, scanResult
          (List.find (deadb s)
             (List.flat_map (fun row => List.map (Sudoku_Cell row) cols) rows))).
Proof.
  induction rows as [|row rows IH]; simpl; [reflexivity|].
  unfold bind at 1. rewrite scan_row. rewrite find_app.
  destruct (List.find (deadb s) (List.map (Sudoku_Cell row) cols)) as [p|]; simpl;
    [reflexivity|].
  apply IH.
Qed.

Lemma scanNoMoves_spec (s : Sudoku) :
  scanNoMoves s = (s, scanResult (List.find (deadb s) Sudoku_Cells)).
Proof. unfold scanNoMoves. rewrite scan_rows. reflexivity. Qed.

(** ** What [PlayMove] checks and writes *)

(** The grid once the value is written and eliminated from the row, the
    column and the square of the cell. *)
Definition placed (s : Sudoku) (row col value : Z) : Sudoku :=
  let target := deref s (Sudoku_Cell row col) in
  eliminated (Square (Z.quot row 3) (Z.quot col 3)) value
    (eliminated (Col col) value
       (eliminated (Row row) value
          (store s (Sudoku_Cell row col)
             (mkCell (cell_row target) (cell_col target) value empty)))).

(** The error of the first check of [PlayMove] that fails. *)
Definition refusal (s : Sudoku) (row col value : Z) : option error :=
  if (row <? 0) || (row >=? 9) then Some (RowOutOfBounds row) else
  if (col <? 0) || (col >=? 9) then Some (ColOutOfBounds col) else
  if (value <? 1) || (value >? 9) then Some (ValueOutOfBounds col) else
  if negb (cell_value (boardAt s row col) =? 0) then Some (CellAlreadyContains row col) else
  if negb (has (union s (Row row)) value) then Some (RowAlreadyContains row value) else
  if negb (has (union s (Col col)) value) then Some (ColAlreadyContains col value) else
  if negb (has (union s (Square (Z.quot row 3) (Z.quot col 3))) value)
  then Some (SquareAlreadyContains (Z.quot row 3) (Z.quot col 3) value) else
  if negb (has (cell_moves (boardAt s row col)) value)
  then Some (NotValidSpot row col value) else None.

Lemma bind_load {B : Type} (p : CellPtr) (f : Cell -> M B) (s : Sudoku) :
  bind (load p) f s = f (deref s p) s.
Proof. reflexivity. Qed.

Lemma bind_lift_Ok {A B : Type} (a : A) (f : A -> M B) (s : Sudoku) :
  bind (lift (Ok a)) f s = f a s.
Proof. reflexivity. Qed.

Lemma PlayMove_unfold (row col value : Z) (s : Sudoku) :
  PlayMove row col value s
  = match refusal s row col value with
    | Some e => (s, Err e)
    | None =>
        let s' := placed s row col value in
        (s', scanResult (List.find (deadb s') Sudoku_Cells))
    end.
Proof.
  unfold PlayMove, refusal.
  destruct ((row <? 0) || (row >=? 9)); [reflexivity|].
  destruct ((col <? 0) || (col >=? 9)); [reflexivity|].
  destruct ((value <? 1) || (value >? 9)) eqn:Hv; [reflexivity|].
  apply orb_false_iff in Hv as [H1%Z.ltb_ge H2]. rewrite Z.gtb_ltb in H2.
  apply Z.ltb_ge in H2.
  rewrite bind_load.
  change (deref s (Sudoku_Cell row col)) with (boardAt s row col).
  destruct (cell_value (boardAt s row col) =? 0) eqn:Hval; [|reflexivity].
  cbn [negb].
  rewrite (bind_unit _ _ _ _ (Cells_RemainingMoves_spec _ _)).
  rewrite Moves_Contains_in by lia. rewrite bind_lift_Ok.
  destruct (has (union s (Row row)) value); [|reflexivity]. cbn [negb].
  rewrite (bind_unit _ _ _ _ (Cells_RemainingMoves_spec _ _)).
  rewrite Moves_Contains_in by lia. rewrite bind_lift_Ok.
  destruct (has (union s (Col col)) value); [|reflexivity]. cbn [negb].
  cbv zeta.
  rewrite (bind_unit _ _ _ _ (Cells_RemainingMoves_spec _ _)).
  rewrite Moves_Contains_in by lia. rewrite bind_lift_Ok.
  destruct (has (union s (Square (Z.quot row 3) (Z.quot col 3))) value); [|reflexivity].
  cbn [negb].
  rewrite bind_load. unfold Cell_CanPlay.
  change (deref s (Sudoku_Cell row col)) with (boardAt s row col).
  rewrite Moves_Contains_in by lia. rewrite bind_lift_Ok.
  destruct (has (cell_moves (boardAt s row col)) value); [|reflexivity]. cbn [negb].
  assert (Hset : call (Sudoku_Cell row col) (fun cell => Cell_Set cell value) s
                 = (store s (Sudoku_Cell row col)
                      (mkCell (cell_row (boardAt s row col)) (cell_col (boardAt s row col))
                              value empty), Ok tt)).
  { unfold call, Cell_Set.
    change (deref s (Sudoku_Cell row col)) with (boardAt s row col).
    destruct (Z.ltb_spec value 1); [lia|]. destruct (Z.gtb_spec value 9); [lia|].
    rewrite Hval. reflexivity. }
  unfold bind at 1. rewrite Hset.
  unfold placed. change (deref s (Sudoku_Cell row col)) with (boardAt s row col).
  set (s0 := store s _ _).
  unfold bind at 1.
  destruct (Cells_EliminateMove_in (Row row) value s0 ltac:(lia)) as [n1 ->].
  unfold bind at 1.
  destruct (Cells_EliminateMove_in (Col col) value (eliminated (Row row) value s0) ltac:(lia))
    as [n2 ->].
  unfold bind at 1.
  destruct (Cells_EliminateMove_in (Square (Z.quot row 3) (Z.quot col 3)) value
              (eliminated (Col col) value (eliminated (Row row) value s0)) ltac:(lia))
    as [n3 ->].
  apply scanNoMoves_spec.
Qed.

(** ** The cells of the grid after a move *)

Definition inb (p : CellPtr) : Prop := 0 <= p.1 <= 8 /\ 0 <= p.2 <= 8.

(** Two cells share a row, a column or a square. *)
Definition sees (p q : CellPtr) : Prop :=
  p.1 = q.1 \/ p.2 = q.2 \/ (Z.quot p.1 3 = Z.quot q.1 3 /\ Z.quot p.2 3 = Z.quot q.2 3).

(** The three slices [PlayMove] eliminates the value from. *)
Definition peers (row col : Z) : Cells :=
  Row row ++ Col col ++ Square (Z.quot row 3) (Z.quot col 3).

Definition clearIf (b : bool) (value : Z) (c : Cell) : Cell :=
  if b then clear value c else c.

Lemma clearIf_clearIf (b1 b2 : bool) (value : Z) (c : Cell) :
  clearIf b1 value (clearIf b2 value c) = clearIf (b2 || b1) value c.
Proof. destruct b1, b2; simpl; try reflexivity. apply clear_clear. Qed.

Lemma deref_eliminated_bool (c : Cells) (value : Z) (s : Sudoku) (q : CellPtr) :
  deref (eliminated c value s) q = clearIf (bool_decide (q ∈ c)) value (deref s q).
Proof.
  rewrite deref_eliminated. unfold clearIf.
  case_decide; case_bool_decide; (reflexivity || contradiction).
Qed.

Lemma elem_of_peers (row col : Z) (q : CellPtr) :
  0 <= row <= 8 -> 0 <= col <= 8 -> inb q ->
  q ∈ peers row col <-> sees (row, col) q.
Proof.
  intros Hr Hc [Hq1 Hq2]. unfold peers, sees. simpl.
  rewrite !elem_of_app, elem_of_Row, elem_of_Col.
  rewrite elem_of_Square by (apply Z.quot_pos; lia).
  intuition lia.
Qed.

Lemma has_valid (s : Sudoku) (p : CellPtr) (v : Z) :
  has (cell_moves (deref s p)) v = true -> valid s p.
Proof.
  intros H. destruct (valid_dec s p) as [Hv|Hv]; [done|].
  rewrite deref_invalid in H by done. unfold has in H. simpl in H.
  rewrite Z.bits_0 in H. discriminate.
Qed.

Lemma clear_set_cell (row col value v : Z) :
  clear v (mkCell row col value empty) = mkCell row col value empty.
Proof. unfold clear. simpl. reflexivity. Qed.

Lemma peers_bool (row col : Z) (q : CellPtr) :
  bool_decide (q ∈ peers row col)
  = bool_decide (q ∈ Row row)
    || (bool_decide (q ∈ Col col)
        || bool_decide (q ∈ Square (Z.quot row 3) (Z.quot col 3))).
Proof.
  unfold peers. rewrite <- !bool_decide_or. apply bool_decide_ext.
  rewrite !elem_of_app. tauto.
Qed.

Lemma deref_placed (s : Sudoku) (row col value : Z) (q : CellPtr) :
  valid s (row, col) ->
  deref (placed s row col value) q
  = if decide (q = (row, col))
    then mkCell (cell_row (deref s (row, col))) (cell_col (deref s (row, col))) value empty
    else clearIf (bool_decide (q ∈ peers row col)) value (deref s q).
Proof.
  intros Hv. unfold placed. rewrite !deref_eliminated_bool, peers_bool.
  unfold Sudoku_Cell.
  case_decide as Hq.
  - subst q. rewrite deref_store_eq by done.
    rewrite !clearIf_clearIf. unfold clearIf.
    destruct (_ || _); [apply clear_set_cell|reflexivity].
  - rewrite deref_store_ne by congruence.
    unfold clearIf.
    destruct (bool_decide _), (bool_decide _), (bool_decide _); simpl;
      rewrite ?clear_clear; reflexivity.
Qed.

Lemma refusal_None (s : Sudoku) (row col value : Z) :
  refusal s row col value = None <->
  0 <= row <= 8 /\ 0 <= col <= 8 /\ 1 <= value <= 9 /\
  cell_value (boardAt s row col) = 0 /\
  has (union s (Row row)) value = true /\
  has (union s (Col col)) value = true /\
  has (union s (Square (Z.quot row 3) (Z.quot col 3))) value = true /\
  has (cell_moves (boardAt s row col)) value = true.
Proof.
  unfold refusal.
  destruct (Z.ltb_spec row 0), (Z.geb_spec row 9); cbn [orb];
    try (split; [discriminate|lia]).
  destruct (Z.ltb_spec col 0), (Z.geb_spec col 9); cbn [orb];
    try (split; [discriminate|lia]).
  destruct (Z.ltb_spec value 1), (Z.gtb_spec value 9); cbn [orb];
    try (split; [discriminate|lia]).
  destruct (Z.eqb_spec (cell_value (boardAt s row col)) 0); cbn [negb];
    [|split; [discriminate|tauto]].
  destruct (has (union s (Row row)) value); cbn [negb];
    [|split; [discriminate|intros (_&_&_&_&?&_); discriminate]].
  destruct (has (union s (Col col)) value); cbn [negb];
    [|split; [discriminate|intros (_&_&_&_&_&?&_); discriminate]].
  destruct (has (union s (Square (Z.quot row 3) (Z.quot col 3))) value); cbn [negb];
    [|split; [discriminate|intros (_&_&_&_&_&_&?&_); discriminate]].
  destruct (has (cell_moves (boardAt s row col)) value); cbn [negb];
    [|split; [discriminate|intros (_&_&_&_&_&_&_&?); discriminate]].
  split; [intros _|reflexivity]. repeat split; (done || lia).
Qed.

(** ** Grids the program can build *)

(** The candidate sets use the nine low bits only. *)
Definition bounded (s : Sudoku) : Prop :=
  forall p n, Z.testbit (cell_moves (deref s p)) n = true -> 0 <= n < 9.

(** The array is 9 by 9. *)
Definition shaped (s : Sudoku) : Prop := shape s = replicate 9 9%nat.

(** Every cell carries its own coordinates. *)
Definition labelled (s : Sudoku) : Prop :=
  forall p, inb p -> cell_row (deref s p) = p.1 /\ cell_col (deref s p) = p.2.

(** The values on the grid are consistent with the candidate sets: a
    set cell has a value between 1 and 9 and no candidate, and its
    value is neither the value nor a candidate of a cell it sees. *)
Definition consistent (s : Sudoku) : Prop :=
  (forall p, inb p -> cell_value (deref s p) <> 0 ->
     1 <= cell_value (deref s p) <= 9 /\ cell_moves (deref s p) = empty) /\
  (forall p q, inb p -> inb q -> p <> q -> sees p q ->
     cell_value (deref s p) <> 0 ->
     cell_value (deref s q) <> cell_value (deref s p) /\
     has (cell_moves (deref s q)) (cell_value (deref s p)) = false).

Lemma bounded_evolves (s s' : Sudoku) : bounded s -> evolves s s' -> bounded s'.
Proof.
  intros Hb (Hle&_&_) p n Hn. apply (Hb p). destruct (Hle p) as (_&_&_&Hm). auto.
Qed.

Lemma shaped_evolves (s s' : Sudoku) : shaped s -> evolves s s' -> shaped s'.
Proof. intros Hs (_&Hv&_). unfold shaped. rewrite Hv. exact Hs. Qed.

Lemma labelled_evolves (s s' : Sudoku) : labelled s -> evolves s s' -> labelled s'.
Proof.
  intros Hl (Hle&_&_) p Hp. destruct (Hle p) as (Hr&Hc&_). rewrite Hr, Hc. auto.
Qed.

Lemma filter_nil {X : Type} (f : X -> bool) (l : list X) :
  List.filter f l = [] <-> forall x, x ∈ l -> f x = false.
Proof.
  induction l as [|a l IH]; simpl.
  - split; [intros _ x Hx; inversion Hx|reflexivity].
  - destruct (f a) eqn:Ha.
    + split; [discriminate|]. intros H. rewrite H in Ha; [discriminate|constructor].
    + rewrite IH. split.
      * intros H x Hx. inversion Hx; subst; auto.
      * intros H x Hx. apply H. constructor. done.
Qed.

Lemma Moves_Slice_nil (m : Moves) :
  (forall n, Z.testbit m n = true -> 0 <= n < 9) ->
  Moves_Slice m = [] <-> m = empty.
Proof.
  intros Hb. split; [|intros ->; reflexivity].
  rewrite Moves_Slice_has, filter_nil. intros H.
  apply Z.bits_inj'. intros n Hn. unfold empty. rewrite Z.bits_0.
  destruct (Z.testbit m n) eqn:Hbit; [|reflexivity].
  specialize (Hb n Hbit). specialize (H (n + 1)).
  unfold has in H. replace (n + 1 - 1) with n in H by lia.
  rewrite <- H, Hbit; [reflexivity|]. apply elem_of_seqZ. lia.
Qed.

(** The conditions under which [PlayMove] writes to the grid. *)
Definition accepted (s : Sudoku) (row col value : Z) : Prop :=
  0 <= row <= 8 /\ 0 <= col <= 8 /\ 1 <= value <= 9 /\
  cell_value (boardAt s row col) = 0 /\
  has (union s (Row row)) value = true /\
  has (union s (Col col)) value = true /\
  has (union s (Square (Z.quot row 3) (Z.quot col 3))) value = true /\
  has (cell_moves (boardAt s row col)) value = true.

Lemma PlayMove_accepted (s : Sudoku) (row col value : Z) :
  accepted s row col value ->
  PlayMove row col value s
  = (placed s row col value,
     scanResult (List.find (deadb (placed s row col value)) Sudoku_Cells)).
Proof.
  intros H. apply refusal_None in H. rewrite PlayMove_unfold, H. reflexivity.
Qed.

Lemma deadb_true (s : Sudoku) (p : CellPtr) :
  deadb s p = true <-> cell_value (deref s p) = 0 /\ cell_moves (deref s p) = empty.
Proof. unfold deadb. rewrite andb_true_iff, !Z.eqb_eq. reflexivity. Qed.

(** The errors of the checks that come before any write. *)
Definition validation (e : error) : Prop :=
  match e with
  | RowOutOfBounds _ | ColOutOfBounds _ | ValueOutOfBounds _
  | CellAlreadyContains _ _ | RowAlreadyContains _ _ | ColAlreadyContains _ _
  | SquareAlreadyContains _ _ _ | NotValidSpot _ _ _ => True
  | _ => False
  end.

Definition groupConflict (e : error) : Prop :=
  match e with
  | RowAlreadyContains _ _ | ColAlreadyContains _ _ | SquareAlreadyContains _ _ _ => True
  | _ => False
  end.

Lemma refusal_validation (s : Sudoku) (row col value : Z) (e : error) :
  refusal s row col value = Some e -> validation e.
Proof.
  unfold refusal.
  repeat match goal with
         | |- context [if ?b then _ else _] => destruct b
         end; intros H; try discriminate; injection H as <-; exact I.
Qed.

(** ** Example grids *)

(** Row 0 lacks 1 and 9, and 9 already stands in columns 0 and 1: the
    cells (0,0) and (0,1) both have the single candidate 1. *)
Definition twoOnes : list (list Z) :=
  [[0;0;2;3;4;5;6;7;8];
   [0;0;0;0;0;0;0;0;0];
   [0;0;0;0;0;0;0;0;0];
   [9;0;0;0;0;0;0;0;0];
   [0;0;0;0;0;0;0;0;0];
   [0;0;0;0;0;0;0;0;0];
   [0;9;0;0;0;0;0;0;0];
   [0;0;0;0;0;0;0;0;0];
   [0;0;0;0;0;0;0;0;0]].

Lemma has_empty (v : Z) : has empty v = false.
Proof. unfold has, empty. apply Z.bits_0. Qed.

Lemma has_clear (value : Z) (c : Cell) :
  1 <= value -> has (cell_moves (clear value c)) value = false.
Proof.
  intros H. unfold clear. simpl. rewrite has_ldiff by lia.
  rewrite Z.eqb_refl. apply andb_false_r.
Qed.

Lemma placed_target (s : Sudoku) (row col value : Z) :
  accepted s row col value ->
  deref (placed s row col value) (row, col)
  = mkCell (cell_row (boardAt s row col)) (cell_col (boardAt s row col)) value empty.
Proof.
  intros (_&_&_&_&_&_&_&Hhas).
  rewrite deref_placed by (eapply has_valid; exact Hhas).
  case_decide; [reflexivity|congruence].
Qed.

Lemma placed_peer (s : Sudoku) (row col value : Z) (q : CellPtr) :
  accepted s row col value -> inb q -> sees (row, col) q -> q <> (row, col) ->
  deref (placed s row col value) q = clear value (deref s q).
Proof.
  intros (Hr&Hc&_&_&_&_&_&Hhas) Hq Hsees Hne.
  rewrite deref_placed by (eapply has_valid; exact Hhas).
  case_decide; [congruence|].
  rewrite bool_decide_eq_true_2; [reflexivity|]. apply elem_of_peers; done.
Qed.

Lemma placed_other (s : Sudoku) (row col value : Z) (q : CellPtr) :
  accepted s row col value -> q <> (row, col) ->
  deref (placed s row col value) q = deref s q \/
  deref (placed s row col value) q = clear value (deref s q).
Proof.
  intros (Hr&Hc&_&_&_&_&_&Hhas) Hne.
  rewrite deref_placed by (eapply has_valid; exact Hhas).
  case_decide; [congruence|]. unfold clearIf. destruct (bool_decide _); auto.
Qed.

(** ** Claims about the candidate set and [PlayMove] *)

(** C9: every candidate-set operation called with a value outside 1..9
    fails loudly: [Moves.Contains], [Moves.Add] and [Moves.Remove]
    panic, so does [Cell.EliminateMove] (the cell is left as it was),
    and [Cell.Set] returns the out-of-range error. *)
Theorem out_of_range_is_signalled (m : Moves) (c : Cell) (v : Z) :
  v < 1 \/ v > 9 ->
  Moves_Contains m v = Panic /\
  Moves_Add m v = Panic /\
  Moves_Remove m v = Panic /\
  Cell_EliminateMove c v = (c, Panic) /\
  Cell_Set c v = (c, Err (CellValueOutOfRange v)).
Proof.
  intros Hv.
  assert (Hc : Moves_Contains m v = Panic).
  { unfold Moves_Contains. rewrite mask_out by done. reflexivity. }
  assert (Hb : (v <? 1) || (v >? 9) = true).
  { destruct (Z.ltb_spec v 1), (Z.gtb_spec v 9); simpl; (reflexivity || lia). }
  repeat split.
  - exact Hc.
  - unfold Moves_Add. rewrite Hc. reflexivity.
  - unfold Moves_Remove. rewrite Hc. reflexivity.
  - apply Cell_EliminateMove_out. exact Hv.
  - unfold Cell_Set. rewrite Hb. reflexivity.
Qed.

Lemma out_of_range_is_signalled_at_ten :
  Moves_Contains full 10 = Panic /\
  Moves_Add full 10 = Panic /\
  Moves_Remove full 10 = Panic /\
  Cell_EliminateMove (mkCell 0 0 0 full) 10 = (mkCell 0 0 0 full, Panic) /\
  Cell_Set (mkCell 0 0 0 full) 10 = (mkCell 0 0 0 full, Err (CellValueOutOfRange 10)).
Proof. apply (out_of_range_is_signalled full (mkCell 0 0 0 full) 10). lia. Defined.

(** C10: [PlayMove] leaves the grid as it was when it returns one of
    its validation errors (out of bounds, already assigned, group
    conflict, illegal move); when it returns the "No moves left" error
    the write has been done: the target cell, unset before, holds the
    value and has no candidate, and the value is a candidate of none of
    the cells of its row, column and square. *)
Theorem PlayMove_atomic_for_validation_only
    (s s' : Sudoku) (row col value : Z) (e : error) :
  PlayMove row col value s = (s', Err e) ->
  (validation e /\ s' = s) \/
  (exists r c, e = NoMovesLeft r c /\
     cell_value (boardAt s row col) = 0 /\
     cell_value (boardAt s' row col) = value /\
     cell_moves (boardAt s' row col) = empty /\
     forall q, inb q -> sees (row, col) q ->
       Cell_CanPlay (deref s' q) value = Ok false).
Proof.
  rewrite PlayMove_unfold. destruct (refusal s row col value) as [e0|] eqn:Hr.
  - intros H. injection H as <- <-. left. split; [|reflexivity].
    eapply refusal_validation. exact Hr.
  - apply refusal_None in Hr. fold (accepted s row col value) in Hr. cbv zeta.
    destruct (List.find _ _) as [p|]; simpl; intros H; [|discriminate].
    injection H as <- <-. right. exists p.1, p.2.
    pose proof (placed_target s row col value Hr) as Ht.
    pose proof Hr as Hacc.
    destruct Hr as (Hrow&Hcol&Hval&Hunset&Hrest).
    split; [reflexivity|]. split; [exact Hunset|].
    change (boardAt (placed s row col value) row col)
      with (deref (placed s row col value) (row, col)).
    rewrite Ht. simpl. split; [reflexivity|]. split; [reflexivity|].
    intros q Hq Hsees. unfold Cell_CanPlay. rewrite Moves_Contains_in by done. f_equal.
    destruct (decide (q = (row, col))) as [->|Hne].
    + rewrite Ht. apply has_empty.
    + rewrite placed_peer by done. apply has_clear. lia.
Qed.

Lemma PlayMove_atomic_for_validation_only_twoOnes :
  (validation (NoMovesLeft 0 1) /\
   (PlayMove 0 0 1 (NewSudoku twoOnes).1).1 = (NewSudoku twoOnes).1) \/
  (exists r c, NoMovesLeft 0 1 = NoMovesLeft r c /\
     cell_value (boardAt (NewSudoku twoOnes).1 0 0) = 0 /\
     cell_value (boardAt (PlayMove 0 0 1 (NewSudoku twoOnes).1).1 0 0) = 1 /\
     cell_moves (boardAt (PlayMove 0 0 1 (NewSudoku twoOnes).1).1 0 0) = empty /\
     forall q, inb q -> sees (0, 0) q ->
       Cell_CanPlay (deref (PlayMove 0 0 1 (NewSudoku twoOnes).1).1 q) 1 = Ok false).
Proof.
  apply (PlayMove_atomic_for_validation_only
           (NewSudoku twoOnes).1 (PlayMove 0 0 1 (NewSudoku twoOnes).1).1 0 0 1
           (NoMovesLeft 0 1)).
  vm_compute. reflexivity.
Defined.

(** C3: when [PlayMove] has passed its checks and written the value, it
    returns the "No moves left" error if some unset cell of the grid is
    left with an empty candidate set, and no error if every unset cell
    keeps a candidate. *)
Theorem PlayMove_reports_contradiction (s : Sudoku) (row col value : Z) :
  bounded s ->
  accepted s row col value ->
  let s' := (PlayMove row col value s).1 in
  let r := (PlayMove row col value s).2 in
  s' = placed s row col value /\
  ((exists p, inb p /\ cell_value (deref s' p) = 0 /\ Cell_Moves (deref s' p) = []) ->
   exists p, inb p /\ cell_value (deref s' p) = 0 /\ Cell_Moves (deref s' p) = [] /\
             r = Err (NoMovesLeft p.1 p.2)) /\
  ((forall p, inb p -> cell_value (deref s' p) = 0 -> Cell_Moves (deref s' p) <> []) ->
   r = Ok tt).
Proof.
  intros Hb Hacc. cbv zeta. rewrite PlayMove_accepted by done. cbn [fst snd].
  set (s' := placed s row col value).
  assert (Hb' : bounded s').
  { eapply bounded_evolves; [exact Hb|].
    pose proof (evolves_PlayMove row col value s) as He.
    rewrite PlayMove_accepted in He by done. exact He. }
  assert (Hdead : forall p, deadb s' p = true <->
                    cell_value (deref s' p) = 0 /\ Cell_Moves (deref s' p) = []).
  { intros p. rewrite deadb_true. unfold Cell_Moves.
    rewrite Moves_Slice_nil by apply Hb'. reflexivity. }
  split; [reflexivity|]. split.
  - intros (p & Hp & Hp0).
    destruct (List.find (deadb s') Sudoku_Cells) as [q|] eqn:Hfind.
    + apply List.find_some in Hfind as [Hin Hq].
      apply list_elem_of_In, elem_of_Sudoku_Cells in Hin. apply Hdead in Hq.
      exists q. destruct Hq as [Hq0 Hq1]. split; [exact Hin|].
      split; [exact Hq0|]. split; [exact Hq1|reflexivity].
    + exfalso. apply Hdead in Hp0.
      rewrite (List.find_none _ _ Hfind p) in Hp0; [discriminate|].
      apply list_elem_of_In, elem_of_Sudoku_Cells. exact Hp.
  - intros Hall.
    destruct (List.find (deadb s') Sudoku_Cells) as [q|] eqn:Hfind; [|reflexivity].
    exfalso. apply List.find_some in Hfind as [Hin Hq].
    apply list_elem_of_In, elem_of_Sudoku_Cells in Hin. apply Hdead in Hq as [Hq0 Hq1].
    exact (Hall q Hin Hq0 Hq1).
Qed.

(** ** Consistency is kept by every method *)

Definition keepsConsistent (s s' : Sudoku) : Prop := consistent s -> consistent s'.

Lemma empty_shrinks (m m' : Moves) :
  (forall n, Z.testbit m' n = true -> Z.testbit m n = true) -> m = empty -> m' = empty.
Proof.
  intros H ->. apply Z.bits_inj'. intros n _. unfold empty in *. rewrite Z.bits_0.
  destruct (Z.testbit m' n) eqn:Hb; [|reflexivity]. apply H in Hb.
  rewrite Z.bits_0 in Hb. discriminate.
Qed.

Lemma consistent_shrink (s s' : Sudoku) :
  (forall q, cell_value (deref s' q) = cell_value (deref s q) /\
             forall n, Z.testbit (cell_moves (deref s' q)) n = true ->
                       Z.testbit (cell_moves (deref s q)) n = true) ->
  consistent s -> consistent s'.
Proof.
  intros H [H1 H2]. split.
  - intros p Hp. destruct (H p) as [-> Hm]. intros Hv.
    destruct (H1 p Hp Hv) as [Hrange Hempty]. split; [exact Hrange|].
    eapply empty_shrinks; eauto.
  - intros p q Hp Hq Hne Hsees. destruct (H p) as [-> _]. destruct (H q) as [-> Hm].
    intros Hv. destruct (H2 p q Hp Hq Hne Hsees Hv) as [Hd Hh]. split; [exact Hd|].
    unfold has in *. destruct (Z.testbit (cell_moves (deref s' q)) _) eqn:Hb; [|reflexivity].
    apply Hm in Hb. congruence.
Qed.

Lemma clear_shrinks (value : Z) (c : Cell) :
  cell_value (clear value c) = cell_value c /\
  forall n, Z.testbit (cell_moves (clear value c)) n = true ->
            Z.testbit (cell_moves c) n = true.
Proof.
  split; [reflexivity|]. unfold clear. simpl. intros n. rewrite Z.ldiff_spec.
  intros [H _]%andb_true_iff. exact H.
Qed.

Lemma consistent_elim (p : CellPtr) (value : Z) :
  pres keepsConsistent (call p (fun cell => Cell_EliminateMove cell value)).
Proof.
  intros s. unfold call.
  destruct (Z.le_gt_cases 1 value) as [H1|H1];
    [destruct (Z.le_gt_cases value 9) as [H2|H2]|].
  - rewrite Cell_EliminateMove_in by lia. simpl.
    intros Hc. eapply consistent_shrink; [|exact Hc].
    intros q. rewrite deref_store_clear. case_decide; [apply clear_shrinks|auto].
  - rewrite Cell_EliminateMove_out by lia.
    simpl. rewrite store_deref. intros H. exact H.
  - rewrite Cell_EliminateMove_out by lia.
    simpl. rewrite store_deref. intros H. exact H.
Qed.

Lemma consistent_placed (s : Sudoku) (row col value : Z) :
  accepted s row col value -> consistent s -> consistent (placed s row col value).
Proof.
  intros Hacc [H1 H2].
  pose proof (placed_target s row col value Hacc) as Ht.
  pose proof Hacc as (Hrow&Hcol&Hval&Hunset&_&_&_&Hhas).
  assert (Hother : forall q, q <> (row, col) ->
            cell_value (deref (placed s row col value) q) = cell_value (deref s q) /\
            forall v, has (cell_moves (deref (placed s row col value) q)) v = true ->
                      has (cell_moves (deref s q)) v = true).
  { intros q Hne. destruct (placed_other s row col value q Hacc Hne) as [->| ->].
    - auto.
    - split; [reflexivity|]. intros v. unfold has. apply clear_shrinks. }
  assert (Htin : inb (row, col)) by (split; simpl; lia).
  split.
  - intros p Hp. destruct (decide (p = (row, col))) as [->|Hne].
    + rewrite Ht. simpl. auto.
    + destruct (placed_other s row col value p Hacc Hne) as [->| ->].
      * apply H1. exact Hp.
      * simpl. intros Hv. destruct (H1 p Hp Hv) as [Hr He]. split; [exact Hr|].
        rewrite He. reflexivity.
  - intros p q Hp Hq Hpq Hsees.
    destruct (decide (p = (row, col))) as [->|Hnp].
    + rewrite Ht. simpl. intros _.
      rewrite (placed_peer s row col value q) by (done || congruence).
      split; [|apply has_clear; lia]. simpl. intros Heq.
      assert (Hq0 : cell_value (deref s q) <> 0) by lia.
      assert (Hsees' : sees q (row, col)) by (unfold sees in *; simpl in *; intuition lia).
      destruct (H2 q (row, col) Hq Htin ltac:(congruence) Hsees' Hq0) as [_ Hno].
      rewrite Heq in Hno. unfold deref in Hno. simpl in Hno. congruence.
    + destruct (Hother p Hnp) as [-> _]. intros Hv.
      destruct (decide (q = (row, col))) as [->|Hnq].
      * rewrite Ht. simpl. split; [|apply has_empty].
        intros Heq. destruct (H2 p (row, col) Hp Htin Hnp Hsees Hv) as [_ Hno].
        rewrite <- Heq in Hno. unfold deref in Hno. simpl in Hno. congruence.
      * destruct (Hother q Hnq) as [-> Hm].
        destruct (H2 p q Hp Hq Hpq Hsees Hv) as [Hd Hno]. split; [exact Hd|].
        destruct (has (cell_moves (deref (placed s row col value) q)) _) eqn:Hb;
          [|reflexivity].
        apply Hm in Hb. congruence.
Qed.

Lemma consistent_PlayMove (row col value : Z) :
  pres keepsConsistent (PlayMove row col value).
Proof.
  intros s. rewrite PlayMove_unfold.
  destruct (refusal s row col value) as [e|] eqn:Hr; simpl.
  - intros H. exact H.
  - apply refusal_None in Hr. intros Hc. apply consistent_placed; [exact Hr|exact Hc].
Qed.

Lemma keepsConsistent_refl (s : Sudoku) : keepsConsistent s s.
Proof. intros H. exact H. Qed.

Lemma keepsConsistent_trans (s1 s2 s3 : Sudoku) :
  keepsConsistent s1 s2 -> keepsConsistent s2 s3 -> keepsConsistent s1 s3.
Proof. unfold keepsConsistent. auto. Qed.

Lemma consistent_Solve_fuel (fuel : nat) (s s' : Sudoku) (r : result unit) :
  Solve_fuel fuel s = Some (s', r) -> consistent s -> consistent s'.
Proof.
  apply (pres_Solve_fuel keepsConsistent keepsConsistent_refl keepsConsistent_trans
           consistent_elim consistent_PlayMove).
Qed.

(** ** The grid of [NewSudoku] *)

Lemma deref_blank (p : CellPtr) :
  deref blank p = if bool_decide (inb p) then mkCell p.1 p.2 0 full else zeroCell.
Proof.
  destruct p as [r c]. case_bool_decide as Hin.
  - destruct Hin as [Hr Hc]. simpl in Hr, Hc.
    assert (Er : r = 0 \/ r = 1 \/ r = 2 \/ r = 3 \/ r = 4 \/ r = 5 \/ r = 6 \/ r = 7 \/ r = 8)
      by lia.
    assert (Ec : c = 0 \/ c = 1 \/ c = 2 \/ c = 3 \/ c = 4 \/ c = 5 \/ c = 6 \/ c = 7 \/ c = 8)
      by lia.
    clear Hr Hc.
    repeat (destruct Er as [->|Er]); try subst r;
      repeat (destruct Ec as [->|Ec]); try subst c; reflexivity.
  - unfold deref, boardAt. cbn [fst snd].
    destruct ((r <? 0) || (c <? 0)) eqn:Hneg; [reflexivity|].
    apply orb_false_iff in Hneg as [H1%Z.ltb_ge H2%Z.ltb_ge].
    destruct (board blank !! Z.to_nat r) as [rw|] eqn:Hrw; [|reflexivity].
    assert (Hlen : (Z.to_nat r < 9)%nat).
    { apply lookup_lt_Some in Hrw. exact Hrw. }
    destruct (rw !! Z.to_nat c) as [cl|] eqn:Hcl; [|reflexivity].
    exfalso. apply Hin. split; simpl; [lia|]. split; [lia|].
    assert (Hlen' : (Z.to_nat c < 9)%nat).
    { apply lookup_lt_Some in Hcl.
      assert (Er : r = 0 \/ r = 1 \/ r = 2 \/ r = 3 \/ r = 4 \/ r = 5 \/ r = 6 \/ r = 7
                   \/ r = 8) by lia.
      repeat (destruct Er as [->|Er]); try subst r;
        (injection Hrw as <-; exact Hcl). }
    lia.
Qed.

Definition wellFormed (s : Sudoku) : Prop :=
  shaped s /\ labelled s /\ bounded s /\ consistent s.

Lemma shaped_blank : shaped blank.
Proof. reflexivity. Qed.

Lemma labelled_blank : labelled blank.
Proof.
  intros p Hp. rewrite deref_blank. rewrite bool_decide_eq_true_2 by done. auto.
Qed.

Lemma bounded_blank : bounded blank.
Proof.
  intros p n. rewrite deref_blank. case_bool_decide; simpl.
  - change full with (Z.ones 9). apply Z.ones_spec_iff. lia.
  - rewrite Z.bits_0. discriminate.
Qed.

Lemma consistent_blank : consistent blank.
Proof.
  split.
  - intros p Hp. rewrite deref_blank. case_bool_decide; simpl; congruence.
  - intros p q Hp Hq _ _. rewrite (deref_blank p). case_bool_decide; simpl; congruence.
Qed.

Lemma wellFormed_blank : wellFormed blank.
Proof.
  split; [apply shaped_blank|]. split; [apply labelled_blank|].
  split; [apply bounded_blank|apply consistent_blank].
Qed.

Lemma pres_NewSudoku (R : Sudoku -> Sudoku -> Prop) (b : list (list Z)) :
  (forall s, R s s) -> (forall s1 s2 s3, R s1 s2 -> R s2 s3 -> R s1 s3) ->
  (forall row col value, pres R (PlayMove row col value)) ->
  R blank (NewSudoku b).1.
Proof.
  intros Hrefl Htrans Hplay. unfold NewSudoku.
  apply (pres_forM R Hrefl Htrans). intros _ row.
  apply (pres_forM R Hrefl Htrans). intros _ col. cbv zeta.
  destruct (negb _); [apply Hplay|apply pres_ret; exact Hrefl].
Qed.

Lemma wellFormed_step (s s' : Sudoku) :
  evolves s s' -> keepsConsistent s s' -> wellFormed s -> wellFormed s'.
Proof.
  intros He Hk (H1&H2&H3&H4). split; [eapply shaped_evolves; eauto|].
  split; [eapply labelled_evolves; eauto|].
  split; [eapply bounded_evolves; eauto|apply Hk; exact H4].
Qed.

Lemma wellFormed_NewSudoku (b : list (list Z)) : wellFormed (NewSudoku b).1.
Proof.
  apply (wellFormed_step blank).
  - apply pres_NewSudoku; [apply evolves_refl|apply evolves_trans|apply evolves_PlayMove].
  - apply pres_NewSudoku;
      [apply keepsConsistent_refl|apply keepsConsistent_trans|apply consistent_PlayMove].
  - apply wellFormed_blank.
Qed.

Lemma wellFormed_PlayMove (row col value : Z) (s : Sudoku) :
  wellFormed s -> wellFormed (PlayMove row col value s).1.
Proof.
  apply wellFormed_step; [apply evolves_PlayMove|apply consistent_PlayMove].
Qed.

Lemma wellFormed_Solve_fuel (fuel : nat) (s s' : Sudoku) (r : result unit) :
  Solve_fuel fuel s = Some (s', r) -> wellFormed s -> wellFormed s'.
Proof.
  intros H. apply wellFormed_step.
  - eapply evolves_Solve_fuel. exact H.
  - intros Hc. eapply consistent_Solve_fuel; eauto.
Qed.

Lemma quot3_bounds (a b : Z) :
  0 <= a -> 0 <= b <= 8 -> Z.quot a 3 = Z.quot b 3 -> 0 <= a <= 8.
Proof.
  intros Ha Hb. rewrite !Z.quot_div_nonneg by lia. intros Heq.
  pose proof (Z.div_mod a 3 ltac:(lia)). pose proof (Z.mod_pos_bound a 3 ltac:(lia)).
  pose proof (Z.div_mod b 3 ltac:(lia)). pose proof (Z.mod_pos_bound b 3 ltac:(lia)).
  lia.
Qed.

(** A value held by a cell of a slice of the grid is a candidate of no
    cell of that slice. *)
Lemma held_not_in_union (s : Sudoku) (c : Cells) (q : CellPtr) (value : Z) :
  consistent s -> q ∈ c -> inb q -> cell_value (deref s q) = value -> value <> 0 ->
  (forall p, p ∈ c -> inb p /\ sees q p) ->
  has (union s c) value = false.
Proof.
  intros [H1 H2] Hq Hqin Hval Hnz Hsees. rewrite has_union.
  apply not_true_is_false. intros Hex. apply List.existsb_exists in Hex as (p & Hp & Hhas).
  apply list_elem_of_In in Hp. destruct (Hsees p Hp) as [Hpin Hqp].
  destruct (decide (q = p)) as [<-|Hne].
  - destruct (H1 q Hqin ltac:(congruence)) as [_ He]. rewrite He, has_empty in Hhas.
    discriminate.
  - destruct (H2 q p Hqin Hpin Hne Hqp ltac:(congruence)) as [_ Hno].
    rewrite Hval in Hno. congruence.
Qed.

(** C7: for a move inside the grid on an unset cell, [PlayMove] fails
    with a group-conflict error exactly when the value is absent from
    the union of the remaining candidates of the row, the column or the
    square of the cell; on a consistent grid this is the case when a
    cell of the row (column, square) holds the value; in particular, on
    a consistent grid where (0,0) holds 5 and (0,1) is unset,
    [PlayMove(0,1,5)] fails with the row error and leaves the grid as
    it was. *)
Theorem PlayMove_group_conflict (s : Sudoku) (row col value : Z) :
  0 <= row <= 8 -> 0 <= col <= 8 -> 1 <= value <= 9 ->
  cell_value (boardAt s row col) = 0 ->
  ((exists e, (PlayMove row col value s).2 = Err e /\ groupConflict e) <->
   (has (union s (Row row)) value = false \/
    has (union s (Col col)) value = false \/
    has (union s (Square (Z.quot row 3) (Z.quot col 3))) value = false)) /\
  (consistent s ->
   (exists q, (q ∈ Row row \/ q ∈ Col col \/ q ∈ Square (Z.quot row 3) (Z.quot col 3)) /\
              cell_value (deref s q) = value) ->
   exists e, PlayMove row col value s = (s, Err e) /\ groupConflict e) /\
  (consistent s -> row = 0 -> col = 1 -> value = 5 -> cell_value (boardAt s 0 0) = 5 ->
   PlayMove row col value s = (s, Err (RowAlreadyContains 0 5))).
Proof.
  intros Hrow Hcol Hval Hunset.
  assert (Hunfold : PlayMove row col value s
            = if negb (has (union s (Row row)) value)
              then (s, Err (RowAlreadyContains row value))
              else if negb (has (union s (Col col)) value)
              then (s, Err (ColAlreadyContains col value))
              else if negb (has (union s (Square (Z.quot row 3) (Z.quot col 3))) value)
              then (s, Err (SquareAlreadyContains (Z.quot row 3) (Z.quot col 3) value))
              else if negb (has (cell_moves (boardAt s row col)) value)
              then (s, Err (NotValidSpot row col value))
              else (placed s row col value,
                    scanResult (List.find (deadb (placed s row col value)) Sudoku_Cells))).
  { rewrite PlayMove_unfold. unfold refusal.
    destruct (Z.ltb_spec row 0); [lia|]. destruct (Z.geb_spec row 9); [lia|].
    destruct (Z.ltb_spec col 0); [lia|]. destruct (Z.geb_spec col 9); [lia|].
    destruct (Z.ltb_spec value 1); [lia|]. destruct (Z.gtb_spec value 9); [lia|].
    cbn [orb]. rewrite Hunset. cbn [Z.eqb negb].
    repeat match goal with
           | |- context [negb ?b] => destruct b; cbn [negb]
           end; reflexivity. }
  assert (Hconflict :
    has (union s (Row row)) value = false \/
    has (union s (Col col)) value = false \/
    has (union s (Square (Z.quot row 3) (Z.quot col 3))) value = false ->
    exists e, PlayMove row col value s = (s, Err e) /\ groupConflict e).
  { intros H. rewrite Hunfold.
    destruct (has (union s (Row row)) value); cbn [negb]; [|eexists; split; [reflexivity|exact I]].
    destruct (has (union s (Col col)) value); cbn [negb]; [|eexists; split; [reflexivity|exact I]].
    destruct (has (union s (Square _ _)) value); cbn [negb];
      [|eexists; split; [reflexivity|exact I]].
    exfalso. destruct H as [H|[H|H]]; discriminate H. }
  split; [split|split].
  - intros (e & He & Hg). rewrite Hunfold in He.
    destruct (has (union s (Row row)) value); [|auto].
    destruct (has (union s (Col col)) value); [|auto].
    destruct (has (union s (Square _ _)) value); [|auto].
    exfalso. cbn [negb] in He.
    destruct (has (cell_moves (boardAt s row col)) value); cbn [negb snd] in He.
    + destruct (List.find _ _); simpl in He; [|discriminate].
      injection He as <-. exact Hg.
    + injection He as <-. exact Hg.
  - intros H. destruct (Hconflict H) as (e & He & Hg). exists e. rewrite He. auto.
  - intros Hcons (q & Hq & Hheld). apply Hconflict.
    assert (Hsq : 0 <= Z.quot row 3 /\ 0 <= Z.quot col 3)
      by (split; apply Z.quot_pos; lia).
    destruct Hq as [Hq|[Hq|Hq]]; [left|right; left|right; right].
    + apply (held_not_in_union s _ q); try done; try lia.
      * apply elem_of_Row in Hq. split; lia.
      * apply elem_of_Row in Hq. intros p Hp%elem_of_Row.
        split; [split; lia|]. left. lia.
    + apply (held_not_in_union s _ q); try done; try lia.
      * apply elem_of_Col in Hq. split; lia.
      * apply elem_of_Col in Hq. intros p Hp%elem_of_Col.
        split; [split; lia|]. right. left. lia.
    + apply elem_of_Square in Hq as (Hq1 & Hq2 & Hq3 & Hq4); [|lia..].
      assert (Hsquare : forall p, p ∈ Square (Z.quot row 3) (Z.quot col 3) ->
                inb p /\ Z.quot p.1 3 = Z.quot row 3 /\ Z.quot p.2 3 = Z.quot col 3).
      { intros p Hp. apply elem_of_Square in Hp as (Hp1 & Hp2 & Hp3 & Hp4); [|lia..].
        split; [|auto].
        split; [apply (quot3_bounds _ row)|apply (quot3_bounds _ col)]; done. }
      apply (held_not_in_union s _ q); try done; try lia.
      * apply elem_of_Square; [lia..|]. auto.
      * apply (Hsquare q). apply elem_of_Square; [lia..|]. auto.
      * intros p Hp. destruct (Hsquare p Hp) as (Hpin & Hp3 & Hp4).
        split; [exact Hpin|]. right. right. split; congruence.
  - intros Hcons -> -> -> Hheld.
    assert (Hno : has (union s (Row 0)) 5 = false).
    { apply (held_not_in_union s _ (0, 0)).
      - exact Hcons.
      - apply elem_of_Row. simpl. lia.
      - split; simpl; lia.
      - exact Hheld.
      - lia.
      - intros p Hp%elem_of_Row. split; [split; lia|]. left. simpl. lia. }
    rewrite Hunfold, Hno. reflexivity.
Qed.

Definition fiveAtOrigin : list (list Z) :=
  [[5;0;0;0;0;0;0;0;0];
   [0;0;0;0;0;0;0;0;0];
   [0;0;0;0;0;0;0;0;0];
   [0;0;0;0;0;0;0;0;0];
   [0;0;0;0;0;0;0;0;0];
   [0;0;0;0;0;0;0;0;0];
   [0;0;0;0;0;0;0;0;0];
   [0;0;0;0;0;0;0;0;0];
   [0;0;0;0;0;0;0;0;0]].

Lemma PlayMove_group_conflict_same_row :
  PlayMove 0 1 5 (NewSudoku fiveAtOrigin).1
  = ((NewSudoku fiveAtOrigin).1, Err (RowAlreadyContains 0 5)).
Proof.
  destruct (PlayMove_group_conflict (NewSudoku fiveAtOrigin).1 0 1 5) as (_ & _ & H);
    [lia|lia|lia|vm_compute; reflexivity|].
  apply H; [|reflexivity..].
  apply wellFormed_NewSudoku.
Defined.

Lemma PlayMove_reports_contradiction_twoOnes :
  exists p, inb p /\
    cell_value (deref (PlayMove 0 0 1 (NewSudoku twoOnes).1).1 p) = 0 /\
    Cell_Moves (deref (PlayMove 0 0 1 (NewSudoku twoOnes).1).1 p) = [] /\
    (PlayMove 0 0 1 (NewSudoku twoOnes).1).2 = Err (NoMovesLeft p.1 p.2).
Proof.
  destruct (PlayMove_reports_contradiction (NewSudoku twoOnes).1 0 0 1) as (_ & H & _).
  - apply wellFormed_NewSudoku.
  - vm_compute. repeat split; congruence.
  - apply H. exists (0, 1). vm_compute. repeat split; congruence.
Defined.

(** ** Sequences of operations on a grid *)

(** What a caller can do to a grid: the two exported methods, one
    activation of [Solve], and the mutating methods of the cells and
    slices the accessors of that grid hand out. *)
Inductive operation : Type :=
  | OpPlayMove (row col value : Z)          (* s.PlayMove(row, col, value) *)
  | OpSolve                                 (* s.Solve() *)
  | OpSweep                                 (* one activation of Solve *)
  | OpSet (p : CellPtr) (value : Z)         (* s.Cell(row, col).Set(value) *)
  | OpEliminate (p : CellPtr) (value : Z)   (* s.Cell(row, col).EliminateMove(value) *)
  | OpEliminateAll (c : Cells) (value : Z). (* cells.EliminateMove(value) *)

Definition perform (op : operation) (s : Sudoku) : Sudoku :=
  match op with
  | OpPlayMove row col value => (PlayMove row col value s).1
  | OpSolve => (Solve s).1
  | OpSweep => (Solve_call s).1
  | OpSet p value => (call p (fun cell => Cell_Set cell value) s).1
  | OpEliminate p value => (call p (fun cell => Cell_EliminateMove cell value) s).1
  | OpEliminateAll c value => (Cells_EliminateMove c value s).1
  end.

Definition performAll (ops : list operation) (s : Sudoku) : Sudoku :=
  fold_left (fun s op => perform op s) ops s.

Lemma evolves_perform (op : operation) (s : Sudoku) : evolves s (perform op s).
Proof.
  destruct op; simpl.
  - apply evolves_PlayMove.
  - apply evolves_Solve.
  - apply evolves_Solve_call.
  - apply evolves_call. intros c. apply cell_le_Set.
  - apply evolves_elim.
  - apply evolves_Cells_EliminateMove.
Qed.

Lemma evolves_performAll (ops : list operation) (s : Sudoku) :
  evolves s (performAll ops s).
Proof.
  unfold performAll. revert s. induction ops as [|op ops IH]; intros s; simpl.
  - apply evolves_refl.
  - eapply evolves_trans; [apply evolves_perform|apply IH].
Qed.

Lemma performAll_app (ops1 ops2 : list operation) (s : Sudoku) :
  performAll (ops1 ++ ops2) s = performAll ops2 (performAll ops1 s).
Proof. unfold performAll. apply fold_left_app. Qed.

(** C5: candidate removal is monotonic.  Whatever operations are run on
    a grid, a value that is absent from the candidate set of a cell
    after some of them is absent after any more of them. *)
Theorem candidates_never_come_back
    (s : Sudoku) (before after : list operation) (row col value : Z) :
  Cell_CanPlay (boardAt (performAll before s) row col) value = Ok false ->
  Cell_CanPlay (boardAt (performAll (before ++ after) s) row col) value = Ok false.
Proof.
  rewrite performAll_app. generalize (performAll before s). clear s. intros s.
  unfold Cell_CanPlay, Moves_Contains. unfold mask.
  destruct ((value <? 1) || (value >? 9)) eqn:Hr; [discriminate|].
  apply orb_false_iff in Hr as [H1%Z.ltb_ge H2]. rewrite Z.gtb_ltb in H2.
  apply Z.ltb_ge in H2. simpl. rewrite !land_bit by lia. rewrite !negb_involutive.
  intros H. injection H as H. f_equal.
  destruct (evolves_performAll after s) as (Hle & _).
  destruct (Hle (row, col)) as (_ & _ & _ & Hm).
  change (deref s (row, col)) with (boardAt s row col) in Hm.
  change (deref (performAll after s) (row, col))
    with (boardAt (performAll after s) row col) in Hm.
  destruct (Z.testbit (cell_moves (boardAt (performAll after s) row col)) (value - 1)) eqn:Hb;
    [|reflexivity].
  apply Hm in Hb. congruence.
Qed.

Lemma candidates_never_come_back_after_solving :
  Cell_CanPlay
    (boardAt (performAll ([OpPlayMove 0 0 5] ++ [OpSolve; OpPlayMove 0 1 3; OpSweep]) blank) 0 1)
    5 = Ok false.
Proof.
  apply (candidates_never_come_back blank [OpPlayMove 0 0 5]
           [OpSolve; OpPlayMove 0 1 3; OpSweep] 0 1 5).
  vm_compute. reflexivity.
Defined.

(** ** Grids as objects: [Clone] *)

(** The [*Sudoku] objects of a program, by address.  A cell pointer
    obtained from a grid points into the board array of that grid, so
    an operation names the grid it is run on. *)
Notation Heap := (gmap nat Sudoku).

Definition perform_at (h : Heap) (g : nat) (op : operation) : Heap :=
  match h !! g with
  | Some s => <[g := perform op s]> h
  | None => h
  end.

(** The operations of a trace that are run on the grid [g]. *)
Definition opsOn (g : nat) (trace : list (nat * operation)) : list operation :=
  List.map snd (List.filter (fun step => Nat.eqb step.1 g) trace).

(** The memory of the program, cell by cell.  A [Sudoku] struct is its
    board array, 81 cells laid out row after row: a [*Sudoku] is the
    address of the first cell, and the cell pointer
    [&s.board[row][col]] is the address [s + 9 * row + col]. *)
Notation Memory := (gmap nat Cell).

(** The cell at an address; memory that was never written reads as the
    zero cell. *)
Definition cellAt (m : Memory) (a : nat) : Cell := default zeroCell (m !! a).

(** [*s]: the struct whose cells are at [s], [s + 1], ..., [s + 80]. *)
Definition loadSudoku (m : Memory) (s : nat) : Sudoku :=
  mkSudoku
    (List.map (fun row => List.map (fun col => cellAt m (s + (9 * row + col))) (seq 0 9))
              (seq 0 9)).

(** The cells of [v] written to the struct at [s]. *)
Definition storeSudoku (m : Memory) (s : nat) (v : Sudoku) : Memory :=
  foldr (fun off m' =>
           <[(s + off)%nat := boardAt v (Z.of_nat (off / 9)) (Z.of_nat (off mod 9))]> m')
        m (seq 0 81).

(** A method called through the pointer [s] reads and writes the cells
    of the struct at [s]. *)
Definition performOn (m : Memory) (s : nat) (op : operation) : Memory :=
  storeSudoku m s (perform op (loadSudoku m s)).

Definition performAllOn (m : Memory) (trace : list (nat * operation)) : Memory :=
  fold_left (fun m step => performOn m step.1 step.2) trace m.

(** Where a new struct is put: above every address in use. *)
Definition allocate (m : Memory) : nat :=
  foldr (fun a top => Nat.max (S a) top) 0%nat (elements (dom m)).

(** The array assignment [board: s.board] of the composite literal:
    the 81 cells at [src] are copied to [dst]. *)
Definition copyBoard (m : Memory) (src dst : nat) : Memory :=
  foldr (fun off m' => <[(dst + off)%nat := cellAt m (src + off)]> m') m (seq 0 81).

(** [s.Clone()], that is [&Sudoku{board: s.board}]: a new struct whose
    board array is a copy of the board array of [s]. *)
Definition Clone_at (m : Memory) (s : nat) : Memory * nat :=
  let clone := allocate m in
  (copyBoard m s clone, clone).

Lemma lookup_written (f : nat -> Cell) (base : nat) (l : list nat) (m : Memory) (off : nat) :
  off ∈ l ->
  foldr (fun off m' => <[(base + off)%nat := f off]> m') m l !! (base + off)%nat
  = Some (f off).
Proof.
  induction l as [|x l IH]; intros Hin; [inversion Hin|]. simpl.
  destruct (decide (x = off)) as [->|Hne]; [apply lookup_insert_eq|].
  rewrite lookup_insert_ne by lia. apply IH.
  apply elem_of_cons in Hin as [Heq|Hin]; [congruence|exact Hin].
Qed.

Lemma lookup_not_written (f : nat -> Cell) (base : nat) (l : list nat) (m : Memory) (a : nat) :
  (forall off, off ∈ l -> a <> (base + off)%nat) ->
  foldr (fun off m' => <[(base + off)%nat := f off]> m') m l !! a = m !! a.
Proof.
  induction l as [|x l IH]; intros Hout; [reflexivity|]. simpl.
  rewrite lookup_insert_ne.
  - apply IH. intros off Hoff. apply Hout. constructor. exact Hoff.
  - intros Heq. apply (Hout x); [constructor|congruence].
Qed.

Lemma storeSudoku_in (m : Memory) (s : nat) (v : Sudoku) (off : nat) :
  (off < 81)%nat ->
  storeSudoku m s v !! (s + off)%nat
  = Some (boardAt v (Z.of_nat (off / 9)) (Z.of_nat (off mod 9))).
Proof.
  intros Hoff. unfold storeSudoku.
  apply (lookup_written (fun off => boardAt v (Z.of_nat (off / 9)) (Z.of_nat (off mod 9)))).
  apply elem_of_seq. lia.
Qed.

Lemma storeSudoku_out (m : Memory) (s : nat) (v : Sudoku) (a : nat) :
  ~ (s <= a < s + 81)%nat -> storeSudoku m s v !! a = m !! a.
Proof.
  intros Ha. unfold storeSudoku.
  apply (lookup_not_written
           (fun off => boardAt v (Z.of_nat (off / 9)) (Z.of_nat (off mod 9)))).
  intros off Hoff%elem_of_seq. lia.
Qed.

Lemma copyBoard_in (m : Memory) (src dst off : nat) :
  (off < 81)%nat -> copyBoard m src dst !! (dst + off)%nat = Some (cellAt m (src + off)).
Proof.
  intros Hoff. unfold copyBoard.
  apply (lookup_written (fun off => cellAt m (src + off))). apply elem_of_seq. lia.
Qed.

Lemma copyBoard_out (m : Memory) (src dst a : nat) :
  ~ (dst <= a < dst + 81)%nat -> copyBoard m src dst !! a = m !! a.
Proof.
  intros Ha. unfold copyBoard.
  apply (lookup_not_written (fun off => cellAt m (src + off))).
  intros off Hoff%elem_of_seq. lia.
Qed.

Lemma loadSudoku_ext (m1 m2 : Memory) (s1 s2 : nat) :
  (forall off, (off < 81)%nat -> cellAt m1 (s1 + off) = cellAt m2 (s2 + off)) ->
  loadSudoku m1 s1 = loadSudoku m2 s2.
Proof.
  intros H. unfold loadSudoku. f_equal.
  apply List.map_ext_in. intros row Hrow%List.in_seq.
  apply List.map_ext_in. intros col Hcol%List.in_seq. apply H. lia.
Qed.

Lemma shaped_loadSudoku (m : Memory) (s : nat) : shaped (loadSudoku m s).
Proof. reflexivity. Qed.

Lemma list_of_9 {X : Type} (l : list X) :
  length l = 9%nat -> exists a b c d e f g h i, l = [a; b; c; d; e; f; g; h; i].
Proof.
  intros H. repeat (destruct l as [|? l]; simpl in H; try discriminate). eauto 10.
Qed.

(** A 9 by 9 board is the table of its 81 cells. *)
Lemma shaped_board (v : Sudoku) :
  shaped v ->
  board v
  = List.map (fun row =>
                List.map (fun col => boardAt v (Z.of_nat row) (Z.of_nat col)) (seq 0 9))
             (seq 0 9).
Proof.
  destruct v as [b]. unfold shaped, shape. cbn [board]. intros H.
  assert (Hb : length b = 9%nat).
  { apply (f_equal length) in H. rewrite length_map in H. exact H. }
  destruct (list_of_9 b Hb) as (r0 & r1 & r2 & r3 & r4 & r5 & r6 & r7 & r8 & ->).
  clear Hb. simpl in H. injection H as H0 H1 H2 H3 H4 H5 H6 H7 H8.
  repeat match goal with
         | Hr : length ?r = 9%nat |- _ =>
             destruct (list_of_9 r Hr) as (? & ? & ? & ? & ? & ? & ? & ? & ? & ->); clear Hr
         end.
  reflexivity.
Qed.

Lemma loadSudoku_storeSudoku (m : Memory) (s : nat) (v : Sudoku) :
  shaped v -> loadSudoku (storeSudoku m s v) s = v.
Proof.
  intros Hv. pose proof (shaped_board v Hv) as Hb. destruct v as [b]. cbn [board] in Hb.
  unfold loadSudoku. f_equal. etransitivity; [|symmetry; exact Hb].
  apply List.map_ext_in. intros row Hrow%List.in_seq.
  apply List.map_ext_in. intros col Hcol%List.in_seq.
  unfold cellAt. rewrite storeSudoku_in by lia. cbn [default].
  assert (Hdiv : ((9 * row + col) / 9 = row)%nat).
  { symmetry. apply (Nat.div_unique _ 9 row col); lia. }
  assert (Hmod : ((9 * row + col) mod 9 = col)%nat).
  { symmetry. apply (Nat.mod_unique _ 9 row col); lia. }
  rewrite Hdiv, Hmod. reflexivity.
Qed.

Lemma loadSudoku_storeSudoku_other (m : Memory) (s s' : nat) (v : Sudoku) :
  (forall off off', (off < 81)%nat -> (off' < 81)%nat -> (s + off <> s' + off')%nat) ->
  loadSudoku (storeSudoku m s' v) s = loadSudoku m s.
Proof.
  intros Hsep. apply loadSudoku_ext. intros off Hoff. unfold cellAt.
  rewrite storeSudoku_out; [reflexivity|]. intros [H1 H2].
  apply (Hsep off (s + off - s')%nat); lia.
Qed.

Lemma shaped_perform (op : operation) (v : Sudoku) : shaped v -> shaped (perform op v).
Proof. intros Hv. eapply shaped_evolves; [exact Hv|apply evolves_perform]. Qed.

Lemma allocate_above (m : Memory) (a : nat) : a ∈ dom m -> (a < allocate m)%nat.
Proof.
  unfold allocate. intros Ha%elem_of_elements.
  induction (elements (dom m)) as [|x l IH]; [inversion Ha|]. simpl.
  apply elem_of_cons in Ha as [->|Ha]; [lia|]. specialize (IH Ha). lia.
Qed.

(** A method called through [s] writes the cells of the struct at [s]
    and no other. *)
Lemma performOn_out (m : Memory) (s : nat) (op : operation) (a : nat) :
  ~ (s <= a < s + 81)%nat -> performOn m s op !! a = m !! a.
Proof. apply storeSudoku_out. Qed.

Lemma performOn_load (m : Memory) (s : nat) (op : operation) :
  loadSudoku (performOn m s op) s = perform op (loadSudoku m s).
Proof.
  unfold performOn. apply loadSudoku_storeSudoku, shaped_perform, shaped_loadSudoku.
Qed.

Lemma performOn_load_other (m : Memory) (s s' : nat) (op : operation) :
  (forall off off', (off < 81)%nat -> (off' < 81)%nat -> (s + off <> s' + off')%nat) ->
  loadSudoku (performOn m s' op) s = loadSudoku m s.
Proof. apply loadSudoku_storeSudoku_other. Qed.

Lemma performAllOn_out (m : Memory) (s : nat) (ops : list operation) (a : nat) :
  ~ (s <= a < s + 81)%nat ->
  performAllOn m (List.map (pair s) ops) !! a = m !! a.
Proof.
  intros Ha. unfold performAllOn. revert m.
  induction ops as [|op ops IH]; intros m; simpl; [reflexivity|].
  rewrite IH. apply performOn_out. exact Ha.
Qed.

Lemma opsOn_cons_same (g : nat) (op : operation) (trace : list (nat * operation)) :
  opsOn g ((g, op) :: trace) = op :: opsOn g trace.
Proof. unfold opsOn. simpl. rewrite Nat.eqb_refl. reflexivity. Qed.

Lemma opsOn_cons_other (g g' : nat) (op : operation) (trace : list (nat * operation)) :
  g' <> g -> opsOn g ((g', op) :: trace) = opsOn g trace.
Proof.
  intros Hne. unfold opsOn. simpl. destruct (Nat.eqb_spec g' g); [contradiction|reflexivity].
Qed.

(** Two structs without a common cell: each is what the operations run
    through its own pointer make of it. *)
Lemma performAllOn_separate (s c : nat) (trace : list (nat * operation)) (m : Memory) :
  (forall off off', (off < 81)%nat -> (off' < 81)%nat -> (c + off <> s + off')%nat) ->
  Forall (fun step => step.1 = s \/ step.1 = c) trace ->
  loadSudoku (performAllOn m trace) s = performAll (opsOn s trace) (loadSudoku m s) /\
  loadSudoku (performAllOn m trace) c = performAll (opsOn c trace) (loadSudoku m c).
Proof.
  intros Hsep Htrace. revert m.
  assert (Hne : c <> s).
  { intros ->. apply (Hsep 0%nat 0%nat); lia. }
  assert (Hsep' : forall off off',
            (off < 81)%nat -> (off' < 81)%nat -> (s + off <> c + off')%nat).
  { intros off off' H1 H2 Heq. apply (Hsep off' off); [lia|lia|]. symmetry. exact Heq. }
  induction Htrace as [|[g op] trace [Hg|Hg] _ IH]; intros m.
  - split; reflexivity.
  - simpl in Hg. subst g. rewrite opsOn_cons_same, opsOn_cons_other by congruence.
    change (performAllOn m ((s, op) :: trace)) with (performAllOn (performOn m s op) trace).
    destruct (IH (performOn m s op)) as [H1 H2]. rewrite H1, H2.
    rewrite performOn_load, (performOn_load_other m c s op Hsep). split; reflexivity.
  - simpl in Hg. subst g. rewrite opsOn_cons_same, opsOn_cons_other by congruence.
    change (performAllOn m ((c, op) :: trace)) with (performAllOn (performOn m c op) trace).
    destruct (IH (performOn m c op)) as [H1 H2]. rewrite H1, H2.
    rewrite performOn_load, (performOn_load_other m s c op Hsep'). split; reflexivity.
Qed.

(** C8: [Clone] yields a fully independent copy.  The clone is a new
    struct that has no cell in common with the original and with
    anything else in memory, and its 81 cells hold what the cells of
    the original hold.  Every cell outside the clone, those of the
    original among them, is left as it is by any sequence of operations
    run on the clone, and every cell outside the original by any
    sequence run on the original.  After any interleaving of
    operations on the two grids each of them is what its own operations
    make of the cloned grid. *)
Theorem Clone_is_independent (m : Memory) (s : nat) :
  (forall off, (off < 81)%nat -> is_Some (m !! (s + off)%nat)) ->
  exists c m',
    Clone_at m s = (m', c) /\
    (forall off off', (off < 81)%nat -> (off' < 81)%nat -> (c + off <> s + off')%nat) /\
    (forall off, (off < 81)%nat ->
       m !! (c + off)%nat = None /\ m' !! (c + off)%nat = m !! (s + off)%nat) /\
    (forall a, ~ (c <= a < c + 81)%nat -> m' !! a = m !! a) /\
    (forall ops a, ~ (c <= a < c + 81)%nat ->
       performAllOn m' (List.map (pair c) ops) !! a = m' !! a) /\
    (forall ops a, ~ (s <= a < s + 81)%nat ->
       performAllOn m' (List.map (pair s) ops) !! a = m' !! a) /\
    forall trace, Forall (fun step => step.1 = s \/ step.1 = c) trace ->
      loadSudoku (performAllOn m' trace) s = performAll (opsOn s trace) (loadSudoku m s) /\
      loadSudoku (performAllOn m' trace) c = performAll (opsOn c trace) (loadSudoku m s).
Proof.
  intros Hs. unfold Clone_at. cbv zeta. set (c := allocate m).
  exists c, (copyBoard m s c). split; [reflexivity|].
  assert (Hfree : forall a, (c <= a)%nat -> m !! a = None).
  { intros a Ha. apply not_elem_of_dom. intros Hin%allocate_above. fold c in Hin. lia. }
  assert (Hsep : forall off off',
            (off < 81)%nat -> (off' < 81)%nat -> (c + off <> s + off')%nat).
  { intros off off' _ Hoff' Heq. destruct (Hs off' Hoff') as [x Hx].
    rewrite <- Heq, Hfree in Hx by lia. discriminate. }
  assert (Hcopy : forall off, (off < 81)%nat ->
            copyBoard m s c !! (c + off)%nat = m !! (s + off)%nat).
  { intros off Hoff. rewrite copyBoard_in by exact Hoff. unfold cellAt.
    destruct (Hs off Hoff) as [x ->]. reflexivity. }
  assert (Hold : forall a, ~ (c <= a < c + 81)%nat -> copyBoard m s c !! a = m !! a).
  { intros a Ha. apply copyBoard_out. exact Ha. }
  split; [exact Hsep|]. split.
  { intros off Hoff. split; [apply Hfree; lia|apply Hcopy; exact Hoff]. }
  split; [exact Hold|]. split; [intros ops a Ha; apply performAllOn_out; exact Ha|].
  split; [intros ops a Ha; apply performAllOn_out; exact Ha|].
  intros trace Htrace.
  destruct (performAllOn_separate s c trace (copyBoard m s c) Hsep Htrace) as [H1 H2].
  rewrite H1, H2.
  assert (Horig : loadSudoku (copyBoard m s c) s = loadSudoku m s).
  { apply loadSudoku_ext. intros off Hoff. unfold cellAt. rewrite Hold; [reflexivity|].
    intros [Ha Hb]. apply (Hsep (s + off - c)%nat off); lia. }
  assert (Hclone : loadSudoku (copyBoard m s c) c = loadSudoku m s).
  { apply loadSudoku_ext. intros off Hoff. unfold cellAt. rewrite Hcopy by exact Hoff.
    reflexivity. }
  rewrite Horig, Hclone. split; reflexivity.
Qed.

(** The blank grid at address 0 of an otherwise empty memory. *)
Definition blankAtZero : Memory := storeSudoku ∅ 0 blank.

(** Moves played on the clone of the blank grid and a solve of the
    clone do not show in the original, a move played on the original
    does. *)
Lemma Clone_is_independent_of_a_solved_clone :
  exists c, c <> 0%nat /\
    loadSudoku
      (performAllOn (Clone_at blankAtZero 0).1
         [(c, OpPlayMove 0 0 5); (0%nat, OpPlayMove 0 0 7); (c, OpSolve)]) 0
    = performAll [OpPlayMove 0 0 7] blank /\
    loadSudoku
      (performAllOn (Clone_at blankAtZero 0).1
         [(c, OpPlayMove 0 0 5); (0%nat, OpPlayMove 0 0 7); (c, OpSolve)]) c
    = performAll [OpPlayMove 0 0 5; OpSolve] blank.
Proof.
  destruct (Clone_is_independent blankAtZero 0) as (c & m' & Hclone & Hsep & _ & _ & _ & _ & H).
  - intros off Hoff. unfold blankAtZero. rewrite storeSudoku_in by exact Hoff. eauto.
  - assert (Hne : c <> 0%nat).
    { intros ->. apply (Hsep 0%nat 0%nat); lia. }
    exists c. split; [exact Hne|]. rewrite Hclone. cbn [fst].
    destruct (H [(c, OpPlayMove 0 0 5); (0%nat, OpPlayMove 0 0 7); (c, OpSolve)]) as [H0 Hc].
    { constructor; [right; reflexivity|]. constructor; [left; reflexivity|].
      constructor; [right; reflexivity|]. constructor. }
    rewrite H0, Hc.
    assert (Hblank : loadSudoku blankAtZero 0 = blank).
    { apply loadSudoku_storeSudoku. apply shaped_blank. }
    rewrite Hblank. unfold opsOn. cbn [List.filter List.map fst snd].
    rewrite !Nat.eqb_refl. destruct (Nat.eqb_spec c 0); [contradiction|].
    destruct (Nat.eqb_spec 0 c); [congruence|]. split; reflexivity.
Defined.

(** ** Every counted change removes a candidate *)

(** A method that leaves the grid as it is. *)
Definition reader {A : Type} (m : M A) : Prop := pres eq m.

Lemma reader_eq {A : Type} (m : M A) (s : Sudoku) : reader m -> (m s).1 = s.
Proof. intros H. symmetry. apply H. Qed.

Lemma eq_trans_Sudoku (s1 s2 s3 : Sudoku) : s1 = s2 -> s2 = s3 -> s1 = s3.
Proof. congruence. Qed.

Lemma reader_FindMove (c : Cells) (value : Z) : reader (Cells_FindMove c value).
Proof. apply pres_Cells_FindMove; [reflexivity|apply eq_trans_Sudoku]. Qed.

Lemma reader_UnsetOnly (c : Cells) : reader (Cells_UnsetOnly c).
Proof. apply pres_Cells_UnsetOnly; [reflexivity|apply eq_trans_Sudoku]. Qed.

Lemma reader_RemainingMoves (c : Cells) : reader (Cells_RemainingMoves c).
Proof. apply pres_Cells_RemainingMoves; [reflexivity|apply eq_trans_Sudoku]. Qed.

Lemma reader_Excluding (c other : Cells) : reader (Cells_Excluding c other).
Proof. apply pres_Cells_Excluding. reflexivity. Qed.

Lemma reader_UniqueRows (c : Cells) : reader (Cells_UniqueRows c).
Proof. apply pres_Cells_UniqueRows. reflexivity. Qed.

Lemma reader_UniqueCols (c : Cells) : reader (Cells_UniqueCols c).
Proof. apply pres_Cells_UniqueCols. reflexivity. Qed.

Lemma reader_first (group : Cells) : reader (first group).
Proof. apply pres_first. reflexivity. Qed.

Lemma reader_load (p : CellPtr) : reader (load p).
Proof. apply pres_load. reflexivity. Qed.

(** [m] returns a counter that is at least [moves], and the grid has
    lost at least as many candidates as the counter has grown. *)
Definition counted (m : M Z) (moves : Z) : Prop :=
  forall s,
    match m s with
    | (s', Ok moves') =>
        moves <= moves' /\
        Z.of_nat (candidates s') + (moves' - moves) <= Z.of_nat (candidates s)
    | _ => True
    end.

Lemma counted_ret (moves : Z) : counted (ret moves) moves.
Proof. intros s. simpl. lia. Qed.

Lemma counted_bind_read {A : Type} (m : M A) (f : A -> M Z) (moves : Z) :
  reader m -> (forall a, counted (f a) moves) -> counted (bind m f) moves.
Proof.
  intros Hm Hf s. unfold bind. pose proof (reader_eq m s Hm) as Hs.
  destruct (m s) as [s1 [a|e|]]; simpl in Hs; [|exact I..]. subst s1. apply Hf.
Qed.

Lemma counted_bind (m : M Z) (f : Z -> M Z) (moves : Z) :
  counted m moves -> (forall k, counted (f k) k) -> counted (bind m f) moves.
Proof.
  intros Hm Hf s. unfold bind. specialize (Hm s).
  destruct (m s) as [s1 [k|e|]]; [|exact I..].
  specialize (Hf k s1). destruct (f k s1) as [s2 [k'|e|]]; [|exact I..]. lia.
Qed.

Lemma counted_forM {X : Type} (l : list X) (moves : Z) (body : Z -> X -> M Z) :
  (forall k x, x ∈ l -> counted (body k x) k) -> counted (forM l moves body) moves.
Proof.
  revert moves. induction l as [|x l IH]; intros moves Hb; simpl.
  - apply counted_ret.
  - apply counted_bind.
    + apply Hb. constructor.
    + intros k. apply IH. intros k' y Hy. apply Hb. constructor. exact Hy.
Qed.

Lemma filter_without (f : Z -> bool) (v : Z) (l : list Z) :
  NoDup l ->
  (length (List.filter (fun x => f x && negb (Z.eqb x v)) l)
   + (if f v && bool_decide (v ∈ l) then 1 else 0)
   = length (List.filter f l))%nat.
Proof.
  induction 1 as [|a l Ha Hl IH]; simpl.
  - rewrite andb_false_r. reflexivity.
  - destruct (Z.eqb_spec a v) as [->|Hne].
    + rewrite andb_false_r. rewrite (bool_decide_eq_true_2 (v ∈ v :: l)) by constructor.
      rewrite (bool_decide_eq_false_2 (v ∈ l)) in IH by done.
      rewrite andb_false_r in IH. rewrite andb_true_r.
      destruct (f v); simpl; lia.
    + rewrite andb_true_r.
      replace (bool_decide (v ∈ a :: l)) with (bool_decide (v ∈ l)).
      2:{ apply bool_decide_ext. rewrite elem_of_cons. intuition congruence. }
      destruct (f a); simpl; lia.
Qed.

Lemma weight_clear (value : Z) (c : Cell) :
  1 <= value <= 9 ->
  (weight (clear value c) + (if has (cell_moves c) value then 1 else 0) = weight c)%nat.
Proof.
  intros Hv. unfold weight, Cell_Moves. rewrite !Moves_Slice_has. unfold clear.
  cbn [cell_moves].
  rewrite <- (filter_without (has (cell_moves c)) value (seqZ 1 9)) by apply NoDup_seqZ.
  rewrite (bool_decide_eq_true_2 (value ∈ seqZ 1 9)) by (apply elem_of_seqZ; lia).
  rewrite andb_true_r. f_equal. f_equal. apply List.filter_ext_in.
  intros x Hx%list_elem_of_In%elem_of_seqZ. apply has_ldiff; lia.
Qed.

Lemma candidates_clear (s : Sudoku) (p : CellPtr) (value : Z) :
  1 <= value <= 9 ->
  (candidates (store s p (clear value (deref s p)))
   + (if has (cell_moves (deref s p)) value then 1 else 0) = candidates s)%nat.
Proof.
  intros Hv. destruct (valid_dec s p) as [Hp|Hp].
  - pose proof (candidates_store s p (clear value (deref s p)) Hp).
    pose proof (weight_clear value (deref s p) Hv). lia.
  - rewrite store_invalid by done. rewrite deref_invalid by done.
    rewrite has_empty. lia.
Qed.

Lemma counted_eliminate_loop (c : Cells) (value changes : Z) :
  counted
    (forM c changes (fun changes p =>
       do changed <- call p (fun cell => Cell_EliminateMove cell value) ;
       ret (if changed then changes + 1 else changes)))
    changes.
Proof.
  apply counted_forM. intros k p _ s. unfold bind, call.
  destruct (Z.le_gt_cases 1 value) as [H1|H1];
    [destruct (Z.le_gt_cases value 9) as [H2|H2]|].
  - rewrite Cell_EliminateMove_in by lia. simpl.
    pose proof (candidates_clear s p value ltac:(lia)).
    destruct (has (cell_moves (deref s p)) value); lia.
  - rewrite Cell_EliminateMove_out by lia. exact I.
  - rewrite Cell_EliminateMove_out by lia. exact I.
Qed.

Lemma counted_Cells_EliminateMove (c : Cells) (value : Z) :
  counted (Cells_EliminateMove c value) 0.
Proof. apply counted_eliminate_loop. Qed.

(** The increment that follows an elimination that changed a cell. *)
Lemma counted_after_elimination (c : Cells) (value moves : Z) :
  counted
    (do changed <- Cells_EliminateMove c value ;
     ret (if changed >? 0 then moves + 1 else moves))
    moves.
Proof.
  intros s. unfold bind. pose proof (counted_Cells_EliminateMove c value s) as H.
  destruct (Cells_EliminateMove c value s) as [s1 [n|e|]]; [|exact I..]. simpl.
  destruct (Z.gtb_spec n 0); lia.
Qed.

Lemma weight_pos (c : Cell) (v : Z) :
  1 <= v <= 9 -> has (cell_moves c) v = true -> (1 <= weight c)%nat.
Proof.
  intros Hv Hh. unfold weight, Cell_Moves.
  assert (Hin : v ∈ Moves_Slice (cell_moves c)) by (apply elem_of_Moves_Slice; auto).
  destruct (Moves_Slice (cell_moves c)); [inversion Hin|simpl; lia].
Qed.

Lemma candidates_eliminated (c : Cells) (value : Z) (s : Sudoku) :
  1 <= value <= 9 -> (candidates (eliminated c value s) <= candidates s)%nat.
Proof.
  intros Hv. pose proof (counted_Cells_EliminateMove c value s) as H.
  destruct (Cells_EliminateMove_in c value s Hv) as [n Hn]. rewrite Hn in H. lia.
Qed.

Lemma PlayMove_decreases (row col value : Z) (s s' : Sudoku) :
  PlayMove row col value s = (s', Ok tt) -> (candidates s' + 1 <= candidates s)%nat.
Proof.
  rewrite PlayMove_unfold. destruct (refusal s row col value) as [e|] eqn:Hr; [discriminate|].
  apply refusal_None in Hr. destruct Hr as (Hrow&Hcol&Hval&Hunset&_&_&_&Hhas).
  cbv zeta. intros Heq. apply (f_equal fst) in Heq. cbn [fst] in Heq. subst s'.
  unfold placed.
  set (s0 := store s _ _).
  pose proof (candidates_eliminated (Square (Z.quot row 3) (Z.quot col 3)) value
                (eliminated (Col col) value (eliminated (Row row) value s0)) Hval).
  pose proof (candidates_eliminated (Col col) value (eliminated (Row row) value s0) Hval).
  pose proof (candidates_eliminated (Row row) value s0 Hval).
  pose proof (candidates_store s (Sudoku_Cell row col)
                (mkCell (cell_row (deref s (Sudoku_Cell row col)))
                        (cell_col (deref s (Sudoku_Cell row col))) value empty)
                (has_valid s (row, col) value Hhas)) as Hstore.
  fold s0 in Hstore.
  pose proof (weight_pos (deref s (Sudoku_Cell row col)) value Hval Hhas).
  change (weight (mkCell _ _ value empty)) with 0%nat in Hstore. lia.
Qed.

Lemma counted_after_PlayMove (row col value moves : Z) :
  counted (run PlayMove row col value ; ret (moves + 1)) moves.
Proof.
  intros s. unfold bind. pose proof (PlayMove_decreases row col value s) as H.
  destruct (PlayMove row col value s) as [s1 [[]|e|]]; [|exact I..]. simpl.
  specialize (H s1 eq_refl). lia.
Qed.

Lemma counted_exclusion (otherCells : Cells) (value moves : Z) :
  1 <= value <= 9 ->
  counted
    (do excludable <- Cells_FindMove otherCells value ;
     if len excludable >? 0 then
       run Cells_EliminateMove excludable value ;
       ret (moves + 1)
     else ret moves)
    moves.
Proof.
  intros Hv s. rewrite (bind_unit _ _ _ _ (Cells_FindMove_in otherCells value s Hv)).
  destruct (List.filter _ otherCells) as [|p rest] eqn:Hf.
  - simpl. lia.
  - replace (len (p :: rest) >? 0) with true
      by (unfold len; simpl length; symmetry; apply Z.gtb_lt; lia).
    unfold bind. destruct (Cells_EliminateMove_in (p :: rest) value s Hv) as [n ->].
    simpl ret. cbv beta.
    assert (Hp : has (cell_moves (deref s p)) value = true).
    { assert (Hin : List.In p (List.filter
                       (fun p => has (cell_moves (deref s p)) value) otherCells))
        by (rewrite Hf; left; reflexivity).
      apply List.filter_In in Hin. tauto. }
    change (eliminated (p :: rest) value s)
      with (eliminated rest value (store s p (clear value (deref s p)))).
    pose proof (candidates_eliminated rest value (store s p (clear value (deref s p))) Hv).
    pose proof (candidates_clear s p value Hv) as Hc. rewrite Hp in Hc.
    unfold ret. lia.
Qed.

Ltac counted_step :=
  match goal with
  | |- counted (ret _) _ => apply counted_ret
  | |- counted (bind (Cells_EliminateMove _ _) _) _ => apply counted_after_elimination
  | |- counted (bind (PlayMove _ _ _) _) _ => apply counted_after_PlayMove
  | |- counted (bind (load _) _) _ =>
      apply counted_bind_read; [apply reader_load|intros]
  | |- counted (bind (first _) _) _ =>
      apply counted_bind_read; [apply reader_first|intros]
  | |- counted (bind (Cells_FindMove _ _) _) _ =>
      apply counted_bind_read; [apply reader_FindMove|intros]
  | |- counted (bind (Cells_UnsetOnly _) _) _ =>
      apply counted_bind_read; [apply reader_UnsetOnly|intros]
  | |- counted (bind (Cells_RemainingMoves _) _) _ =>
      apply counted_bind_read; [apply reader_RemainingMoves|intros]
  | |- counted (bind (Cells_Excluding _ _) _) _ =>
      apply counted_bind_read; [apply reader_Excluding|intros]
  | |- counted (bind (Cells_UniqueRows _) _) _ =>
      apply counted_bind_read; [apply reader_UniqueRows|intros]
  | |- counted (bind (Cells_UniqueCols _) _) _ =>
      apply counted_bind_read; [apply reader_UniqueCols|intros]
  | |- counted (bind _ _) _ => apply counted_bind; [|intros]
  | |- counted (forM _ _ _) _ => apply counted_forM; intros
  | |- counted (match ?x with _ => _ end) _ => destruct x
  | |- counted (let _ := _ in _) _ => cbv zeta
  end.

Lemma counted_nakedSingles (moves : Z) : counted (nakedSingles moves) moves.
Proof. unfold nakedSingles. repeat counted_step. Qed.

Lemma counted_hiddenSingles (groups : list Cells) (moves : Z) :
  counted (hiddenSingles groups moves) moves.
Proof. unfold hiddenSingles. repeat counted_step. Qed.

Lemma counted_boxElimination (moves : Z) : counted (boxElimination moves) moves.
Proof. unfold boxElimination. repeat counted_step. Qed.

Lemma counted_rowElimination (moves : Z) : counted (rowElimination moves) moves.
Proof. unfold rowElimination. repeat counted_step. Qed.

Lemma counted_colElimination (moves : Z) : counted (colElimination moves) moves.
Proof. unfold colElimination. repeat counted_step. Qed.

Lemma counted_excludeSubset (group subset : Cells) (moves : Z) :
  counted (excludeSubset group subset moves) moves.
Proof.
  unfold excludeSubset.
  destruct ((len subset <? 2) || (len subset =? len group)); [apply counted_ret|].
  apply counted_bind_read; [apply reader_RemainingMoves|intros union]. cbv zeta.
  destruct (len subset =? len (Moves_Slice union)); [|apply counted_ret].
  apply counted_bind_read; [apply reader_Excluding|intros otherCells].
  apply counted_forM. intros k value Hin. apply counted_exclusion.
  apply elem_of_Moves_Slice in Hin. tauto.
Qed.

Lemma counted_subsetExclusion (moves : Z) : counted (subsetExclusion moves) moves.
Proof.
  unfold subsetExclusion. apply counted_forM. intros k group _.
  apply counted_bind_read; [apply reader_UnsetOnly|intros unset].
  apply counted_forM. intros k' subset _. apply counted_excludeSubset.
Qed.

Lemma counted_deductions (moves : Z) : counted (deductions moves) moves.
Proof.
  unfold deductions.
  apply counted_bind; [apply counted_nakedSingles|intros].
  apply counted_bind; [apply counted_hiddenSingles|intros].
  apply counted_bind; [apply counted_hiddenSingles|intros].
  apply counted_bind; [apply counted_hiddenSingles|intros].
  apply counted_bind; [apply counted_boxElimination|intros].
  apply counted_bind; [apply counted_rowElimination|intros].
  apply counted_colElimination.
Qed.

(** A tail call of [Solve] is made on a grid with fewer candidates. *)
Lemma Solve_call_decreases (s s' : Sudoku) :
  Solve_call s = (s', Ok true) -> (candidates s' < candidates s)%nat.
Proof.
  unfold Solve_call. unfold bind at 1.
  pose proof (counted_deductions 0 s) as Hd.
  destruct (deductions 0 s) as [s1 [moves|e|]]; [|discriminate..].
  rewrite (bind_unit _ _ _ _ (Cells_UnsetOnly_spec _ _)).
  destruct (len _ =? 0); [discriminate|].
  destruct (Z.gtb_spec moves 0) as [Hpos|Hzero].
  - intros Heq. injection Heq as <-. lia.
  - unfold bind. pose proof (counted_subsetExclusion moves s1) as Hs.
    destruct (subsetExclusion moves s1) as [s2 [moves'|e|]]; [|discriminate..].
    destruct (Z.gtb_spec moves' 0); [|discriminate].
    intros Heq. injection Heq as <-. lia.
Qed.

(** ** [Solve] terminates *)

Lemma Solve_fuel_enough (fuel : nat) (s : Sudoku) :
  (candidates s < fuel)%nat -> exists out, Solve_fuel fuel s = Some out.
Proof.
  revert s. induction fuel as [|fuel IH]; intros s Hlt; [lia|]. simpl.
  pose proof (Solve_call_decreases s) as Hdec.
  destruct (Solve_call s) as [s1 [[|]|e|]]; eauto.
  apply IH. specialize (Hdec s1 eq_refl). lia.
Qed.

Lemma Solve_fuel_stable (fuel fuel' : nat) (s : Sudoku) (out : Sudoku * result unit) :
  Solve_fuel fuel s = Some out -> (fuel <= fuel')%nat -> Solve_fuel fuel' s = Some out.
Proof.
  revert fuel' s. induction fuel as [|fuel IH]; intros fuel' s; simpl; [discriminate|].
  intros H Hle. destruct fuel' as [|fuel']; [lia|]. simpl.
  destruct (Solve_call s) as [s1 [[|]|e|]]; try exact H.
  apply IH; [exact H|lia].
Qed.

Lemma Solve_spec (s : Sudoku) :
  Solve_fuel (S (candidates s)) s = Some (Solve s).
Proof.
  unfold Solve. destruct (Solve_fuel_enough (S (candidates s)) s) as [out ->]; [lia|].
  reflexivity.
Qed.

Lemma Solve_unfold (s : Sudoku) :
  Solve s
  = match Solve_call s with
    | (s', Ok true) => Solve s'
    | (s', Ok false) => (s', Ok tt)
    | (s', Err e) => (s', Err e)
    | (s', Panic) => (s', Panic)
    end.
Proof.
  pose proof (Solve_spec s) as H. simpl in H.
  pose proof (Solve_call_decreases s) as Hdec.
  destruct (Solve_call s) as [s1 [[|]|e|]]; try (injection H as <-; reflexivity).
  specialize (Hdec s1 eq_refl).
  pose proof (Solve_fuel_stable _ (candidates s) _ _ (Solve_spec s1) ltac:(lia)) as H1.
  rewrite H1 in H. injection H as <-. reflexivity.
Qed.

Lemma list_sum_bound {X : Type} (f : X -> nat) (k : nat) (l : list X) :
  (forall x, f x <= k)%nat -> (list_sum (List.map f l) <= k * length l)%nat.
Proof.
  intros H. induction l as [|x l IH]; simpl; [lia|]. specialize (H x). lia.
Qed.

Lemma weight_le_9 (c : Cell) : (weight c <= 9)%nat.
Proof.
  unfold weight, Cell_Moves, Moves_Slice.
  etransitivity; [apply List.filter_length_le|]. reflexivity.
Qed.

Lemma candidates_bound (s : Sudoku) : shaped s -> (candidates s <= 729)%nat.
Proof.
  unfold shaped, shape, candidates. intros Hs.
  assert (H : (list_sum (List.map (fun r => list_sum (List.map weight r)) (board s))
               <= 9 * list_sum (List.map length (board s)))%nat).
  { clear Hs. induction (board s) as [|r b IH]; simpl; [lia|].
    pose proof (list_sum_bound weight 9 r weight_le_9). lia. }
  rewrite Hs in H. simpl in H. lia.
Qed.

(** ** [Solve] does not panic *)

Definition nopanic {A : Type} (m : M A) : Prop := forall s, (m s).2 <> Panic.

Lemma nopanic_ret {A : Type} (a : A) : nopanic (ret a).
Proof. intros s. discriminate. Qed.

Lemma nopanic_raise {A : Type} (e : error) : nopanic (@raise A e).
Proof. intros s. discriminate. Qed.

Lemma nopanic_load (p : CellPtr) : nopanic (load p).
Proof. intros s. discriminate. Qed.

Lemma nopanic_bind {A B : Type} (m : M A) (f : A -> M B) :
  nopanic m -> (forall a, nopanic (f a)) -> nopanic (bind m f).
Proof.
  intros Hm Hf s. unfold bind. specialize (Hm s).
  destruct (m s) as [s1 [a|e|]]; simpl in *; [apply Hf|discriminate|contradiction].
Qed.

Lemma nopanic_forM {X A : Type} (l : list X) (acc : A) (body : A -> X -> M A) :
  (forall acc x, x ∈ l -> nopanic (body acc x)) -> nopanic (forM l acc body).
Proof.
  revert acc. induction l as [|x l IH]; intros acc Hb; simpl.
  - apply nopanic_ret.
  - apply nopanic_bind.
    + apply Hb. constructor.
    + intros a. apply IH. intros acc' y Hy. apply Hb. constructor. exact Hy.
Qed.

Lemma nopanic_PlayMove (row col value : Z) : nopanic (PlayMove row col value).
Proof.
  intros s. rewrite PlayMove_unfold.
  destruct (refusal s row col value); [discriminate|]. cbv zeta.
  destruct (List.find _ _); discriminate.
Qed.

Lemma nopanic_FindMove (c : Cells) (value : Z) :
  1 <= value <= 9 -> nopanic (Cells_FindMove c value).
Proof. intros Hv s. rewrite Cells_FindMove_in by done. discriminate. Qed.

Lemma nopanic_EliminateMove (c : Cells) (value : Z) :
  1 <= value <= 9 -> nopanic (Cells_EliminateMove c value).
Proof.
  intros Hv s. destruct (Cells_EliminateMove_in c value s Hv) as [n ->]. discriminate.
Qed.

Lemma nopanic_UnsetOnly (c : Cells) : nopanic (Cells_UnsetOnly c).
Proof. intros s. rewrite Cells_UnsetOnly_spec. discriminate. Qed.

Lemma nopanic_RemainingMoves (c : Cells) : nopanic (Cells_RemainingMoves c).
Proof. intros s. rewrite Cells_RemainingMoves_spec. discriminate. Qed.

Lemma nopanic_Excluding (c other : Cells) : nopanic (Cells_Excluding c other).
Proof. intros s. discriminate. Qed.

Lemma nopanic_UniqueRows (c : Cells) : nopanic (Cells_UniqueRows c).
Proof. intros s. discriminate. Qed.

Lemma nopanic_UniqueCols (c : Cells) : nopanic (Cells_UniqueCols c).
Proof. intros s. discriminate. Qed.

Lemma nopanic_first (group : Cells) (p : CellPtr) : p ∈ group -> nopanic (first group).
Proof. intros Hp s. destruct group; [inversion Hp|discriminate]. Qed.

Lemma nopanic_first_Row (row : Cells) : row ∈ Rows -> nopanic (first row).
Proof.
  intros H. unfold Rows in H. apply list_elem_of_In, List.in_map_iff in H as (i & <- & _).
  apply (nopanic_first _ (i, 0)). apply elem_of_Row. simpl. lia.
Qed.

Lemma nopanic_first_Col (col : Cells) : col ∈ Cols -> nopanic (first col).
Proof.
  intros H. unfold Cols in H. apply list_elem_of_In, List.in_map_iff in H as (i & <- & _).
  apply (nopanic_first _ (0, i)). apply elem_of_Col. simpl. lia.
Qed.

Ltac in_range :=
  match goal with
  | H : ?v ∈ Moves_Slice _ |- 1 <= ?v <= 9 => apply elem_of_Moves_Slice in H; tauto
  end.

Ltac nopanic_step :=
  match goal with
  | |- nopanic (ret _) => apply nopanic_ret
  | |- nopanic (raise _) => apply nopanic_raise
  | |- nopanic (load _) => apply nopanic_load
  | |- nopanic (PlayMove _ _ _) => apply nopanic_PlayMove
  | |- nopanic (Cells_FindMove _ _) => apply nopanic_FindMove; in_range
  | |- nopanic (Cells_EliminateMove _ _) => apply nopanic_EliminateMove; in_range
  | |- nopanic (Cells_UnsetOnly _) => apply nopanic_UnsetOnly
  | |- nopanic (Cells_RemainingMoves _) => apply nopanic_RemainingMoves
  | |- nopanic (Cells_Excluding _ _) => apply nopanic_Excluding
  | |- nopanic (Cells_UniqueRows _) => apply nopanic_UniqueRows
  | |- nopanic (Cells_UniqueCols _) => apply nopanic_UniqueCols
  | H : ?row ∈ Rows |- nopanic (first ?row) => apply nopanic_first_Row; exact H
  | H : ?col ∈ Cols |- nopanic (first ?col) => apply nopanic_first_Col; exact H
  | |- nopanic (bind _ _) => apply nopanic_bind; [|intros]
  | |- nopanic (forM _ _ _) => apply nopanic_forM; intros
  | |- nopanic (match ?x with _ => _ end) => destruct x
  | |- nopanic (let _ := _ in _) => cbv zeta
  end.

Lemma nopanic_nakedSingles (moves : Z) : nopanic (nakedSingles moves).
Proof. unfold nakedSingles. repeat nopanic_step. Qed.

Lemma nopanic_hiddenSingles (groups : list Cells) (moves : Z) :
  nopanic (hiddenSingles groups moves).
Proof. unfold hiddenSingles. repeat nopanic_step. Qed.

Lemma nopanic_boxElimination (moves : Z) : nopanic (boxElimination moves).
Proof. unfold boxElimination. repeat nopanic_step. Qed.

Lemma nopanic_rowElimination (moves : Z) : nopanic (rowElimination moves).
Proof. unfold rowElimination. repeat nopanic_step. Qed.

Lemma nopanic_colElimination (moves : Z) : nopanic (colElimination moves).
Proof. unfold colElimination. repeat nopanic_step. Qed.

Lemma nopanic_excludeSubset (group subset : Cells) (moves : Z) :
  nopanic (excludeSubset group subset moves).
Proof. unfold excludeSubset. repeat nopanic_step. Qed.

Lemma nopanic_subsetExclusion (moves : Z) : nopanic (subsetExclusion moves).
Proof.
  unfold subsetExclusion. apply nopanic_forM. intros k group _.
  apply nopanic_bind; [apply nopanic_UnsetOnly|intros unset].
  apply nopanic_forM. intros k' subset _. apply nopanic_excludeSubset.
Qed.

Lemma nopanic_deductions (moves : Z) : nopanic (deductions moves).
Proof.
  unfold deductions.
  apply nopanic_bind; [apply nopanic_nakedSingles|intros].
  apply nopanic_bind; [apply nopanic_hiddenSingles|intros].
  apply nopanic_bind; [apply nopanic_hiddenSingles|intros].
  apply nopanic_bind; [apply nopanic_hiddenSingles|intros].
  apply nopanic_bind; [apply nopanic_boxElimination|intros].
  apply nopanic_bind; [apply nopanic_rowElimination|intros].
  apply nopanic_colElimination.
Qed.

Lemma nopanic_Solve_call : nopanic Solve_call.
Proof.
  unfold Solve_call.
  apply nopanic_bind; [apply nopanic_deductions|intros moves].
  apply nopanic_bind; [apply nopanic_UnsetOnly|intros unset].
  destruct (len unset =? 0); [apply nopanic_ret|].
  destruct (moves >? 0); [apply nopanic_ret|].
  apply nopanic_bind; [apply nopanic_subsetExclusion|intros moves'].
  destruct (moves' >? 0); [apply nopanic_ret|apply nopanic_raise].
Qed.

Lemma nopanic_Solve_fuel (fuel : nat) (s s' : Sudoku) (r : result unit) :
  Solve_fuel fuel s = Some (s', r) -> r <> Panic.
Proof.
  revert s. induction fuel as [|fuel IH]; intros s; simpl; [discriminate|].
  pose proof (nopanic_Solve_call s) as Hc.
  destruct (Solve_call s) as [s1 [[|]|e|]]; simpl in Hc.
  - apply IH.
  - intros H. injection H as <- <-. discriminate.
  - intros H. injection H as <- <-. discriminate.
  - contradiction.
Qed.

(** ** A grid that [Solve] accepts is a solution *)

Definition complete (s : Sudoku) : Prop :=
  forall p, inb p -> cell_value (deref s p) <> 0.

(** Every cell holds a value between 1 and 9 that no cell it sees holds. *)
Definition solved (s : Sudoku) : Prop :=
  forall p, inb p ->
    1 <= cell_value (deref s p) <= 9 /\
    forall q, inb q -> q <> p -> sees p q ->
      cell_value (deref s q) <> cell_value (deref s p).

(** The grid holds the clues of the puzzle. *)
Definition fills (b : list (list Z)) (s : Sudoku) : Prop :=
  forall row col, 0 <= row <= 8 -> 0 <= col <= 8 -> clueAt b row col <> 0 ->
    cell_value (boardAt s row col) = clueAt b row col.

Definition solution (b : list (list Z)) (s : Sudoku) : Prop := solved s /\ fills b s.

Definition unsatisfiable (b : list (list Z)) : Prop := forall s, ~ solution b s.

Lemma solved_of_complete (s : Sudoku) : consistent s -> complete s -> solved s.
Proof.
  intros [H1 H2] Hc p Hp. split.
  - apply H1; [exact Hp|apply Hc; exact Hp].
  - intros q Hq Hne Hsees. apply (H2 p q); auto.
Qed.

Lemma Solve_call_done (s s' : Sudoku) : Solve_call s = (s', Ok false) -> complete s'.
Proof.
  unfold Solve_call. unfold bind at 1.
  destruct (deductions 0 s) as [s1 [moves|e|]]; [|discriminate..].
  rewrite (bind_unit _ _ _ _ (Cells_UnsetOnly_spec _ _)).
  destruct (List.filter _ Sudoku_Cells) as [|p0 rest] eqn:Hf.
  - intros Heq. injection Heq as <-. intros p Hp.
    rewrite (filter_nil _ Sudoku_Cells) in Hf.
    specialize (Hf p (proj2 (elem_of_Sudoku_Cells p) Hp)).
    apply Z.eqb_neq. exact Hf.
  - replace (len (p0 :: rest) =? 0) with false
      by (unfold len; simpl length; symmetry; apply Z.eqb_neq; lia).
    destruct (moves >? 0); [discriminate|].
    unfold bind. destruct (subsetExclusion moves s1) as [s2 [moves'|e|]]; [|discriminate..].
    destruct (moves' >? 0); discriminate.
Qed.

Lemma Solve_fuel_complete (fuel : nat) (s s' : Sudoku) :
  Solve_fuel fuel s = Some (s', Ok tt) -> complete s'.
Proof.
  revert s. induction fuel as [|fuel IH]; intros s; simpl; [discriminate|].
  pose proof (Solve_call_done s) as Hd.
  destruct (Solve_call s) as [s1 [[|]|e|]]; try discriminate.
  - apply IH.
  - intros Heq. injection Heq as <-. apply Hd. reflexivity.
Qed.

Lemma PlayMove_Ok_value (row col value : Z) (s s' : Sudoku) :
  PlayMove row col value s = (s', Ok tt) -> cell_value (boardAt s' row col) = value.
Proof.
  rewrite PlayMove_unfold. destruct (refusal s row col value) as [e|] eqn:Hr; [discriminate|].
  apply refusal_None in Hr. cbv zeta. intros Heq.
  apply (f_equal fst) in Heq. cbn [fst] in Heq. subst s'.
  change (boardAt (placed s row col value) row col)
    with (deref (placed s row col value) (row, col)).
  rewrite placed_target by exact Hr. reflexivity.
Qed.

(** The clue of one cell is on the grid. *)
Definition clued (b : list (list Z)) (p : CellPtr) (s : Sudoku) : Prop :=
  clueAt b p.1 p.2 <> 0 -> cell_value (deref s p) = clueAt b p.1 p.2.

Definition keeps (P : Sudoku -> Prop) (s s' : Sudoku) : Prop := P s -> P s'.

Lemma clued_evolves (b : list (list Z)) (p : CellPtr) (s s' : Sudoku) :
  evolves s s' -> keeps (clued b p) s s'.
Proof.
  intros (Hle & _) Hc Hclue. destruct (Hle p) as (_ & _ & Hv & _).
  rewrite Hv; [apply Hc; exact Hclue|]. rewrite Hc by exact Hclue. exact Hclue.
Qed.

Lemma forM_all {X : Type} (l : list X) (body : unit -> X -> M unit)
    (P : X -> Sudoku -> Prop) (s s' : Sudoku) :
  (forall x s1 s2, body tt x s1 = (s2, Ok tt) -> P x s2) ->
  (forall x y, pres (keeps (P x)) (body tt y)) ->
  forM l tt body s = (s', Ok tt) -> forall x, x ∈ l -> P x s'.
Proof.
  intros Hbody Hkeep. revert s. induction l as [|y l IH]; intros s Hrun x Hx.
  - inversion Hx.
  - simpl in Hrun. unfold bind in Hrun.
    destruct (body tt y s) as [s1 [[]|e|]] eqn:Hy; try discriminate.
    apply elem_of_cons in Hx as [->|Hx].
    + assert (Hstay : keeps (P y) s1 (forM l tt body s1).1).
      { apply pres_forM.
        - intros s0 H0. exact H0.
        - intros sa sb sc Hab Hbc H0. apply Hbc, Hab, H0.
        - intros [] z. apply Hkeep. }
      rewrite Hrun in Hstay. apply Hstay. eapply Hbody. exact Hy.
    + eapply IH; [exact Hrun|exact Hx].
Qed.

Lemma fills_NewSudoku (b : list (list Z)) (s : Sudoku) :
  NewSudoku b = (s, Ok tt) -> fills b s.
Proof.
  unfold NewSudoku. intros Hrun row col Hrow Hcol.
  pose (cellStep := fun (r : Z) (_ : unit) (c : Z) =>
          (let value := clueAt b r c in
           if negb (value =? 0) then PlayMove r c value else ret tt) : M unit).
  pose (rowStep := fun (_ : unit) (r : Z) => forM (seqZ 0 9) tt (cellStep r)).
  change (forM (seqZ 0 9) tt rowStep blank = (s, Ok tt)) in Hrun.
  assert (Hstep : forall r u c, pres evolves (cellStep r u c)).
  { intros r u c. unfold cellStep. cbv zeta. destruct (negb _); [apply evolves_PlayMove|].
    apply pres_ret. apply evolves_refl. }
  assert (Hinner : forall u r, pres evolves (rowStep u r)).
  { intros u r. apply pres_forM; [apply evolves_refl|apply evolves_trans|].
    intros u' c. apply Hstep. }
  apply (forM_all (seqZ 0 9) rowStep
           (fun r s => forall c, c ∈ seqZ 0 9 -> clued b (r, c) s) blank s);
    [| |exact Hrun|apply elem_of_seqZ; lia|apply elem_of_seqZ; lia].
  - intros r s1 s2 Hr.
    apply (forM_all (seqZ 0 9) (cellStep r) (fun c s => clued b (r, c) s) s1 s2);
      [| |exact Hr].
    + intros c sa sb. unfold cellStep. cbv zeta.
      destruct (Z.eqb_spec (clueAt b r c) 0) as [H0|H0]; simpl.
      * intros _ Hclue. contradiction.
      * intros Hplay _. apply (PlayMove_Ok_value r c _ sa sb). exact Hplay.
    + intros c c' s0. apply clued_evolves. apply Hstep.
  - intros r r' s0 H0 c Hc.
    apply (clued_evolves b (r, c) s0); [apply Hinner|apply H0; exact Hc].
Qed.

Lemma fills_evolves (b : list (list Z)) (s s' : Sudoku) :
  evolves s s' -> fills b s -> fills b s'.
Proof.
  intros He Hf row col Hrow Hcol Hclue.
  apply (clued_evolves b (row, col) s s' He); [|exact Hclue].
  intros _. apply Hf; done.
Qed.

(** [Solve] returns nil only on a solution of the puzzle. *)
Lemma Solve_sound (b : list (list Z)) (s s' : Sudoku) :
  NewSudoku b = (s, Ok tt) -> Solve s = (s', Ok tt) -> solution b s'.
Proof.
  intros Hnew Hsolve. pose proof (Solve_spec s) as Hfuel. rewrite Hsolve in Hfuel.
  pose proof (wellFormed_NewSudoku b) as Hwf. rewrite Hnew in Hwf. simpl in Hwf.
  destruct (wellFormed_Solve_fuel _ _ _ _ Hfuel Hwf) as (_ & _ & _ & Hcons).
  split.
  - apply solved_of_complete; [exact Hcons|].
    eapply Solve_fuel_complete. exact Hfuel.
  - apply (fills_evolves b s); [|apply fills_NewSudoku; exact Hnew].
    eapply evolves_Solve_fuel. exact Hfuel.
Qed.

Lemma twoOnes_unsatisfiable : unsatisfiable twoOnes.
Proof.
  intros s [Hsolved Hfills].
  assert (Hclue : forall row col v, 0 <= row <= 8 -> 0 <= col <= 8 ->
            clueAt twoOnes row col = v -> v <> 0 -> cell_value (deref s (row, col)) = v).
  { intros row col v Hr Hc <- Hv. apply Hfills; done. }
  pose proof (Hclue 0 2 2 ltac:(lia) ltac:(lia) eq_refl ltac:(lia)) as H02.
  pose proof (Hclue 0 3 3 ltac:(lia) ltac:(lia) eq_refl ltac:(lia)) as H03.
  pose proof (Hclue 0 4 4 ltac:(lia) ltac:(lia) eq_refl ltac:(lia)) as H04.
  pose proof (Hclue 0 5 5 ltac:(lia) ltac:(lia) eq_refl ltac:(lia)) as H05.
  pose proof (Hclue 0 6 6 ltac:(lia) ltac:(lia) eq_refl ltac:(lia)) as H06.
  pose proof (Hclue 0 7 7 ltac:(lia) ltac:(lia) eq_refl ltac:(lia)) as H07.
  pose proof (Hclue 0 8 8 ltac:(lia) ltac:(lia) eq_refl ltac:(lia)) as H08.
  pose proof (Hclue 3 0 9 ltac:(lia) ltac:(lia) eq_refl ltac:(lia)) as H30.
  pose proof (Hclue 6 1 9 ltac:(lia) ltac:(lia) eq_refl ltac:(lia)) as H61.
  assert (Hin : forall row col, 0 <= row <= 8 -> 0 <= col <= 8 -> inb (row, col))
    by (intros; split; simpl; lia).
  assert (Hrow : forall c c', sees (0, c) (0, c')) by (intros; left; reflexivity).
  assert (Hcol : forall r r' c, sees (r, c) (r', c)) by (intros; right; left; reflexivity).
  destruct (Hsolved (0, 0) (Hin 0 0 ltac:(lia) ltac:(lia))) as [Ha Hda].
  destruct (Hsolved (0, 1) (Hin 0 1 ltac:(lia) ltac:(lia))) as [Hb Hdb].
  pose proof (Hda (0, 1) (Hin 0 1 ltac:(lia) ltac:(lia)) ltac:(congruence) (Hrow _ _)).
  pose proof (Hda (0, 2) (Hin 0 2 ltac:(lia) ltac:(lia)) ltac:(congruence) (Hrow _ _)).
  pose proof (Hda (0, 3) (Hin 0 3 ltac:(lia) ltac:(lia)) ltac:(congruence) (Hrow _ _)).
  pose proof (Hda (0, 4) (Hin 0 4 ltac:(lia) ltac:(lia)) ltac:(congruence) (Hrow _ _)).
  pose proof (Hda (0, 5) (Hin 0 5 ltac:(lia) ltac:(lia)) ltac:(congruence) (Hrow _ _)).
  pose proof (Hda (0, 6) (Hin 0 6 ltac:(lia) ltac:(lia)) ltac:(congruence) (Hrow _ _)).
  pose proof (Hda (0, 7) (Hin 0 7 ltac:(lia) ltac:(lia)) ltac:(congruence) (Hrow _ _)).
  pose proof (Hda (0, 8) (Hin 0 8 ltac:(lia) ltac:(lia)) ltac:(congruence) (Hrow _ _)).
  pose proof (Hda (3, 0) (Hin 3 0 ltac:(lia) ltac:(lia)) ltac:(congruence) (Hcol _ _ _)).
  pose proof (Hdb (0, 2) (Hin 0 2 ltac:(lia) ltac:(lia)) ltac:(congruence) (Hrow _ _)).
  pose proof (Hdb (0, 3) (Hin 0 3 ltac:(lia) ltac:(lia)) ltac:(congruence) (Hrow _ _)).
  pose proof (Hdb (0, 4) (Hin 0 4 ltac:(lia) ltac:(lia)) ltac:(congruence) (Hrow _ _)).
  pose proof (Hdb (0, 5) (Hin 0 5 ltac:(lia) ltac:(lia)) ltac:(congruence) (Hrow _ _)).
  pose proof (Hdb (0, 6) (Hin 0 6 ltac:(lia) ltac:(lia)) ltac:(congruence) (Hrow _ _)).
  pose proof (Hdb (0, 7) (Hin 0 7 ltac:(lia) ltac:(lia)) ltac:(congruence) (Hrow _ _)).
  pose proof (Hdb (0, 8) (Hin 0 8 ltac:(lia) ltac:(lia)) ltac:(congruence) (Hrow _ _)).
  pose proof (Hdb (6, 1) (Hin 6 1 ltac:(lia) ltac:(lia)) ltac:(congruence) (Hcol _ _ _)).
  clear Hclue Hfills Hsolved Hda Hdb Hin Hrow Hcol.
  rewrite H02, H03, H04, H05, H06, H07, H08, ?H30, ?H61 in *.
  set (a := cell_value (deref s (0, 0))) in *.
  set (b := cell_value (deref s (0, 1))) in *.
  clearbody a b. clear s H02 H03 H04 H05 H06 H07 H08 H30 H61. lia.
Qed.

(** ** Claims about [Solve] *)

(** C6, as the code has it: [Solve] terminates on every grid and
    returns nil or an error, never a panic, within one activation per
    candidate of the grid plus one; each tail call is made after at
    least one change and on a grid with fewer candidates, of which a 9
    by 9 grid has at most 729; and on the grid of an unsatisfiable
    puzzle [Solve] ends with an error, which is "No solution found" or
    the error of a [PlayMove] of the deductions. *)
Theorem Solve_terminates (s : Sudoku) :
  (exists s' r, Solve_fuel (S (candidates s)) s = Some (s', r) /\
                Solve s = (s', r) /\ r <> Panic /\
                forall fuel, (candidates s < fuel)%nat -> Solve_fuel fuel s = Some (s', r)) /\
  (forall s1 s2, Solve_call s1 = (s2, Ok true) -> (candidates s2 < candidates s1)%nat) /\
  (shaped s -> (candidates s <= 729)%nat) /\
  (forall b, NewSudoku b = (s, Ok tt) -> unsatisfiable b ->
             exists e, (Solve s).2 = Err e).
Proof.
  pose proof (Solve_spec s) as Hspec.
  destruct (Solve s) as [s' r] eqn:Hsolve.
  pose proof (nopanic_Solve_fuel _ _ _ _ Hspec) as Hnp.
  split; [|split; [|split]].
  - exists s', r. split; [exact Hspec|]. split; [reflexivity|]. split; [exact Hnp|].
    intros fuel Hfuel. apply (Solve_fuel_stable _ _ _ _ Hspec). lia.
  - apply Solve_call_decreases.
  - apply candidates_bound.
  - intros b Hnew Hunsat. destruct r as [[]|e|]; simpl.
    + exfalso. apply (Hunsat s'). apply (Solve_sound b s s'); [exact Hnew|exact Hsolve].
    + exists e. reflexivity.
    + contradiction.
Qed.

(** C6, as the spec has it, fails on the puzzle [twoOnes]: it has no
    solution, its grid is built without error, and [Solve] ends with
    "No moves left at square 1,2", not with "No solution found". *)
Lemma Solve_unsatisfiable_without_NoSolution :
  unsatisfiable twoOnes /\
  (NewSudoku twoOnes).2 = Ok tt /\
  (Solve (NewSudoku twoOnes).1).2 = Err (NoMovesLeft 0 1) /\
  (Solve (NewSudoku twoOnes).1).2 <> Err NoSolutionFound.
Proof.
  split; [apply twoOnes_unsatisfiable|]. split; [vm_compute; reflexivity|].
  assert (H : (Solve (NewSudoku twoOnes).1).2 = Err (NoMovesLeft 0 1))
    by (vm_compute; reflexivity).
  split; [exact H|]. rewrite H. discriminate.
Qed.

(** ** The subset pass returns no error *)

Definition noerr {A : Type} (m : M A) : Prop := forall s e, (m s).2 <> Err e.

Lemma noerr_ret {A : Type} (a : A) : noerr (ret a).
Proof. intros s e. discriminate. Qed.

Lemma noerr_bind {A B : Type} (m : M A) (f : A -> M B) :
  noerr m -> (forall a, noerr (f a)) -> noerr (bind m f).
Proof.
  intros Hm Hf s e. unfold bind. specialize (Hm s).
  destruct (m s) as [s1 [a|e'|]]; simpl in *; [apply Hf| |discriminate].
  exfalso. apply (Hm e'). reflexivity.
Qed.

Lemma noerr_forM {X A : Type} (l : list X) (acc : A) (body : A -> X -> M A) :
  (forall acc x, noerr (body acc x)) -> noerr (forM l acc body).
Proof.
  intros Hb. revert acc. induction l as [|x l IH]; intros acc; simpl.
  - apply noerr_ret.
  - apply noerr_bind; [apply Hb|apply IH].
Qed.

Lemma noerr_reader_spec {A : Type} (m : M A) :
  (forall s, exists a, m s = (s, Ok a)) -> noerr m.
Proof. intros H s e. destruct (H s) as [a ->]. discriminate. Qed.

Lemma Moves_Contains_noerr (m : Moves) (value : Z) (e : error) :
  Moves_Contains m value <> Err e.
Proof. unfold Moves_Contains, mask. destruct (_ || _); discriminate. Qed.

Lemma noerr_FindMove (c : Cells) (value : Z) : noerr (Cells_FindMove c value).
Proof.
  unfold Cells_FindMove. apply noerr_forM. intros acc p s e. unfold bind. simpl.
  unfold Cell_CanPlay.
  pose proof (Moves_Contains_noerr (cell_moves (deref s p)) value) as H.
  destruct (Moves_Contains (cell_moves (deref s p)) value) as [b|e'|]; simpl;
    [discriminate| |discriminate].
  exfalso. apply (H e'). reflexivity.
Qed.

Lemma noerr_EliminateMove (c : Cells) (value : Z) : noerr (Cells_EliminateMove c value).
Proof.
  unfold Cells_EliminateMove. apply noerr_forM. intros acc p s e. unfold bind, call.
  unfold Cell_EliminateMove. destruct (_ || _); [discriminate|].
  unfold Moves_Remove.
  pose proof (Moves_Contains_noerr (cell_moves (deref s p)) value) as H.
  destruct (Moves_Contains (cell_moves (deref s p)) value) as [[|]|e'|]; simpl;
    [|discriminate|exfalso; eapply H; reflexivity|discriminate].
  unfold mask. destruct (_ || _); discriminate.
Qed.

Lemma noerr_excludeSubset (group subset : Cells) (moves : Z) :
  noerr (excludeSubset group subset moves).
Proof.
  unfold excludeSubset. destruct (_ || _); [apply noerr_ret|].
  apply noerr_bind.
  { apply noerr_reader_spec. intros s. eexists. apply Cells_RemainingMoves_spec. }
  intros union. cbv zeta. destruct (_ =? _); [|apply noerr_ret].
  apply noerr_bind; [intros s e; discriminate|]. intros otherCells.
  apply noerr_forM. intros k value. apply noerr_bind; [apply noerr_FindMove|].
  intros excludable. destruct (_ >? _); [|apply noerr_ret].
  apply noerr_bind; [apply noerr_EliminateMove|intros; apply noerr_ret].
Qed.

Lemma subsetExclusion_Ok (moves : Z) (s : Sudoku) :
  exists s' moves', subsetExclusion moves s = (s', Ok moves') /\ moves <= moves'.
Proof.
  assert (Hne : noerr (subsetExclusion moves)).
  { unfold subsetExclusion. apply noerr_forM. intros k group.
    apply noerr_bind.
    { apply noerr_reader_spec. intros s0. eexists. apply Cells_UnsetOnly_spec. }
    intros unset. apply noerr_forM. intros k' subset. apply noerr_excludeSubset. }
  pose proof (nopanic_subsetExclusion moves s) as Hnp.
  pose proof (counted_subsetExclusion moves s) as Hc.
  specialize (Hne s).
  destruct (subsetExclusion moves s) as [s' [moves'|e|]]; simpl in *.
  - exists s', moves'. split; [reflexivity|lia].
  - exfalso. apply (Hne e). reflexivity.
  - contradiction.
Qed.

(** The unset cells of the grid, as [s.Cells().UnsetOnly()] lists them. *)
Definition unsetCells (s : Sudoku) : Cells :=
  List.filter (fun p => cell_value (deref s p) =? 0) Sudoku_Cells.

(** The activation of [Solve], case by case. *)
Lemma Solve_call_cases (s : Sudoku) :
  Solve_call s
  = match deductions 0 s with
    | (s1, Ok moves) =>
        match unsetCells s1 with
        | [] => (s1, Ok false)
        | _ :: _ =>
            if moves >? 0 then (s1, Ok true)
            else match subsetExclusion moves s1 with
                 | (s2, Ok moves') =>
                     if moves' >? 0 then (s2, Ok true) else (s2, Err NoSolutionFound)
                 | (s2, Err e) => (s2, Err e)
                 | (s2, Panic) => (s2, Panic)
                 end
        end
    | (s1, Err e) => (s1, Err e)
    | (s1, Panic) => (s1, Panic)
    end.
Proof.
  unfold Solve_call. unfold bind at 1.
  destruct (deductions 0 s) as [s1 [moves|e|]]; [|reflexivity..].
  rewrite (bind_unit _ _ _ _ (Cells_UnsetOnly_spec _ _)). fold (unsetCells s1).
  destruct (unsetCells s1) as [|p rest].
  - reflexivity.
  - replace (len (p :: rest) =? 0) with false
      by (unfold len; simpl length; symmetry; apply Z.eqb_neq; lia).
    destruct (moves >? 0); [reflexivity|].
    unfold bind. destruct (subsetExclusion moves s1) as [s2 [moves'|e|]]; try reflexivity.
    destruct (moves' >? 0); reflexivity.
Qed.

(** A puzzle with a naked pair: (0,0) and (0,3) can only hold 1 or 2,
    and three more cells of row 0 are unset; 3 is a hidden single of
    the bottom right square. *)
Definition nakedPair : list (list Z) :=
  [[0;3;4;0;5;6;0;0;0];
   [0;0;0;0;0;0;0;3;0];
   [0;0;0;0;0;0;0;0;0];
   [7;0;0;8;0;0;3;0;0];
   [8;0;0;9;0;0;0;0;0];
   [9;0;0;7;0;0;0;0;0];
   [3;0;0;0;0;0;0;0;0];
   [0;0;0;3;0;0;0;0;0];
   [0;0;0;0;0;0;0;0;0]].

(** A solved grid without the four corners of a rectangle that holds 1
    and 3 crosswise: the puzzle has two solutions. *)
Definition twoSolutions : list (list Z) :=
  [[2;6;0;9;8;5;7;4;0];
   [7;9;8;4;1;3;5;2;6];
   [4;5;0;6;2;7;9;8;0];
   [5;1;7;8;3;2;6;9;4];
   [9;2;6;5;4;1;3;7;8];
   [8;3;4;7;6;9;1;5;2];
   [6;8;5;1;9;4;2;3;7];
   [1;7;2;3;5;8;4;6;9];
   [3;4;9;2;7;6;8;1;5]].

(** The sweep as the specification words it: the five techniques in
    sequence, reporting the total number of changes. *)
Definition specSweep (moves : Z) : M Z :=
  do moves <- deductions moves ;
  subsetExclusion moves.

(** [Solve], case by case on its first activation. *)
Lemma Solve_cases (s : Sudoku) :
  Solve s
  = match deductions 0 s with
    | (s1, Ok moves) =>
        match unsetCells s1 with
        | [] => (s1, Ok tt)
        | _ :: _ =>
            if moves >? 0 then Solve s1
            else match subsetExclusion moves s1 with
                 | (s2, Ok moves') =>
                     if moves' >? 0 then Solve s2 else (s2, Err NoSolutionFound)
                 | (s2, Err e) => (s2, Err e)
                 | (s2, Panic) => (s2, Panic)
                 end
        end
    | (s1, Err e) => (s1, Err e)
    | (s1, Panic) => (s1, Panic)
    end.
Proof.
  rewrite Solve_unfold, Solve_call_cases.
  destruct (deductions 0 s) as [s1 [moves|e|]]; [|reflexivity..].
  destruct (unsetCells s1); [reflexivity|].
  destruct (moves >? 0); [reflexivity|].
  destruct (subsetExclusion moves s1) as [s2 [moves'|e|]]; try reflexivity.
  destruct (moves' >? 0); reflexivity.
Qed.

(** C2, as the code has it: an activation of [Solve] runs naked
    singles, hidden singles (squares, rows, columns), box elimination
    and line elimination (rows, columns) in that sequence, stopping at
    the first error of a [PlayMove]; it returns nil on a complete grid;
    when these made a change it calls itself at once, without the
    subset pass; the subset pass runs only when they made none, and
    [Solve] then calls itself if the pass made a change and fails with
    "No solution found" if not. *)
Theorem Solve_runs_subsets_last (s : Sudoku) :
  deductions 0 s
  = (do moves <- nakedSingles 0 ;
     do moves <- hiddenSingles Squares moves ;
     do moves <- hiddenSingles Rows moves ;
     do moves <- hiddenSingles Cols moves ;
     do moves <- boxElimination moves ;
     do moves <- rowElimination moves ;
     colElimination moves) s /\
  Solve s
  = match deductions 0 s with
    | (s1, Ok moves) =>
        match unsetCells s1 with
        | [] => (s1, Ok tt)
        | _ :: _ =>
            if moves >? 0 then Solve s1
            else match subsetExclusion moves s1 with
                 | (s2, Ok moves') =>
                     if moves' >? 0 then Solve s2 else (s2, Err NoSolutionFound)
                 | (s2, Err e) => (s2, Err e)
                 | (s2, Panic) => (s2, Panic)
                 end
        end
    | (s1, Err e) => (s1, Err e)
    | (s1, Panic) => (s1, Panic)
    end.
Proof. split; [reflexivity|apply Solve_cases]. Qed.

(** C2, as the spec has it, fails on the puzzle [nakedPair]: the first
    activation counts 7 changes of the first four techniques and calls
    [Solve] again on a grid on which the subset pass has 13 changes
    left to make; the grid it decides on is not the grid of a full
    sweep. *)
Lemma Solve_decides_before_subsets :
  Solve_call (NewSudoku nakedPair).1
  = ((deductions 0 (NewSudoku nakedPair).1).1, Ok true) /\
  (deductions 0 (NewSudoku nakedPair).1).2 = Ok 7 /\
  (subsetExclusion 0 (Solve_call (NewSudoku nakedPair).1).1).2 = Ok 13 /\
  (Solve_call (NewSudoku nakedPair).1).1 <> (specSweep 0 (NewSudoku nakedPair).1).1.
Proof.
  split; [vm_compute; reflexivity|]. split; [vm_compute; reflexivity|].
  split; [vm_compute; reflexivity|].
  intros H. apply (f_equal (fun s => Cell_Moves (deref s (0, 6)))) in H.
  vm_compute in H. discriminate H.
Qed.

(** C1, as the code has it: when the deductions of an activation make
    zero changes and the grid has unset cells, [Solve] runs the subset
    pass on that grid; it calls itself on the grid if the pass made a
    change and fails with "No solution found" if it made none.  No
    candidate is tried and no grid is cloned: running [Solve] on one
    object creates no other. *)
Theorem Solve_without_guessing (s s1 : Sudoku) :
  deductions 0 s = (s1, Ok 0) ->
  unsetCells s1 <> [] ->
  (exists s2 moves, subsetExclusion 0 s1 = (s2, Ok moves) /\ 0 <= moves /\
     (0 < moves -> Solve s = Solve s2) /\
     (moves = 0 -> Solve s = (s2, Err NoSolutionFound))) /\
  (forall (h : Heap) g, h !! g = Some s -> dom (perform_at h g OpSolve) = dom h).
Proof.
  intros Hd Hunset. split.
  - destruct (subsetExclusion_Ok 0 s1) as (s2 & moves & Hs & Hle).
    exists s2, moves. split; [exact Hs|]. split; [exact Hle|].
    pose proof (Solve_cases s) as Heq. rewrite Hd in Heq.
    destruct (unsetCells s1); [contradiction|].
    change (0 >? 0) with false in Heq. cbv iota in Heq. rewrite Hs in Heq.
    split.
    + intros Hpos. rewrite Heq. destruct (Z.gtb_spec moves 0); [reflexivity|lia].
    + intros ->. exact Heq.
  - intros h g Hg. unfold perform_at. rewrite Hg. rewrite dom_insert_L.
    apply elem_of_dom_2 in Hg. set_solver.
Qed.

Lemma Solve_without_guessing_twoSolutions :
  Solve (NewSudoku twoSolutions).1 = ((NewSudoku twoSolutions).1, Err NoSolutionFound).
Proof.
  destruct (Solve_without_guessing (NewSudoku twoSolutions).1 (NewSudoku twoSolutions).1)
    as [(s2 & moves & Hs & _ & _ & Hzero) _].
  - vm_compute. reflexivity.
  - vm_compute. discriminate.
  - assert (Hrun : subsetExclusion 0 (NewSudoku twoSolutions).1
                   = ((NewSudoku twoSolutions).1, Ok 0)) by (vm_compute; reflexivity).
    rewrite Hrun in Hs. apply pair_equal_spec in Hs as [Hg Hm].
    subst s2. apply Hzero. congruence.
Defined.

(** C1, as the spec has it, fails on the puzzle [twoSolutions]: the
    deductions change nothing, the cell (0,2) is unset with the
    candidates 1 and 3, playing 1 there on a clone succeeds and [Solve]
    solves that clone, yet [Solve] fails on the grid with "No solution
    found". *)
Lemma Solve_gives_up_where_a_guess_succeeds :
  deductions 0 (NewSudoku twoSolutions).1 = ((NewSudoku twoSolutions).1, Ok 0) /\
  cell_value (deref (NewSudoku twoSolutions).1 (0, 2)) = 0 /\
  Cell_Moves (deref (NewSudoku twoSolutions).1 (0, 2)) = [1; 3] /\
  (PlayMove 0 2 1 (Clone (NewSudoku twoSolutions).1)).2 = Ok tt /\
  (Solve (PlayMove 0 2 1 (Clone (NewSudoku twoSolutions).1)).1).2 = Ok tt /\
  (Solve (NewSudoku twoSolutions).1).2 = Err NoSolutionFound.
Proof.
  split; [vm_compute; reflexivity|]. split; [vm_compute; reflexivity|].
  split; [vm_compute; reflexivity|]. split; [vm_compute; reflexivity|].
  split; vm_compute; reflexivity.
Qed.

(** ** The subset pass *)

Lemma clear_absent (value : Z) (c : Cell) :
  1 <= value -> has (cell_moves c) value = false -> clear value c = c.
Proof.
  intros Hv Hh. destruct c as [r cl v m]. unfold clear. simpl in *. f_equal.
  apply Z.bits_inj'. intros n Hn.
  rewrite Z.ldiff_spec, Z.shiftl_1_l, Z.pow2_bits_eqb by lia.
  destruct (Z.eqb_spec (value - 1) n) as [<-|Hne]; simpl.
  - unfold has in Hh. rewrite Hh. reflexivity.
  - apply andb_true_r.
Qed.





Lemma cell_value_eliminated (cells : Cells) (value : Z) (s : Sudoku) (q : CellPtr) :
  cell_value (deref (eliminated cells value s) q) = cell_value (deref s q).
Proof.
  rewrite deref_eliminated_bool. unfold clearIf. destruct (bool_decide _); reflexivity.
Qed.

Lemma has_eliminated (cells : Cells) (value : Z) (s : Sudoku) (q : CellPtr) (v : Z) :
  1 <= value -> 1 <= v ->
  has (cell_moves (deref (eliminated cells value s) q)) v
  = has (cell_moves (deref s q)) v && negb (bool_decide (q ∈ cells) && (v =? value)).
Proof.
  intros Hvalue Hv. rewrite deref_eliminated_bool. unfold clearIf.
  destruct (bool_decide (q ∈ cells)); simpl.
  - apply has_ldiff; lia.
  - rewrite andb_true_r. reflexivity.
Qed.



(** On a grid whose cells carry their coordinates, [Excluding] compares
    the cells themselves. *)
Lemma Cells_Excluding_labelled (s : Sudoku) (c other : Cells) :
  labelled s -> Forall inb c -> Forall inb other ->
  Cells_Excluding c other s
  = (s, Ok (List.filter (fun q => negb (bool_decide (q ∈ other))) c)).
Proof.
  intros Hl Hc Ho. unfold Cells_Excluding. f_equal. f_equal.
  apply List.filter_ext_in. intros q Hq. f_equal.
  apply list_elem_of_In in Hq. rewrite Forall_forall in Hc, Ho.
  destruct (Hl q (Hc q Hq)) as [Hqr Hqc].
  apply eq_true_iff_eq. rewrite List.existsb_exists, bool_decide_eq_true. split.
  - intros (o & Hoin & Heq). apply list_elem_of_In in Hoin.
    destruct (Hl o (Ho o Hoin)) as [Hor Hoc].
    apply andb_true_iff in Heq as [H1%Z.eqb_eq H2%Z.eqb_eq].
    replace q with o; [exact Hoin|]. destruct q, o. simpl in *. congruence.
  - intros Hin. exists q. split; [apply list_elem_of_In; exact Hin|].
    rewrite !Z.eqb_refl. reflexivity.
Qed.

Lemma elem_of_PowerSet (subset group : Cells) :
  subset ∈ Cells_PowerSet group <-> sublist subset group.
Proof.
  revert subset. induction group as [|head rest IH]; intros subset; simpl.
  - rewrite list_elem_of_singleton, sublist_nil_r. reflexivity.
  - rewrite elem_of_app, sublist_cons_r, IH. apply or_iff_compat_l.
    rewrite list_elem_of_In, List.in_map_iff. split.
    + intros (tail & <- & Htail). exists tail. split; [reflexivity|].
      apply IH, list_elem_of_In. exact Htail.
    + intros (tail & -> & Htail). exists tail. split; [reflexivity|].
      apply list_elem_of_In, IH. exact Htail.
Qed.

Lemma sublist_elem_of (l1 l2 : Cells) (p : CellPtr) : sublist l1 l2 -> p ∈ l1 -> p ∈ l2.
Proof.
  induction 1 as [|x l1 l2 _ IH|x l1 l2 _ IH]; intros Hp.
  - exact Hp.
  - apply elem_of_cons in Hp as [->|Hp]; [constructor|constructor; auto].
  - constructor. auto.
Qed.

Lemma sublist_same_length (l1 l2 : Cells) :
  sublist l1 l2 -> length l1 = length l2 -> l1 = l2.
Proof.
  induction 1 as [|x l1 l2 _ IH|x l1 l2 Hsub IH]; simpl; intros Hlen.
  - reflexivity.
  - f_equal. apply IH. lia.
  - apply sublist_length in Hsub. lia.
Qed.




(** * Further properties of the code *)

(** ** moves.go *)

Lemma has_lor (m : Moves) (value v : Z) :
  1 <= value -> 1 <= v ->
  has (Z.lor m (Z.shiftl 1 (value - 1))) v = has m v || (v =? value).
Proof.
  intros H1 H2. unfold has.
  rewrite Z.lor_spec, Z.shiftl_1_l, Z.pow2_bits_eqb by lia. f_equal.
  destruct (Z.eqb_spec (value - 1) (v - 1)), (Z.eqb_spec v value); (reflexivity || lia).
Qed.

Lemma Moves_Add_in (m : Moves) (value : Z) :
  1 <= value <= 9 ->
  Moves_Add m value = Ok (negb (has m value), Z.lor m (Z.shiftl 1 (value - 1))).
Proof.
  intros H. unfold Moves_Add. rewrite Moves_Contains_in by done. simpl.
  destruct (has m value) eqn:Hb; simpl.
  - f_equal. f_equal. apply Z.bits_inj'. intros k Hk.
    rewrite Z.lor_spec, Z.shiftl_1_l, Z.pow2_bits_eqb by lia.
    destruct (Z.eqb_spec (value - 1) k) as [<-|Hne]; simpl.
    + unfold has in Hb. rewrite Hb. reflexivity.
    + rewrite orb_false_r. reflexivity.
  - rewrite mask_in by done. reflexivity.
Qed.

(** [Add] and [Remove] on a value between 1 and 9: the flag tells
    whether the set changed, the value is a member after [Add] and none
    after [Remove], the membership of every other value is kept, and
    each undoes the other when it changed the set. *)
Theorem Moves_Add_Remove (m : Moves) (v : Z) :
  1 <= v <= 9 ->
  (exists b, Moves_Contains m v = Ok b /\
   (exists m', Moves_Add m v = Ok (negb b, m') /\
      Moves_Contains m' v = Ok true /\
      (forall w, 1 <= w <= 9 -> w <> v -> Moves_Contains m' w = Moves_Contains m w) /\
      (b = true -> m' = m) /\
      (b = false -> Moves_Remove m' v = Ok (true, m))) /\
   (exists m', Moves_Remove m v = Ok (b, m') /\
      Moves_Contains m' v = Ok false /\
      (forall w, 1 <= w <= 9 -> w <> v -> Moves_Contains m' w = Moves_Contains m w) /\
      (b = false -> m' = m) /\
      (b = true -> Moves_Add m' v = Ok (true, m)))).
Proof.
  intros Hv. exists (has m v). split; [apply Moves_Contains_in; exact Hv|].
  assert (Hbit : forall (a b : Z), (forall k, 0 <= k -> Z.testbit a k = Z.testbit b k) -> a = b)
    by (intros a b H; apply Z.bits_inj'; exact H).
  split.
  - exists (Z.lor m (Z.shiftl 1 (v - 1))).
    split; [apply Moves_Add_in; exact Hv|].
    split; [rewrite Moves_Contains_in, has_lor, Z.eqb_refl, orb_true_r by lia; reflexivity|].
    split; [|split].
    + intros w Hw Hne. rewrite !Moves_Contains_in, has_lor by lia.
      destruct (Z.eqb_spec w v); [contradiction|]. rewrite orb_false_r. reflexivity.
    + intros Hb. apply Hbit. intros k Hk.
      rewrite Z.lor_spec, Z.shiftl_1_l, Z.pow2_bits_eqb by lia.
      destruct (Z.eqb_spec (v - 1) k) as [<-|Hne].
      * unfold has in Hb. rewrite Hb. reflexivity.
      * apply orb_false_r.
    + intros Hb. rewrite Moves_Remove_in, has_lor, Z.eqb_refl, orb_true_r by lia.
      f_equal. f_equal. apply Hbit. intros k Hk.
      rewrite Z.ldiff_spec, Z.lor_spec, Z.shiftl_1_l, Z.pow2_bits_eqb by lia.
      destruct (Z.eqb_spec (v - 1) k) as [<-|Hne]; simpl.
      * unfold has in Hb. rewrite Hb. rewrite andb_false_r. reflexivity.
      * rewrite orb_false_r, andb_true_r. reflexivity.
  - exists (Z.ldiff m (Z.shiftl 1 (v - 1))).
    split; [apply Moves_Remove_in; exact Hv|].
    split; [rewrite Moves_Contains_in, has_ldiff, Z.eqb_refl, andb_false_r by lia;
            reflexivity|].
    split; [|split].
    + intros w Hw Hne. rewrite !Moves_Contains_in, has_ldiff by lia.
      destruct (Z.eqb_spec w v); [contradiction|]. rewrite andb_true_r. reflexivity.
    + intros Hb. apply Hbit. intros k Hk.
      rewrite Z.ldiff_spec, Z.shiftl_1_l, Z.pow2_bits_eqb by lia.
      destruct (Z.eqb_spec (v - 1) k) as [<-|Hne]; simpl.
      * unfold has in Hb. rewrite Hb. reflexivity.
      * apply andb_true_r.
    + intros Hb. rewrite Moves_Add_in, has_ldiff, Z.eqb_refl, andb_false_r by lia.
      f_equal. f_equal. apply Hbit. intros k Hk.
      rewrite Z.lor_spec, Z.ldiff_spec, Z.shiftl_1_l, Z.pow2_bits_eqb by lia.
      destruct (Z.eqb_spec (v - 1) k) as [<-|Hne]; simpl.
      * unfold has in Hb. rewrite Hb. reflexivity.
      * rewrite andb_true_r, orb_false_r. reflexivity.
Qed.

Lemma Moves_Add_Remove_on_full :
  exists b, Moves_Contains full 5 = Ok b /\
   (exists m', Moves_Add full 5 = Ok (negb b, m') /\
      Moves_Contains m' 5 = Ok true /\
      (forall w, 1 <= w <= 9 -> w <> 5 -> Moves_Contains m' w = Moves_Contains full w) /\
      (b = true -> m' = full) /\
      (b = false -> Moves_Remove m' 5 = Ok (true, full))) /\
   (exists m', Moves_Remove full 5 = Ok (b, m') /\
      Moves_Contains m' 5 = Ok false /\
      (forall w, 1 <= w <= 9 -> w <> 5 -> Moves_Contains m' w = Moves_Contains full w) /\
      (b = false -> m' = full) /\
      (b = true -> Moves_Add m' 5 = Ok (true, full))).
Proof. apply (Moves_Add_Remove full 5). lia. Defined.

Lemma StronglySorted_filter (f : Z -> bool) (l : list Z) :
  StronglySorted Z.lt l -> StronglySorted Z.lt (List.filter f l).
Proof.
  induction 1 as [|a l Hl IH Ha]; simpl; [constructor|].
  destruct (f a); [|exact IH]. constructor; [exact IH|].
  apply List.Forall_forall. intros x Hx. apply List.filter_In in Hx as [Hx _].
  rewrite List.Forall_forall in Ha. apply Ha. exact Hx.
Qed.

(** [Slice] lists the members of the set between 1 and 9, each once, in
    ascending order; a set has at most nine of them. *)
Theorem Moves_Slice_sorted_members (m : Moves) :
  StronglySorted Z.lt (Moves_Slice m) /\
  NoDup (Moves_Slice m) /\
  (length (Moves_Slice m) <= 9)%nat /\
  forall v, v ∈ Moves_Slice m <-> 1 <= v <= 9 /\ Moves_Contains m v = Ok true.
Proof.
  split; [|split; [|split]].
  - rewrite Moves_Slice_has. apply StronglySorted_filter.
    repeat (constructor; [|repeat constructor; lia]). constructor.
  - rewrite Moves_Slice_has. apply NoDup_ListNoDup, List.NoDup_filter, NoDup_ListNoDup.
    apply NoDup_seqZ.
  - apply (weight_le_9 (mkCell 0 0 0 m)).
  - intros v. rewrite elem_of_Moves_Slice. split.
    + intros [Hv Hh]. split; [exact Hv|]. rewrite Moves_Contains_in by exact Hv.
      rewrite Hh. reflexivity.
    + intros [Hv Hc]. split; [exact Hv|]. rewrite Moves_Contains_in in Hc by exact Hv.
      congruence.
Qed.

(** ** cell.go *)

(** [Set] writes a cell once: on an unset cell it stores the value and
    empties the candidate set, keeping the coordinates; on a cell that
    holds a value it returns the "already set" error and leaves the
    cell, so a second [Set] always fails. *)
Theorem Cell_Set_writes_once (c : Cell) (v : Z) :
  1 <= v <= 9 ->
  (cell_value c = 0 ->
   Cell_Set c v = (mkCell (cell_row c) (cell_col c) v empty, Ok tt) /\
   forall w, exists e, Cell_Set (Cell_Set c v).1 w = ((Cell_Set c v).1, Err e)) /\
  (cell_value c <> 0 -> Cell_Set c v = (c, Err (CellAlreadySet (cell_value c)))).
Proof.
  intros Hv.
  assert (Hr : (v <? 1) || (v >? 9) = false).
  { destruct (Z.ltb_spec v 1), (Z.gtb_spec v 9); simpl; (reflexivity || lia). }
  split.
  - intros H0. assert (Hset : Cell_Set c v = (mkCell (cell_row c) (cell_col c) v empty, Ok tt)).
    { unfold Cell_Set. rewrite Hr, H0. reflexivity. }
    split; [exact Hset|]. intros w. rewrite Hset. simpl. unfold Cell_Set. simpl.
    destruct ((w <? 1) || (w >? 9)); [eexists; reflexivity|].
    destruct (Z.eqb_spec v 0); [lia|]. simpl. eexists. reflexivity.
  - intros Hne. unfold Cell_Set. rewrite Hr.
    destruct (Z.eqb_spec (cell_value c) 0); [contradiction|]. reflexivity.
Qed.

Lemma Cell_Set_writes_once_blank :
  Cell_Set (mkCell 2 3 0 full) 7 = (mkCell 2 3 7 empty, Ok tt) /\
  forall w, exists e,
    Cell_Set (Cell_Set (mkCell 2 3 0 full) 7).1 w = ((Cell_Set (mkCell 2 3 0 full) 7).1, Err e).
Proof.
  destruct (Cell_Set_writes_once (mkCell 2 3 0 full) 7) as [H _]; [lia|].
  apply H. reflexivity.
Defined.

Lemma eliminate_count (c : Cells) (value changes : Z) (s : Sudoku) :
  1 <= value <= 9 -> NoDup c ->
  forM c changes (fun changes p =>
    do changed <- call p (fun cell => Cell_EliminateMove cell value) ;
    ret (if changed then changes + 1 else changes)) s
  = (eliminated c value s,
     Ok (changes + len (List.filter (fun p => has (cell_moves (deref s p)) value) c))).
Proof.
  intros Hv Hnd. revert changes s.
  induction Hnd as [|p c Hp Hnd IH]; intros changes s; simpl.
  - unfold len. simpl. rewrite Z.add_0_r. reflexivity.
  - unfold bind at 1. unfold bind at 1. unfold call at 1.
    rewrite Cell_EliminateMove_in by done. unfold ret at 1. cbv beta iota.
    change (eliminated (p :: c) value s)
      with (eliminated c value (store s p (clear value (deref s p)))).
    rewrite IH. f_equal. f_equal.
    assert (Hsame : List.filter
                      (fun q => has (cell_moves (deref (store s p (clear value (deref s p))) q))
                                    value) c
                    = List.filter (fun q => has (cell_moves (deref s q)) value) c).
    { apply List.filter_ext_in. intros q Hq%list_elem_of_In.
      rewrite deref_store_ne; [reflexivity|]. intros ->. contradiction. }
    rewrite Hsame. destruct (has (cell_moves (deref s p)) value); unfold len; simpl length; lia.
Qed.

(** [Cells.EliminateMove] on a slice without repeated cells and a value
    between 1 and 9 returns the number of cells that had the candidate;
    afterwards no cell of the slice has it, every other candidate of
    every cell is as before, and no value changes. *)
Theorem Cells_EliminateMove_counts (c : Cells) (value : Z) (s : Sudoku) :
  1 <= value <= 9 -> NoDup c ->
  exists s',
    Cells_EliminateMove c value s
    = (s', Ok (len (List.filter
                      (fun p => match Cell_CanPlay (deref s p) value with
                                | Ok true => true
                                | _ => false
                                end) c))) /\
    forall q w, 1 <= w <= 9 ->
      cell_value (deref s' q) = cell_value (deref s q) /\
      Cell_CanPlay (deref s' q) w
      = if bool_decide (q ∈ c) && (w =? value) then Ok false
        else Cell_CanPlay (deref s q) w.
Proof.
  intros Hv Hnd. exists (eliminated c value s). split.
  - unfold Cells_EliminateMove. rewrite eliminate_count by done. f_equal. f_equal.
    rewrite Z.add_0_l. f_equal. apply List.filter_ext. intros p.
    unfold Cell_CanPlay. rewrite Moves_Contains_in by done.
    destruct (has _ value); reflexivity.
  - intros q w Hw. split; [apply cell_value_eliminated|].
    unfold Cell_CanPlay. rewrite !Moves_Contains_in by done.
    rewrite has_eliminated by lia.
    destruct (bool_decide (q ∈ c) && (w =? value)); simpl.
    + rewrite andb_false_r. reflexivity.
    + rewrite andb_true_r. reflexivity.
Qed.

Lemma NoDup_Range (top left bottom right : Z) : NoDup (Range top left bottom right).
Proof.
  unfold Range. generalize (seqZ top (bottom - top + 1)) (NoDup_seqZ top (bottom - top + 1)).
  intros rows Hrows. induction Hrows as [|row rows Hrow Hrows IH]; simpl; [constructor|].
  apply NoDup_app. split; [|split; [|exact IH]].
  - apply NoDup_ListNoDup, List.NoDup_map_inv with (f := snd).
    rewrite List.map_map. simpl. rewrite List.map_id. apply NoDup_ListNoDup, NoDup_seqZ.
  - intros p Hp Hq. apply list_elem_of_In, List.in_map_iff in Hp as (col & <- & _).
    apply list_elem_of_In, List.in_flat_map in Hq as (row' & Hrow' & Hin).
    apply List.in_map_iff in Hin as (col' & Heq & _). unfold Sudoku_Cell in Heq.
    injection Heq as -> _. apply Hrow. apply list_elem_of_In. exact Hrow'.
Qed.

Lemma Cells_EliminateMove_counts_row :
  exists s',
    Cells_EliminateMove (Row 0) 5 blank
    = (s', Ok (len (List.filter
                      (fun p => match Cell_CanPlay (deref blank p) 5 with
                                | Ok true => true
                                | _ => false
                                end) (Row 0)))) /\
    forall q w, 1 <= w <= 9 ->
      cell_value (deref s' q) = cell_value (deref blank q) /\
      Cell_CanPlay (deref s' q) w
      = if bool_decide (q ∈ Row 0) && (w =? 5) then Ok false
        else Cell_CanPlay (deref blank q) w.
Proof. apply (Cells_EliminateMove_counts (Row 0) 5 blank); [lia|apply NoDup_Range]. Defined.

Lemma filter_sublist_of (f : CellPtr -> bool) (c : Cells) : sublist (List.filter f c) c.
Proof.
  induction c as [|p c IH]; simpl; [constructor|].
  destruct (f p); [apply sublist_skip|apply sublist_cons]; exact IH.
Qed.

(** [Cells.FindMove] reads the grid only.  For a value between 1 and 9
    it returns, in the order of the slice, exactly the cells whose
    candidate set holds the value; for any other value it panics as
    soon as the slice has a cell, and returns the empty slice on the
    empty slice. *)
Theorem Cells_FindMove_filters (c : Cells) (value : Z) (s : Sudoku) :
  (1 <= value <= 9 ->
   exists found, Cells_FindMove c value s = (s, Ok found) /\ sublist found c /\
     forall p, p ∈ found <-> p ∈ c /\ Cell_CanPlay (deref s p) value = Ok true) /\
  (value < 1 \/ value > 9 ->
   Cells_FindMove c value s = (s, if decide (c = []) then Ok [] else Panic)).
Proof.
  split.
  - intros Hv. eexists. split; [apply Cells_FindMove_in; exact Hv|].
    split; [apply filter_sublist_of|]. intros p.
    rewrite list_elem_of_In, List.filter_In, <- list_elem_of_In.
    unfold Cell_CanPlay. rewrite Moves_Contains_in by exact Hv.
    split; intros [H1 H2]; (split; [exact H1|congruence]).
  - intros Hv. unfold Cells_FindMove. destruct c as [|p c]; [reflexivity|].
    case_decide; [discriminate|]. simpl. unfold bind at 1. unfold bind at 1. simpl.
    unfold Cell_CanPlay, Moves_Contains. rewrite mask_out by exact Hv. reflexivity.
Qed.

(** [Cells.RemainingMoves] reads the grid only and returns the union of
    the candidate sets: a value between 1 and 9 is in it exactly when
    some cell of the slice can play it; the empty slice gives the empty
    set. *)
Theorem Cells_RemainingMoves_is_union (c : Cells) (s : Sudoku) :
  exists u, Cells_RemainingMoves c s = (s, Ok u) /\
    (c = [] -> u = empty) /\
    forall v, 1 <= v <= 9 ->
      (Moves_Contains u v = Ok true <->
       exists p, p ∈ c /\ Cell_CanPlay (deref s p) v = Ok true).
Proof.
  exists (union s c). split; [apply Cells_RemainingMoves_spec|]. split.
  - intros ->. reflexivity.
  - intros v Hv. rewrite Moves_Contains_in, has_union by exact Hv. split.
    + intros H. injection H as H. apply List.existsb_exists in H as (p & Hp & Hh).
      exists p. split; [apply list_elem_of_In; exact Hp|].
      unfold Cell_CanPlay. rewrite Moves_Contains_in by exact Hv. congruence.
    + intros (p & Hp & Hc). f_equal. apply List.existsb_exists. exists p.
      split; [apply list_elem_of_In; exact Hp|].
      unfold Cell_CanPlay in Hc. rewrite Moves_Contains_in in Hc by exact Hv. congruence.
Qed.

(** On a grid whose cells carry their coordinates, [Cells.Excluding]
    keeps, in order, the cells of the slice that are not in [other],
    and reads the grid only. *)
Theorem Cells_Excluding_difference (s : Sudoku) (c other : Cells) :
  labelled s -> Forall inb c -> Forall inb other ->
  exists rest, Cells_Excluding c other s = (s, Ok rest) /\ sublist rest c /\
    forall q, q ∈ rest <-> q ∈ c /\ q ∉ other.
Proof.
  intros Hl Hc Ho. eexists. split; [apply Cells_Excluding_labelled; assumption|].
  split; [apply filter_sublist_of|]. intros q.
  rewrite list_elem_of_In, List.filter_In, <- list_elem_of_In.
  rewrite negb_true_iff, bool_decide_eq_false. reflexivity.
Qed.

Lemma Forall_inb_Range (top left bottom right : Z) :
  0 <= top -> bottom <= 8 -> 0 <= left -> right <= 8 ->
  Forall inb (Range top left bottom right).
Proof.
  intros. apply Forall_forall. intros p Hp%elem_of_Range. split; lia.
Qed.

Lemma Cells_Excluding_difference_row_square :
  exists rest, Cells_Excluding (Row 0) (Square 0 0) blank = (blank, Ok rest) /\
    sublist rest (Row 0) /\
    forall q, q ∈ rest <-> q ∈ Row 0 /\ q ∉ Square 0 0.
Proof.
  apply (Cells_Excluding_difference blank (Row 0) (Square 0 0)).
  - apply labelled_blank.
  - apply Forall_inb_Range; lia.
  - apply Forall_inb_Range; lia.
Defined.

(** [Cells.PowerSet] of a slice of [n] cells has [2^n] elements, the
    first of which is the empty slice, and lists exactly the slices
    obtained by dropping cells and keeping the order. *)
Theorem Cells_PowerSet_sublists (c : Cells) :
  len (Cells_PowerSet c) = 2 ^ len c /\
  Cells_PowerSet c !! 0%nat = Some [] /\
  forall subset, subset ∈ Cells_PowerSet c <-> sublist subset c.
Proof.
  split; [|split].
  - unfold len. induction c as [|p c IH]; [reflexivity|].
    simpl Cells_PowerSet. rewrite length_app, length_map.
    change (length (p :: c)) with (S (length c)).
    change (length (A := list CellPtr)) with (length (A := Cells)).
    rewrite Nat2Z.inj_add, IH, Nat2Z.inj_succ, Z.pow_succ_r by apply Nat2Z.is_nonneg.
    generalize (2 ^ Z.of_nat (length c)). intros. lia.
  - induction c as [|p c IH]; [reflexivity|]. simpl.
    rewrite lookup_app_l; [exact IH|]. apply lookup_lt_Some in IH. exact IH.
  - intros subset. apply elem_of_PowerSet.
Qed.

(** ** sudoku.go: the groups of the grid *)

Lemma elem_of_Rows (g : Cells) : g ∈ Rows <-> exists r, 0 <= r <= 8 /\ g = Row r.
Proof.
  unfold Rows. rewrite list_elem_of_In, List.in_map_iff. split.
  - intros (r & <- & Hr%list_elem_of_In%elem_of_seqZ). exists r. split; [lia|reflexivity].
  - intros (r & Hr & ->). exists r. split; [reflexivity|].
    apply list_elem_of_In, elem_of_seqZ. lia.
Qed.

Lemma elem_of_Cols (g : Cells) : g ∈ Cols <-> exists c, 0 <= c <= 8 /\ g = Col c.
Proof.
  unfold Cols. rewrite list_elem_of_In, List.in_map_iff. split.
  - intros (r & <- & Hr%list_elem_of_In%elem_of_seqZ). exists r. split; [lia|reflexivity].
  - intros (r & Hr & ->). exists r. split; [reflexivity|].
    apply list_elem_of_In, elem_of_seqZ. lia.
Qed.

Lemma elem_of_Squares (g : Cells) :
  g ∈ Squares <-> exists r c, 0 <= r <= 2 /\ 0 <= c <= 2 /\ g = Square r c.
Proof.
  unfold Squares. rewrite list_elem_of_In, List.in_flat_map. split.
  - intros (r & Hr%list_elem_of_In%elem_of_seqZ & Hg).
    apply List.in_map_iff in Hg as (c & <- & Hc%list_elem_of_In%elem_of_seqZ).
    exists r, c. split; [lia|]. split; [lia|reflexivity].
  - intros (r & c & Hr & Hc & ->). exists r. split.
    + apply list_elem_of_In, elem_of_seqZ. lia.
    + apply List.in_map_iff. exists c. split; [reflexivity|].
      apply list_elem_of_In, elem_of_seqZ. lia.
Qed.

Lemma quot3_small (a : Z) : 0 <= a <= 8 -> 0 <= Z.quot a 3 <= 2.
Proof.
  intros Ha. rewrite Z.quot_div_nonneg by lia.
  pose proof (Z.div_mod a 3 ltac:(lia)). pose proof (Z.mod_pos_bound a 3 ltac:(lia)). lia.
Qed.

(** Every cell of the grid lies in exactly three of the groups that
    [Groups] lists: its row, its column and its square. *)
Theorem Groups_of_a_cell (p : CellPtr) :
  inb p ->
  Row p.1 ∈ Rows /\ Col p.2 ∈ Cols /\ Square (Z.quot p.1 3) (Z.quot p.2 3) ∈ Squares /\
  forall g, g ∈ Groups ->
    (p ∈ g <-> g = Row p.1 \/ g = Col p.2 \/ g = Square (Z.quot p.1 3) (Z.quot p.2 3)).
Proof.
  intros [Hp1 Hp2].
  assert (Hrow : p ∈ Row p.1) by (apply elem_of_Row; lia).
  assert (Hcol : p ∈ Col p.2) by (apply elem_of_Col; lia).
  assert (Hsq : p ∈ Square (Z.quot p.1 3) (Z.quot p.2 3)).
  { apply elem_of_Square; [apply Z.quot_pos; lia|apply Z.quot_pos; lia|]. lia. }
  split; [apply elem_of_Rows; exists p.1; auto|].
  split; [apply elem_of_Cols; exists p.2; auto|].
  split.
  { apply elem_of_Squares. exists (Z.quot p.1 3), (Z.quot p.2 3).
    split; [apply quot3_small; lia|]. split; [apply quot3_small; lia|reflexivity]. }
  intros g Hg. split.
  - intros Hin. unfold Groups in Hg. rewrite !elem_of_app in Hg.
    destruct Hg as [[Hg|Hg]|Hg].
    + apply elem_of_Rows in Hg as (r & Hr & ->). apply elem_of_Row in Hin as [<- _]. auto.
    + apply elem_of_Cols in Hg as (c & Hc & ->). apply elem_of_Col in Hin as [_ <-]. auto.
    + apply elem_of_Squares in Hg as (r & c & Hr & Hc & ->).
      apply elem_of_Square in Hin as (_ & _ & <- & <-); [auto|lia|lia].
  - intros [->|[->| ->]]; assumption.
Qed.

Lemma Groups_of_a_cell_centre :
  Row 4 ∈ Rows /\ Col 4 ∈ Cols /\ Square 1 1 ∈ Squares /\
  forall g, g ∈ Groups ->
    ((4, 4) ∈ g <-> g = Row 4 \/ g = Col 4 \/ g = Square 1 1).
Proof. apply (Groups_of_a_cell (4, 4)). split; simpl; lia. Defined.

Lemma length_Range (top left bottom right : Z) :
  top <= bottom -> left <= right ->
  len (Range top left bottom right) = (bottom - top + 1) * (right - left + 1).
Proof.
  intros Hr Hc. unfold Range, len.
  assert (Hgen : forall rows : list Z,
            Z.of_nat (length (List.flat_map
                        (fun row => List.map (fun col => Sudoku_Cell row col)
                                             (seqZ left (right - left + 1))) rows))
            = Z.of_nat (length rows) * (right - left + 1)).
  { induction rows as [|row rows IH]; [reflexivity|].
    simpl List.flat_map. rewrite length_app, length_map, length_seqZ.
    change (length (row :: rows)) with (S (length rows)).
    rewrite Nat2Z.inj_add, IH, Nat2Z.inj_succ, Z2Nat.id by lia. lia. }
  rewrite Hgen, length_seqZ, Z2Nat.id by lia. reflexivity.
Qed.

Lemma group_cells (g : Cells) :
  g ∈ Groups -> len g = 9 /\ NoDup g /\ Forall inb g.
Proof.
  intros Hg. unfold Groups in Hg. rewrite !elem_of_app in Hg.
  destruct Hg as [[Hg|Hg]|Hg].
  - apply elem_of_Rows in Hg as (r & Hr & ->). unfold Row.
    split; [rewrite length_Range; lia|]. split; [apply NoDup_Range|].
    apply Forall_inb_Range; lia.
  - apply elem_of_Cols in Hg as (c & Hc & ->). unfold Col.
    split; [rewrite length_Range; lia|]. split; [apply NoDup_Range|].
    apply Forall_inb_Range; lia.
  - apply elem_of_Squares in Hg as (r & c & Hr & Hc & ->). unfold Square.
    split; [rewrite length_Range; lia|]. split; [apply NoDup_Range|].
    apply Forall_inb_Range; lia.
Qed.

(** [Groups] lists 27 groups, the 9 rows, the 9 columns and the 9
    squares; each of them has 9 cells of the grid, no cell twice; and
    [Cells] lists the 81 cells of the grid row by row. *)
Theorem Groups_are_27_of_9 :
  len Rows = 9 /\ len Cols = 9 /\ len Squares = 9 /\ len Groups = 27 /\
  (forall g, g ∈ Groups -> len g = 9 /\ NoDup g /\ Forall inb g) /\
  Sudoku_Cells = concat Rows /\ len Sudoku_Cells = 81 /\ NoDup Sudoku_Cells.
Proof.
  split; [reflexivity|]. split; [reflexivity|]. split; [reflexivity|].
  split; [reflexivity|]. split; [exact group_cells|].
  split; [reflexivity|]. split; [reflexivity|]. apply NoDup_Range.
Qed.

(** On a grid whose cells carry their coordinates, [UniqueRows] and
    [UniqueCols] of a slice of cells of the grid read the grid only and
    return, in ascending order and without repetition, the rows and the
    columns that have a cell in the slice. *)
Theorem Cells_Unique_lines (s : Sudoku) (c : Cells) :
  labelled s -> Forall inb c ->
  exists rows cols,
    Cells_UniqueRows c s = (s, Ok rows) /\ Cells_UniqueCols c s = (s, Ok cols) /\
    StronglySorted Z.lt rows /\ StronglySorted Z.lt cols /\
    (forall row, row ∈ rows <-> exists p, p ∈ c /\ p.1 = row) /\
    (forall col, col ∈ cols <-> exists p, p ∈ c /\ p.2 = col).
Proof.
  intros Hl Hc. eexists. eexists. split; [reflexivity|]. split; [reflexivity|].
  assert (Hsorted : StronglySorted Z.lt (seqZ 0 9)).
  { repeat (constructor; [|repeat constructor; lia]). constructor. }
  split; [apply StronglySorted_filter; exact Hsorted|].
  split; [apply StronglySorted_filter; exact Hsorted|].
  rewrite Forall_forall in Hc. split.
  - intros row. rewrite list_elem_of_In, List.filter_In, List.existsb_exists. split.
    + intros (_ & p & Hp%list_elem_of_In & Heq%Z.eqb_eq). exists p. split; [exact Hp|].
      rewrite <- Heq. symmetry. apply Hl, Hc, Hp.
    + intros (p & Hp & <-). pose proof (Hc p Hp) as Hin. split.
      * apply list_elem_of_In, elem_of_seqZ. destruct Hin. lia.
      * exists p. split; [apply list_elem_of_In; exact Hp|].
        apply Z.eqb_eq. apply Hl, Hin.
  - intros col. rewrite list_elem_of_In, List.filter_In, List.existsb_exists. split.
    + intros (_ & p & Hp%list_elem_of_In & Heq%Z.eqb_eq). exists p. split; [exact Hp|].
      rewrite <- Heq. symmetry. apply Hl, Hc, Hp.
    + intros (p & Hp & <-). pose proof (Hc p Hp) as Hin. split.
      * apply list_elem_of_In, elem_of_seqZ. destruct Hin. lia.
      * exists p. split; [apply list_elem_of_In; exact Hp|].
        apply Z.eqb_eq. apply Hl, Hin.
Qed.

Lemma Cells_Unique_lines_square :
  exists rows cols,
    Cells_UniqueRows (Square 1 2) blank = (blank, Ok rows) /\
    Cells_UniqueCols (Square 1 2) blank = (blank, Ok cols) /\
    StronglySorted Z.lt rows /\ StronglySorted Z.lt cols /\
    (forall row, row ∈ rows <-> exists p, p ∈ Square 1 2 /\ p.1 = row) /\
    (forall col, col ∈ cols <-> exists p, p ∈ Square 1 2 /\ p.2 = col).
Proof.
  apply (Cells_Unique_lines blank (Square 1 2)).
  - apply labelled_blank.
  - apply Forall_inb_Range; lia.
Defined.

(** [uniqueSquares] of row or column numbers between 0 and 8 returns,
    in ascending order and without repetition, the numbers of the
    bands of three they fall in. *)
Theorem uniqueSquares_bands (values : list Z) :
  Forall (fun value => 0 <= value <= 8) values ->
  StronglySorted Z.lt (uniqueSquares values) /\
  forall square, square ∈ uniqueSquares values <->
    exists value, value ∈ values /\ square * 3 <= value <= square * 3 + 2.
Proof.
  intros Hv. rewrite Forall_forall in Hv. split.
  - apply StronglySorted_filter. repeat (constructor; [|repeat constructor; lia]). constructor.
  - intros square. unfold uniqueSquares.
    rewrite list_elem_of_In, List.filter_In, List.existsb_exists. split.
    + intros (_ & value & Hin%list_elem_of_In & Heq%Z.eqb_eq). exists value.
      split; [exact Hin|]. pose proof (Hv value Hin) as Hb.
      rewrite Z.quot_div_nonneg in Heq by lia.
      pose proof (Z.div_mod value 3 ltac:(lia)). pose proof (Z.mod_pos_bound value 3 ltac:(lia)).
      lia.
    + intros (value & Hin & Hsq). pose proof (Hv value Hin) as Hb.
      assert (Hq : Z.quot value 3 = square).
      { rewrite Z.quot_div_nonneg by lia. symmetry. apply (Z.div_unique value 3 square (value - square * 3)); lia. }
      split.
      * apply list_elem_of_In, elem_of_seqZ. lia.
      * exists value. split; [apply list_elem_of_In; exact Hin|]. apply Z.eqb_eq. exact Hq.
Qed.

Lemma uniqueSquares_bands_of_two :
  StronglySorted Z.lt (uniqueSquares [7; 1; 8]) /\
  forall square, square ∈ uniqueSquares [7; 1; 8] <->
    exists value, value ∈ [7; 1; 8] /\ square * 3 <= value <= square * 3 + 2.
Proof.
  apply (uniqueSquares_bands [7; 1; 8]). repeat (constructor; [lia|]). constructor.
Defined.

(** ** sudoku.go: PlayMove *)

(** [PlayMove] checks its arguments in a fixed order and leaves the
    grid as it was when a check fails: the row first, then the column,
    then the value, whose error carries the column instead of the
    value, then that the cell is unset. *)
Theorem PlayMove_checks_arguments_in_order (s : Sudoku) (row col value : Z) :
  (row < 0 \/ 9 <= row -> PlayMove row col value s = (s, Err (RowOutOfBounds row))) /\
  (0 <= row <= 8 -> col < 0 \/ 9 <= col ->
   PlayMove row col value s = (s, Err (ColOutOfBounds col))) /\
  (0 <= row <= 8 -> 0 <= col <= 8 -> value < 1 \/ 9 < value ->
   PlayMove row col value s = (s, Err (ValueOutOfBounds col))) /\
  (0 <= row <= 8 -> 0 <= col <= 8 -> 1 <= value <= 9 ->
   cell_value (boardAt s row col) <> 0 ->
   PlayMove row col value s = (s, Err (CellAlreadyContains row col))).
Proof.
  assert (Hout : forall x lo hi, x < lo \/ hi <= x -> (x <? lo) || (x >=? hi) = true).
  { intros x lo hi Hx. rewrite Z.geb_leb.
    destruct (Z.ltb_spec x lo), (Z.leb_spec hi x); simpl; (reflexivity || lia). }
  assert (Hin : forall x lo hi, lo <= x < hi -> (x <? lo) || (x >=? hi) = false).
  { intros x lo hi Hx. rewrite Z.geb_leb.
    destruct (Z.ltb_spec x lo), (Z.leb_spec hi x); simpl; (reflexivity || lia). }
  assert (Hvout : value < 1 \/ 9 < value -> (value <? 1) || (value >? 9) = true).
  { intros Hx. rewrite Z.gtb_ltb.
    destruct (Z.ltb_spec value 1), (Z.ltb_spec 9 value); simpl; (reflexivity || lia). }
  assert (Hvin : 1 <= value <= 9 -> (value <? 1) || (value >? 9) = false).
  { intros Hx. rewrite Z.gtb_ltb.
    destruct (Z.ltb_spec value 1), (Z.ltb_spec 9 value); simpl; (reflexivity || lia). }
  rewrite PlayMove_unfold. unfold refusal. repeat split.
  - intros Hr. rewrite Hout by exact Hr. reflexivity.
  - intros Hr Hc. rewrite Hin by lia. rewrite Hout by exact Hc. reflexivity.
  - intros Hr Hc Hv. rewrite !Hin by lia. rewrite Hvout by exact Hv. reflexivity.
  - intros Hr Hc Hv Hset. rewrite !Hin by lia. rewrite Hvin by exact Hv.
    destruct (Z.eqb_spec (cell_value (boardAt s row col)) 0); [contradiction|]. reflexivity.
Qed.

(** What an accepted move does.  When [PlayMove] returns nil the cell
    was unset and had the value as a candidate; afterwards it holds the
    value and no candidate, every other cell of the grid holds what it
    held, the cells that share a row, a column or a square with it have
    lost the value as a candidate and nothing else, the candidates of
    the cells that share none are untouched, and no unset cell of the
    grid is without candidate. *)
Theorem PlayMove_effect (s s' : Sudoku) (row col value : Z) :
  PlayMove row col value s = (s', Ok tt) ->
  (cell_value (boardAt s row col) = 0 /\
   Cell_CanPlay (boardAt s row col) value = Ok true) /\
  (cell_value (boardAt s' row col) = value /\ Cell_Moves (boardAt s' row col) = []) /\
  (forall q, inb q -> q <> (row, col) ->
     cell_value (deref s' q) = cell_value (deref s q) /\
     forall w, 1 <= w <= 9 ->
       Cell_CanPlay (deref s' q) w
       = if bool_decide (sees (row, col) q) && (w =? value) then Ok false
         else Cell_CanPlay (deref s q) w) /\
  (forall q, inb q -> cell_value (deref s' q) = 0 -> cell_moves (deref s' q) <> empty).
Proof.
  rewrite PlayMove_unfold. destruct (refusal s row col value) eqn:Hr; [discriminate|].
  apply refusal_None in Hr. fold (accepted s row col value) in Hr. cbv zeta.
  destruct (List.find _ _) as [d|] eqn:Hfind; [discriminate|]. simpl.
  intros Heq. apply (f_equal fst) in Heq. cbn [fst] in Heq. subst s'.
  pose proof Hr as (Hrow & Hcol & Hval & Hunset & _ & _ & _ & Hcan).
  assert (Hvalid : valid s (row, col)) by (eapply has_valid; exact Hcan).
  split; [|split; [|split]].
  - split; [exact Hunset|]. unfold Cell_CanPlay. rewrite Moves_Contains_in by exact Hval.
    rewrite Hcan. reflexivity.
  - change (boardAt (placed s row col value) row col)
      with (deref (placed s row col value) (row, col)).
    rewrite placed_target by exact Hr. split; reflexivity.
  - intros q Hq Hne. rewrite deref_placed by exact Hvalid.
    destruct (decide (q = (row, col))) as [|_]; [contradiction|].
    rewrite (bool_decide_ext _ _ (elem_of_peers row col q Hrow Hcol Hq)).
    destruct (bool_decide (sees (row, col) q)); simpl.
    + split; [reflexivity|]. intros w Hw. unfold Cell_CanPlay.
      rewrite !Moves_Contains_in by exact Hw. unfold clear. cbn [cell_moves].
      rewrite has_ldiff by lia.
      destruct (w =? value); [rewrite andb_false_r|rewrite andb_true_r]; reflexivity.
    + split; [reflexivity|]. intros w Hw. reflexivity.
  - intros q Hq Hq0 Hnil. apply List.find_none with (x := q) in Hfind.
    + unfold deadb in Hfind. rewrite Hq0, Hnil in Hfind. discriminate.
    + apply list_elem_of_In, elem_of_Sudoku_Cells. exact Hq.
Qed.

Lemma PlayMove_effect_first_move :
  (cell_value (boardAt blank 0 0) = 0 /\ Cell_CanPlay (boardAt blank 0 0) 5 = Ok true) /\
  (cell_value (boardAt (PlayMove 0 0 5 blank).1 0 0) = 5 /\
   Cell_Moves (boardAt (PlayMove 0 0 5 blank).1 0 0) = []) /\
  (forall q, inb q -> q <> (0, 0) ->
     cell_value (deref (PlayMove 0 0 5 blank).1 q) = cell_value (deref blank q) /\
     forall w, 1 <= w <= 9 ->
       Cell_CanPlay (deref (PlayMove 0 0 5 blank).1 q) w
       = if bool_decide (sees (0, 0) q) && (w =? 5) then Ok false
         else Cell_CanPlay (deref blank q) w) /\
  (forall q, inb q -> cell_value (deref (PlayMove 0 0 5 blank).1 q) = 0 ->
     cell_moves (deref (PlayMove 0 0 5 blank).1 q) <> empty).
Proof.
  apply (PlayMove_effect blank (PlayMove 0 0 5 blank).1 0 0 5).
  vm_compute. reflexivity.
Defined.

(** ** What every operation keeps *)

(** A grid only fills up.  Whatever operations are run on a grid, the
    board keeps its dimensions, the number of candidates on the grid
    does not grow, every cell keeps its coordinates, and a value that a
    cell holds is never changed or taken back. *)
Theorem values_are_final (s : Sudoku) (ops : list operation) :
  shape (performAll ops s) = shape s /\
  (candidates (performAll ops s) <= candidates s)%nat /\
  forall p,
    cell_row (deref (performAll ops s) p) = cell_row (deref s p) /\
    cell_col (deref (performAll ops s) p) = cell_col (deref s p) /\
    (cell_value (deref s p) <> 0 ->
     cell_value (deref (performAll ops s) p) = cell_value (deref s p)).
Proof.
  destruct (evolves_performAll ops s) as (Hle & Hshape & Hcount).
  split; [exact Hshape|]. split; [exact Hcount|]. intros p.
  destruct (Hle p) as (Hrow & Hcol & Hval & _).
  split; [exact Hrow|]. split; [exact Hcol|exact Hval].
Qed.

Definition playSolveSet : list operation := [OpPlayMove 0 1 3; OpSolve; OpSet (0, 0) 4].

Lemma values_are_final_after_solving :
  cell_value (deref (performAll playSolveSet (NewSudoku fiveAtOrigin).1) (0, 0))
  = cell_value (deref (NewSudoku fiveAtOrigin).1 (0, 0)).
Proof.
  destruct (values_are_final (NewSudoku fiveAtOrigin).1 playSolveSet) as (_ & _ & Hcells).
  destruct (Hcells (0, 0)) as (_ & _ & Hvalue). apply Hvalue.
  vm_compute. discriminate.
Defined.

(** The grids a program can reach through the constructor, [PlayMove]
    and [Solve], whatever these return. *)
Inductive reachable : Sudoku -> Prop :=
  | reach_NewSudoku (b : list (list Z)) : reachable (NewSudoku b).1
  | reach_PlayMove (s : Sudoku) (row col value : Z) :
      reachable s -> reachable (PlayMove row col value s).1
  | reach_Solve (s : Sudoku) : reachable s -> reachable (Solve s).1.

Lemma reachable_wellFormed (s : Sudoku) : reachable s -> wellFormed s.
Proof.
  induction 1 as [b|s row col value _ IH|s _ IH].
  - apply wellFormed_NewSudoku.
  - apply wellFormed_PlayMove. exact IH.
  - pose proof (Solve_spec s) as Hfuel. destruct (Solve s) as [s' r].
    eapply wellFormed_Solve_fuel; [exact Hfuel|exact IH].
Qed.

(** The grid is never in an illegal position.  On every grid reached
    through [NewSudoku], [PlayMove] and [Solve], failed calls included,
    the board is 9 by 9, every cell carries its coordinates, a set cell
    holds a value between 1 and 9 and has no candidate, no two cells
    that share a row, a column or a square hold the same value, and the
    value of a set cell is a candidate of no cell that shares one. *)
Theorem reachable_grids_are_legal (s : Sudoku) :
  reachable s ->
  shape s = replicate 9 9%nat /\
  forall p, inb p ->
    cell_row (deref s p) = p.1 /\ cell_col (deref s p) = p.2 /\
    (cell_value (deref s p) <> 0 ->
     1 <= cell_value (deref s p) <= 9 /\ Cell_Moves (deref s p) = [] /\
     forall q, inb q -> q <> p -> sees p q ->
       cell_value (deref s q) <> cell_value (deref s p) /\
       Cell_CanPlay (deref s q) (cell_value (deref s p)) = Ok false).
Proof.
  intros Hr. destruct (reachable_wellFormed s Hr) as (Hshape & Hlab & _ & Hc1 & Hc2).
  split; [exact Hshape|]. intros p Hp. destruct (Hlab p Hp) as [Hrow Hcol].
  split; [exact Hrow|]. split; [exact Hcol|]. intros Hset.
  destruct (Hc1 p Hp Hset) as [Hval Hmoves]. split; [exact Hval|].
  split; [unfold Cell_Moves; rewrite Hmoves; reflexivity|].
  intros q Hq Hne Hsees. destruct (Hc2 p q Hp Hq (not_eq_sym Hne) Hsees Hset) as [H1 H2].
  split; [exact H1|]. unfold Cell_CanPlay. rewrite Moves_Contains_in by exact Hval.
  rewrite H2. reflexivity.
Qed.

Lemma reachable_grids_are_legal_after_a_refused_move :
  shape (PlayMove 0 1 5 (NewSudoku fiveAtOrigin).1).1 = replicate 9 9%nat /\
  forall p, inb p ->
    cell_row (deref (PlayMove 0 1 5 (NewSudoku fiveAtOrigin).1).1 p) = p.1 /\
    cell_col (deref (PlayMove 0 1 5 (NewSudoku fiveAtOrigin).1).1 p) = p.2 /\
    (cell_value (deref (PlayMove 0 1 5 (NewSudoku fiveAtOrigin).1).1 p) <> 0 ->
     1 <= cell_value (deref (PlayMove 0 1 5 (NewSudoku fiveAtOrigin).1).1 p) <= 9 /\
     Cell_Moves (deref (PlayMove 0 1 5 (NewSudoku fiveAtOrigin).1).1 p) = [] /\
     forall q, inb q -> q <> p -> sees p q ->
       cell_value (deref (PlayMove 0 1 5 (NewSudoku fiveAtOrigin).1).1 q)
       <> cell_value (deref (PlayMove 0 1 5 (NewSudoku fiveAtOrigin).1).1 p) /\
       Cell_CanPlay (deref (PlayMove 0 1 5 (NewSudoku fiveAtOrigin).1).1 q)
                    (cell_value (deref (PlayMove 0 1 5 (NewSudoku fiveAtOrigin).1).1 p))
       = Ok false).
Proof.
  apply (reachable_grids_are_legal (PlayMove 0 1 5 (NewSudoku fiveAtOrigin).1).1).
  apply reach_PlayMove, reach_NewSudoku.
Defined.

(** ** sudoku.go: Solve *)

(** A solved grid with one cell left out. *)
Definition lastCell : list (list Z) :=
  [[2;6;1;9;8;5;7;4;3];
   [7;9;8;4;1;3;5;2;6];
   [4;5;3;6;2;7;9;8;0];
   [5;1;7;8;3;2;6;9;4];
   [9;2;6;5;4;1;3;7;8];
   [8;3;4;7;6;9;1;5;2];
   [6;8;5;1;9;4;2;3;7];
   [1;7;2;3;5;8;4;6;9];
   [3;4;9;2;7;6;8;1;5]].

(** [Solve] is sound: when it returns nil on the grid that [NewSudoku]
    made of a puzzle, every cell holds a value between 1 and 9, no two
    cells that share a row, a column or a square hold the same value,
    and every clue of the puzzle is in its cell. *)
Theorem Solve_nil_is_a_solution (b : list (list Z)) (s s' : Sudoku) :
  NewSudoku b = (s, Ok tt) -> Solve s = (s', Ok tt) ->
  (forall p, inb p ->
     1 <= cell_value (deref s' p) <= 9 /\
     forall q, inb q -> q <> p -> sees p q ->
       cell_value (deref s' q) <> cell_value (deref s' p)) /\
  (forall row col, 0 <= row <= 8 -> 0 <= col <= 8 -> clueAt b row col <> 0 ->
     cell_value (boardAt s' row col) = clueAt b row col).
Proof. intros Hnew Hsolve. exact (Solve_sound b s s' Hnew Hsolve). Qed.

Lemma Solve_nil_is_a_solution_lastCell :
  (forall p, inb p ->
     1 <= cell_value (deref (Solve (NewSudoku lastCell).1).1 p) <= 9 /\
     forall q, inb q -> q <> p -> sees p q ->
       cell_value (deref (Solve (NewSudoku lastCell).1).1 q)
       <> cell_value (deref (Solve (NewSudoku lastCell).1).1 p)) /\
  (forall row col, 0 <= row <= 8 -> 0 <= col <= 8 -> clueAt lastCell row col <> 0 ->
     cell_value (boardAt (Solve (NewSudoku lastCell).1).1 row col) = clueAt lastCell row col).
Proof.
  apply (Solve_nil_is_a_solution lastCell (NewSudoku lastCell).1
           (Solve (NewSudoku lastCell).1).1).
  - vm_compute. reflexivity.
  - vm_compute. reflexivity.
Defined.

(** ** Passes that report no change leave the grid alone *)

(** [m] returns a counter that is at least [moves]; when the counter
    comes back as it was the grid is as it was; and [m] does not fail
    with the error of [Solve] itself. *)
Definition quiet (m : M Z) (moves : Z) : Prop :=
  forall s,
    match m s with
    | (s', Ok moves') => moves <= moves' /\ (moves' = moves -> s' = s)
    | (_, Err e) => e <> NoSolutionFound
    | (_, Panic) => True
    end.

Lemma quiet_ret (moves : Z) : quiet (ret moves) moves.
Proof. intros s. simpl. split; [lia|reflexivity]. Qed.

Lemma quiet_bind_read {A : Type} (m : M A) (f : A -> M Z) (moves : Z) :
  reader m -> noerr m -> (forall a, quiet (f a) moves) -> quiet (bind m f) moves.
Proof.
  intros Hm Hne Hf s. unfold bind. pose proof (reader_eq m s Hm) as Hs. specialize (Hne s).
  destruct (m s) as [s1 [a|e|]]; simpl in *.
  - subst s1. apply Hf.
  - exfalso. apply (Hne e). reflexivity.
  - exact I.
Qed.

Lemma quiet_bind (m : M Z) (f : Z -> M Z) (moves : Z) :
  quiet m moves -> (forall k, quiet (f k) k) -> quiet (bind m f) moves.
Proof.
  intros Hm Hf s. unfold bind. specialize (Hm s).
  destruct (m s) as [s1 [k|e|]]; [|exact Hm|exact I].
  specialize (Hf k s1). destruct (f k s1) as [s2 [k'|e|]]; [|exact Hf|exact I].
  destruct Hm as [H1 H2], Hf as [H3 H4]. split; [lia|]. intros Hk'.
  assert (Hk : k = moves) by lia. rewrite H4 by lia. apply H2. exact Hk.
Qed.

Lemma quiet_forM {X : Type} (l : list X) (moves : Z) (body : Z -> X -> M Z) :
  (forall k x, x ∈ l -> quiet (body k x) k) -> quiet (forM l moves body) moves.
Proof.
  revert moves. induction l as [|x l IH]; intros moves Hb; simpl.
  - apply quiet_ret.
  - apply quiet_bind.
    + apply Hb. constructor.
    + intros k. apply IH. intros k' y Hy. apply Hb. constructor. exact Hy.
Qed.

Lemma noerr_load (p : CellPtr) : noerr (load p).
Proof. intros s e. discriminate. Qed.

Lemma noerr_first (group : Cells) : noerr (first group).
Proof. intros s e. destruct group; discriminate. Qed.

Lemma noerr_UnsetOnly (c : Cells) : noerr (Cells_UnsetOnly c).
Proof. apply noerr_reader_spec. intros s. eexists. apply Cells_UnsetOnly_spec. Qed.

Lemma noerr_RemainingMoves (c : Cells) : noerr (Cells_RemainingMoves c).
Proof. apply noerr_reader_spec. intros s. eexists. apply Cells_RemainingMoves_spec. Qed.

Lemma noerr_Excluding (c other : Cells) : noerr (Cells_Excluding c other).
Proof. intros s e. discriminate. Qed.

Lemma noerr_UniqueRows (c : Cells) : noerr (Cells_UniqueRows c).
Proof. intros s e. discriminate. Qed.

Lemma noerr_UniqueCols (c : Cells) : noerr (Cells_UniqueCols c).
Proof. intros s e. discriminate. Qed.

Lemma PlayMove_error (row col value : Z) (s s' : Sudoku) (e : error) :
  PlayMove row col value s = (s', Err e) -> validation e \/ exists r c, e = NoMovesLeft r c.
Proof.
  rewrite PlayMove_unfold. destruct (refusal s row col value) as [e0|] eqn:Hr.
  - intros H. injection H as _ <-. left. eapply refusal_validation. exact Hr.
  - cbv zeta. destruct (List.find _ _) as [p|]; simpl; [|discriminate].
    intros H. injection H as _ <-. right. eauto.
Qed.

Lemma quiet_after_PlayMove (row col value moves : Z) :
  quiet (run PlayMove row col value ; ret (moves + 1)) moves.
Proof.
  intros s. unfold bind. pose proof (PlayMove_error row col value s) as H.
  destruct (PlayMove row col value s) as [s1 [[]|e|]]; [| |exact I].
  - simpl. split; lia.
  - destruct (H s1 e eq_refl) as [Hv|(r & c & ->)]; [|discriminate].
    intros ->. exact Hv.
Qed.

Lemma quiet_eliminate_loop (c : Cells) (value changes : Z) :
  quiet
    (forM c changes (fun changes p =>
       do changed <- call p (fun cell => Cell_EliminateMove cell value) ;
       ret (if changed then changes + 1 else changes)))
    changes.
Proof.
  apply quiet_forM. intros k p _ s. unfold bind, call.
  destruct (Z.le_gt_cases 1 value) as [H1|H1];
    [destruct (Z.le_gt_cases value 9) as [H2|H2]|].
  - rewrite Cell_EliminateMove_in by lia. simpl.
    destruct (has (cell_moves (deref s p)) value) eqn:Hh; [split; lia|].
    split; [lia|]. intros _. rewrite clear_absent by (lia || exact Hh). apply store_deref.
  - rewrite Cell_EliminateMove_out by lia. exact I.
  - rewrite Cell_EliminateMove_out by lia. exact I.
Qed.

Lemma quiet_after_elimination (c : Cells) (value moves : Z) :
  quiet
    (do changed <- Cells_EliminateMove c value ;
     ret (if changed >? 0 then moves + 1 else moves))
    moves.
Proof.
  intros s. unfold bind. pose proof (quiet_eliminate_loop c value 0 s) as H.
  fold (Cells_EliminateMove c value) in H.
  destruct (Cells_EliminateMove c value s) as [s1 [n|e|]]; [|exact H|exact I].
  simpl. destruct H as [H1 H2]. destruct (Z.gtb_spec n 0); [split; lia|].
  split; [lia|]. intros _. apply H2. lia.
Qed.

Lemma quiet_exclusion (otherCells : Cells) (value moves : Z) :
  quiet
    (do excludable <- Cells_FindMove otherCells value ;
     if len excludable >? 0 then
       run Cells_EliminateMove excludable value ;
       ret (moves + 1)
     else ret moves)
    moves.
Proof.
  apply quiet_bind_read; [apply reader_FindMove|apply noerr_FindMove|].
  intros excludable. destruct (len excludable >? 0); [|apply quiet_ret].
  intros s. unfold bind. pose proof (noerr_EliminateMove excludable value s) as Hne.
  destruct (Cells_EliminateMove excludable value s) as [s1 [n|e|]]; [| |exact I].
  - simpl. split; lia.
  - exfalso. apply (Hne e). reflexivity.
Qed.

Ltac quiet_step :=
  match goal with
  | |- quiet (ret _) _ => apply quiet_ret
  | |- quiet (bind (Cells_EliminateMove _ _) _) _ => apply quiet_after_elimination
  | |- quiet (bind (PlayMove _ _ _) _) _ => apply quiet_after_PlayMove
  | |- quiet (bind (load _) _) _ =>
      apply quiet_bind_read; [apply reader_load|apply noerr_load|intros]
  | |- quiet (bind (first _) _) _ =>
      apply quiet_bind_read; [apply reader_first|apply noerr_first|intros]
  | |- quiet (bind (Cells_FindMove _ _) _) _ =>
      apply quiet_bind_read; [apply reader_FindMove|apply noerr_FindMove|intros]
  | |- quiet (bind (Cells_UnsetOnly _) _) _ =>
      apply quiet_bind_read; [apply reader_UnsetOnly|apply noerr_UnsetOnly|intros]
  | |- quiet (bind (Cells_RemainingMoves _) _) _ =>
      apply quiet_bind_read; [apply reader_RemainingMoves|apply noerr_RemainingMoves|intros]
  | |- quiet (bind (Cells_Excluding _ _) _) _ =>
      apply quiet_bind_read; [apply reader_Excluding|apply noerr_Excluding|intros]
  | |- quiet (bind (Cells_UniqueRows _) _) _ =>
      apply quiet_bind_read; [apply reader_UniqueRows|apply noerr_UniqueRows|intros]
  | |- quiet (bind (Cells_UniqueCols _) _) _ =>
      apply quiet_bind_read; [apply reader_UniqueCols|apply noerr_UniqueCols|intros]
  | |- quiet (bind _ _) _ => apply quiet_bind; [|intros]
  | |- quiet (forM _ _ _) _ => apply quiet_forM; intros
  | |- quiet (match ?x with _ => _ end) _ => destruct x
  | |- quiet (let _ := _ in _) _ => cbv zeta
  end.

Lemma quiet_nakedSingles (moves : Z) : quiet (nakedSingles moves) moves.
Proof. unfold nakedSingles. repeat quiet_step. Qed.

Lemma quiet_hiddenSingles (groups : list Cells) (moves : Z) :
  quiet (hiddenSingles groups moves) moves.
Proof. unfold hiddenSingles. repeat quiet_step. Qed.

Lemma quiet_boxElimination (moves : Z) : quiet (boxElimination moves) moves.
Proof. unfold boxElimination. repeat quiet_step. Qed.

Lemma quiet_rowElimination (moves : Z) : quiet (rowElimination moves) moves.
Proof. unfold rowElimination. repeat quiet_step. Qed.

Lemma quiet_colElimination (moves : Z) : quiet (colElimination moves) moves.
Proof. unfold colElimination. repeat quiet_step. Qed.

Lemma quiet_excludeSubset (group subset : Cells) (moves : Z) :
  quiet (excludeSubset group subset moves) moves.
Proof.
  unfold excludeSubset.
  destruct ((len subset <? 2) || (len subset =? len group)); [apply quiet_ret|].
  apply quiet_bind_read; [apply reader_RemainingMoves|apply noerr_RemainingMoves|].
  intros union. cbv zeta.
  destruct (len subset =? len (Moves_Slice union)); [|apply quiet_ret].
  apply quiet_bind_read; [apply reader_Excluding|apply noerr_Excluding|].
  intros otherCells. apply quiet_forM. intros k value _. apply quiet_exclusion.
Qed.

Lemma quiet_subsetExclusion (moves : Z) : quiet (subsetExclusion moves) moves.
Proof.
  unfold subsetExclusion. apply quiet_forM. intros k group _.
  apply quiet_bind_read; [apply reader_UnsetOnly|apply noerr_UnsetOnly|].
  intros unset. apply quiet_forM. intros k' subset _. apply quiet_excludeSubset.
Qed.

Lemma quiet_deductions (moves : Z) : quiet (deductions moves) moves.
Proof.
  unfold deductions.
  apply quiet_bind; [apply quiet_nakedSingles|intros].
  apply quiet_bind; [apply quiet_hiddenSingles|intros].
  apply quiet_bind; [apply quiet_hiddenSingles|intros].
  apply quiet_bind; [apply quiet_hiddenSingles|intros].
  apply quiet_bind; [apply quiet_boxElimination|intros].
  apply quiet_bind; [apply quiet_rowElimination|intros].
  apply quiet_colElimination.
Qed.

(** The grid on which an activation gives up is the grid it started on. *)
Lemma Solve_call_stuck (s s' : Sudoku) :
  Solve_call s = (s', Err NoSolutionFound) ->
  s' = s /\ unsetCells s <> [] /\
  deductions 0 s = (s, Ok 0) /\ subsetExclusion 0 s = (s, Ok 0).
Proof.
  rewrite Solve_call_cases. pose proof (quiet_deductions 0 s) as Hd.
  destruct (deductions 0 s) as [s1 [moves|e|]]; [| |discriminate].
  - destruct Hd as [Hd1 Hd2]. destruct (unsetCells s1) as [|p rest] eqn:Hu; [discriminate|].
    destruct (Z.gtb_spec moves 0) as [Hpos|Hpos]; [discriminate|].
    assert (Hm : moves = 0) by lia. subst moves. specialize (Hd2 eq_refl). subst s1.
    pose proof (quiet_subsetExclusion 0 s) as Hx.
    destruct (subsetExclusion 0 s) as [s2 [moves'|e|]]; [| |discriminate].
    + destruct Hx as [Hx1 Hx2]. destruct (Z.gtb_spec moves' 0) as [Hpos'|Hpos'];
        [discriminate|].
      assert (Hm : moves' = 0) by lia. subst moves'. specialize (Hx2 eq_refl). subst s2.
      intros H. apply (f_equal fst) in H. cbn [fst] in H. subst s'.
      split; [reflexivity|]. split; [rewrite Hu; discriminate|]. split; reflexivity.
    + intros H. exfalso. apply Hx. congruence.
  - intros H. exfalso. apply Hd. congruence.
Qed.

Lemma Solve_fuel_stuck (fuel : nat) (s s' : Sudoku) :
  Solve_fuel fuel s = Some (s', Err NoSolutionFound) ->
  Solve_call s' = (s', Err NoSolutionFound).
Proof.
  revert s. induction fuel as [|fuel IH]; intros s; simpl; [discriminate|].
  destruct (Solve_call s) as [s1 [[|]|e|]] eqn:Hcall.
  - apply IH.
  - discriminate.
  - intros H. assert (Hs : s1 = s') by congruence. assert (He : e = NoSolutionFound) by congruence.
    subst s1 e. destruct (Solve_call_stuck s s' Hcall) as [-> _]. exact Hcall.
  - discriminate.
Qed.

(** [Solve] gives up at a fixed point of its techniques.  When [Solve]
    returns "No solution found", the grid it leaves has an unset cell,
    the deductions and the subset pass run on it make no change and
    leave it as it is, and [Solve] called on it again returns the same
    error without touching it. *)
Theorem Solve_gives_up_at_a_fixed_point (s s' : Sudoku) :
  Solve s = (s', Err NoSolutionFound) ->
  unsetCells s' <> [] /\
  deductions 0 s' = (s', Ok 0) /\
  subsetExclusion 0 s' = (s', Ok 0) /\
  Solve s' = (s', Err NoSolutionFound).
Proof.
  intros Hsolve. pose proof (Solve_spec s) as Hfuel. rewrite Hsolve in Hfuel.
  apply Solve_fuel_stuck in Hfuel.
  destruct (Solve_call_stuck s' s' Hfuel) as (_ & Hu & Hd & Hx).
  split; [exact Hu|]. split; [exact Hd|]. split; [exact Hx|].
  rewrite Solve_unfold, Hfuel. reflexivity.
Qed.

Lemma Solve_gives_up_at_a_fixed_point_twoSolutions :
  unsetCells (Solve (NewSudoku twoSolutions).1).1 <> [] /\
  deductions 0 (Solve (NewSudoku twoSolutions).1).1
  = ((Solve (NewSudoku twoSolutions).1).1, Ok 0) /\
  subsetExclusion 0 (Solve (NewSudoku twoSolutions).1).1
  = ((Solve (NewSudoku twoSolutions).1).1, Ok 0) /\
  Solve (Solve (NewSudoku twoSolutions).1).1
  = ((Solve (NewSudoku twoSolutions).1).1, Err NoSolutionFound).
Proof.
  apply (Solve_gives_up_at_a_fixed_point (NewSudoku twoSolutions).1).
  vm_compute. reflexivity.
Defined.

(** ** Grids without candidates *)

(** No cell of the grid has a candidate. *)
Definition exhausted (s : Sudoku) : Prop :=
  forall p, inb p -> cell_moves (deref s p) = empty.

Definition exhaustedb (s : Sudoku) : bool :=
  List.forallb (fun p => cell_moves (deref s p) =? empty) Sudoku_Cells.

Lemma exhaustedb_true (s : Sudoku) : exhaustedb s = true -> exhausted s.
Proof.
  unfold exhaustedb. rewrite List.forallb_forall. intros H p Hp.
  apply Z.eqb_eq, H, list_elem_of_In, elem_of_Sudoku_Cells. exact Hp.
Qed.

Lemma forM_skip {X A : Type} (l : list X) (acc : A) (body : A -> X -> M A) (s : Sudoku) :
  (forall x, x ∈ l -> body acc x s = (s, Ok acc)) -> forM l acc body s = (s, Ok acc).
Proof.
  induction l as [|x l IH]; intros H; simpl; [reflexivity|].
  unfold bind. rewrite H by constructor. apply IH. intros y Hy. apply H. constructor. exact Hy.
Qed.

Lemma union_exhausted (s : Sudoku) (c : Cells) :
  exhausted s -> Forall inb c -> union s c = empty.
Proof.
  unfold union. intros He Hc. induction Hc as [|p c Hp Hc IH]; simpl; [reflexivity|].
  rewrite He by exact Hp. exact IH.
Qed.

Lemma rows_inb (g : Cells) : g ∈ Rows -> Forall inb g.
Proof. intros Hg. apply group_cells. unfold Groups. rewrite !elem_of_app. auto. Qed.

Lemma cols_inb (g : Cells) : g ∈ Cols -> Forall inb g.
Proof. intros Hg. apply group_cells. unfold Groups. rewrite !elem_of_app. auto. Qed.

Lemma squares_inb (g : Cells) : g ∈ Squares -> Forall inb g.
Proof. intros Hg. apply group_cells. unfold Groups. rewrite !elem_of_app. auto. Qed.

Lemma nakedSingles_exhausted (s : Sudoku) (moves : Z) :
  exhausted s -> nakedSingles moves s = (s, Ok moves).
Proof.
  intros He. unfold nakedSingles. apply forM_skip. intros p Hp%elem_of_Sudoku_Cells.
  rewrite bind_load. unfold Cell_Moves. rewrite He by exact Hp. reflexivity.
Qed.

Lemma hiddenSingles_exhausted (s : Sudoku) (groups : list Cells) (moves : Z) :
  exhausted s -> (forall g, g ∈ groups -> Forall inb g) ->
  hiddenSingles groups moves s = (s, Ok moves).
Proof.
  intros He Hg. unfold hiddenSingles. apply forM_skip. intros g Hin.
  rewrite (bind_unit _ _ _ _ (Cells_RemainingMoves_spec _ _)).
  rewrite union_exhausted by auto. reflexivity.
Qed.

Lemma boxElimination_exhausted (s : Sudoku) (moves : Z) :
  exhausted s -> boxElimination moves s = (s, Ok moves).
Proof.
  intros He. unfold boxElimination. apply forM_skip. intros g Hin.
  rewrite (bind_unit _ _ _ _ (Cells_RemainingMoves_spec _ _)).
  rewrite union_exhausted by auto using squares_inb. reflexivity.
Qed.

Lemma rowElimination_exhausted (s : Sudoku) (moves : Z) :
  exhausted s -> rowElimination moves s = (s, Ok moves).
Proof.
  intros He. unfold rowElimination. apply forM_skip. intros g Hin.
  rewrite (bind_unit _ _ _ _ (Cells_RemainingMoves_spec _ _)).
  rewrite union_exhausted by auto using rows_inb. reflexivity.
Qed.

Lemma colElimination_exhausted (s : Sudoku) (moves : Z) :
  exhausted s -> colElimination moves s = (s, Ok moves).
Proof.
  intros He. unfold colElimination. apply forM_skip. intros g Hin.
  rewrite (bind_unit _ _ _ _ (Cells_RemainingMoves_spec _ _)).
  rewrite union_exhausted by auto using cols_inb. reflexivity.
Qed.

Lemma deductions_exhausted (s : Sudoku) (moves : Z) :
  exhausted s -> deductions moves s = (s, Ok moves).
Proof.
  intros He. unfold deductions.
  rewrite (bind_unit _ _ _ _ (nakedSingles_exhausted s moves He)).
  rewrite (bind_unit _ _ _ _ (hiddenSingles_exhausted s Squares moves He squares_inb)).
  rewrite (bind_unit _ _ _ _ (hiddenSingles_exhausted s Rows moves He rows_inb)).
  rewrite (bind_unit _ _ _ _ (hiddenSingles_exhausted s Cols moves He cols_inb)).
  rewrite (bind_unit _ _ _ _ (boxElimination_exhausted s moves He)).
  rewrite (bind_unit _ _ _ _ (rowElimination_exhausted s moves He)).
  apply colElimination_exhausted. exact He.
Qed.

Lemma subsetExclusion_exhausted (s : Sudoku) (moves : Z) :
  exhausted s -> subsetExclusion moves s = (s, Ok moves).
Proof.
  intros He. unfold subsetExclusion. apply forM_skip. intros g Hg.
  rewrite (bind_unit _ _ _ _ (Cells_UnsetOnly_spec _ _)).
  apply forM_skip. intros subset Hsub%elem_of_PowerSet.
  unfold excludeSubset.
  destruct ((len subset <? 2) || (len subset =? len _)) eqn:Hlen; [reflexivity|].
  rewrite (bind_unit _ _ _ _ (Cells_RemainingMoves_spec _ _)).
  rewrite union_exhausted; [|exact He|].
  - cbv zeta. change (Moves_Slice empty) with (@nil Z).
    apply orb_false_iff in Hlen as [Hlen%Z.ltb_ge _].
    destruct (Z.eqb_spec (len subset) (len (@nil Z))) as [Heq|_]; [|reflexivity].
    unfold len in Heq, Hlen. simpl in Heq. lia.
  - apply Forall_forall. intros p Hp.
    pose proof (sublist_elem_of _ _ p Hsub Hp) as Hin.
    apply list_elem_of_In, List.filter_In in Hin as [Hin%list_elem_of_In _].
    destruct (group_cells g Hg) as (_ & _ & Hall). rewrite Forall_forall in Hall. auto.
Qed.

Lemma unsetCells_nil (s : Sudoku) : unsetCells s = [] <-> complete s.
Proof.
  unfold unsetCells, complete. split.
  - intros H p Hp. apply Z.eqb_neq. revert p Hp.
    intros p Hp%elem_of_Sudoku_Cells. revert p Hp. apply filter_nil. exact H.
  - intros H. apply filter_nil. intros p Hp%elem_of_Sudoku_Cells. apply Z.eqb_neq, H, Hp.
Qed.

Lemma Solve_exhausted (s : Sudoku) :
  exhausted s ->
  Solve s = (s, match unsetCells s with [] => Ok tt | _ :: _ => Err NoSolutionFound end).
Proof.
  intros He. rewrite Solve_cases, (deductions_exhausted s 0 He).
  destruct (unsetCells s); [reflexivity|].
  change (0 >? 0) with false. cbv iota.
  rewrite (subsetExclusion_exhausted s 0 He). reflexivity.
Qed.

(** On a grid where no cell has a candidate, [Solve] changes nothing:
    it returns nil when every cell holds a value and "No solution
    found" when a cell is unset. *)
Theorem Solve_on_a_grid_without_candidates (s : Sudoku) :
  (forall p, inb p -> cell_moves (deref s p) = empty) ->
  (complete s -> Solve s = (s, Ok tt)) /\
  (~ complete s -> Solve s = (s, Err NoSolutionFound)).
Proof.
  intros He. pose proof (Solve_exhausted s He) as Hs.
  pose proof (unsetCells_nil s) as Hu. destruct (unsetCells s) as [|p rest].
  - split; [intros _; exact Hs|]. intros Hn. exfalso. apply Hn, Hu. reflexivity.
  - split; [|intros _; exact Hs]. intros Hc. apply Hu in Hc. discriminate.
Qed.

(** The zero value of the [Sudoku] struct: 81 cells without value and
    without candidates. *)
Definition zeroSudoku : Sudoku := mkSudoku (replicate 9 (replicate 9 zeroCell)).

Lemma Solve_on_a_grid_without_candidates_zero :
  (complete zeroSudoku -> Solve zeroSudoku = (zeroSudoku, Ok tt)) /\
  (~ complete zeroSudoku -> Solve zeroSudoku = (zeroSudoku, Err NoSolutionFound)).
Proof.
  apply (Solve_on_a_grid_without_candidates zeroSudoku).
  apply exhaustedb_true. vm_compute. reflexivity.
Defined.

(** A solved grid is final.  When [Solve] has returned nil on a grid
    reached through [NewSudoku], [PlayMove] and [Solve], a further
    [Solve] returns nil and every [PlayMove] is refused by one of the
    checks, both leaving the grid as it is. *)
Theorem solved_grid_is_final (s s' : Sudoku) :
  reachable s -> Solve s = (s', Ok tt) ->
  Solve s' = (s', Ok tt) /\
  forall row col value, exists e, PlayMove row col value s' = (s', Err e) /\ validation e.
Proof.
  intros Hr Hsolve. pose proof (reach_Solve s Hr) as Hr'. rewrite Hsolve in Hr'. simpl in Hr'.
  destruct (reachable_wellFormed s' Hr') as (_ & _ & _ & Hc1 & _).
  pose proof (Solve_spec s) as Hfuel. rewrite Hsolve in Hfuel.
  apply Solve_fuel_complete in Hfuel.
  assert (He : exhausted s').
  { intros p Hp. apply Hc1; [exact Hp|apply Hfuel; exact Hp]. }
  split.
  - rewrite (Solve_exhausted s' He), (proj2 (unsetCells_nil s') Hfuel). reflexivity.
  - intros row col value. rewrite PlayMove_unfold.
    destruct (refusal s' row col value) as [e|] eqn:Href.
    + exists e. split; [reflexivity|]. eapply refusal_validation. exact Href.
    + exfalso. apply refusal_None in Href as (Hrow & Hcol & _ & H0 & _).
      apply (Hfuel (row, col)); [split; simpl; lia|exact H0].
Qed.

Lemma solved_grid_is_final_lastCell :
  Solve (Solve (NewSudoku lastCell).1).1 = ((Solve (NewSudoku lastCell).1).1, Ok tt) /\
  forall row col value, exists e,
    PlayMove row col value (Solve (NewSudoku lastCell).1).1
    = ((Solve (NewSudoku lastCell).1).1, Err e) /\ validation e.
Proof.
  apply (solved_grid_is_final (NewSudoku lastCell).1).
  - apply reach_NewSudoku.
  - vm_compute. reflexivity.
Defined.

(** ** sudoku.go: NewSudoku *)

(** The clue of a cell. *)
Definition clue (b : list (list Z)) (p : CellPtr) : Z := clueAt b p.1 p.2.

(** No cell that shares a row, a column or a square with [p] has the
    clue [v]. *)
Definition free (b : list (list Z)) (p : CellPtr) (v : Z) : Prop :=
  forall q, inb q -> sees p q -> clue b q <> v.

(** The clues are 0 or a value between 1 and 9, no two cells that see
    each other have the same clue, and every cell without clue is left
    a value. *)
Definition legal (b : list (list Z)) : Prop :=
  (forall p, inb p -> 0 <= clue b p <= 9) /\
  (forall p q, inb p -> inb q -> p <> q -> sees p q -> clue b p <> 0 ->
     clue b q <> clue b p) /\
  (forall p, inb p -> clue b p = 0 -> exists v, 1 <= v <= 9 /\ free b p v).

(** The grid follows the clues: a set cell holds its clue, and a
    candidate is missing from an unset cell only where a cell that sees
    it holds the value. *)
Definition tracks (b : list (list Z)) (s : Sudoku) : Prop :=
  (forall p, inb p -> cell_value (deref s p) <> 0 -> cell_value (deref s p) = clue b p) /\
  (forall p v, inb p -> 1 <= v <= 9 -> cell_value (deref s p) = 0 ->
     has (cell_moves (deref s p)) v = false ->
     exists q, inb q /\ q <> p /\ sees p q /\ cell_value (deref s q) = v).

(** No unset cell of the grid is without candidate. *)
Definition nodead (s : Sudoku) : Prop :=
  forall p, inb p -> cell_value (deref s p) = 0 -> cell_moves (deref s p) <> empty.

(** The body of the loops of [NewSudoku], on one cell. *)
Definition placeClue (b : list (list Z)) (p : CellPtr) : M unit :=
  let value := clueAt b p.1 p.2 in
  if negb (value =? 0) then PlayMove p.1 p.2 value else ret tt.

Lemma sees_sym (p q : CellPtr) : sees p q -> sees q p.
Proof.
  unfold sees. intros [H|[H|[H1 H2]]];
    [left; congruence|right; left; congruence|right; right; split; congruence].
Qed.

Lemma has_full (v : Z) : 1 <= v <= 9 -> has full v = true.
Proof.
  intros Hv.
  assert (H : v = 1 \/ v = 2 \/ v = 3 \/ v = 4 \/ v = 5 \/ v = 6 \/ v = 7 \/ v = 8 \/ v = 9)
    by lia.
  repeat (destruct H as [->|H]; [reflexivity|]). subst v. reflexivity.
Qed.

Lemma cell_value_clearIf (f : bool) (v : Z) (c : Cell) :
  cell_value (clearIf f v c) = cell_value c.
Proof. destruct f; reflexivity. Qed.

Lemma has_clearIf (f : bool) (v w : Z) (c : Cell) :
  1 <= v -> 1 <= w ->
  has (cell_moves (clearIf f v c)) w = has (cell_moves c) w && negb (f && (w =? v)).
Proof.
  intros Hv Hw. destruct f; simpl.
  - unfold clear. cbn [cell_moves]. apply has_ldiff; lia.
  - rewrite andb_true_r. reflexivity.
Qed.

Lemma tracks_blank (b : list (list Z)) : tracks b blank.
Proof.
  split.
  - intros p Hp. rewrite deref_blank, bool_decide_eq_true_2 by exact Hp. simpl. congruence.
  - intros p v Hp Hv _. rewrite deref_blank, bool_decide_eq_true_2 by exact Hp. simpl.
    rewrite has_full by exact Hv. discriminate.
Qed.

Lemma nodead_blank : nodead blank.
Proof.
  intros p Hp _. rewrite deref_blank, bool_decide_eq_true_2 by exact Hp. simpl. discriminate.
Qed.

Lemma tracks_placed (b : list (list Z)) (s : Sudoku) (row col : Z) :
  tracks b s -> accepted s row col (clueAt b row col) ->
  tracks b (placed s row col (clueAt b row col)).
Proof.
  intros [J2 J3] Hacc. pose proof Hacc as (Hr & Hc & Hv & Hunset & _ & _ & _ & Hcan).
  assert (Hvalid : valid s (row, col)) by (eapply has_valid; exact Hcan).
  set (v := clueAt b row col) in *.
  assert (Hkeep : forall q : CellPtr, q <> (row, col) ->
            cell_value (deref (placed s row col v) q) = cell_value (deref s q)).
  { intros q Hq. rewrite deref_placed by exact Hvalid.
    case_decide; [contradiction|]. apply cell_value_clearIf. }
  assert (Hold : forall p w, inb p -> 1 <= w <= 9 -> cell_value (deref s p) = 0 ->
            has (cell_moves (deref s p)) w = false ->
            exists q, inb q /\ q <> p /\ sees p q /\
                      cell_value (deref (placed s row col v) q) = w).
  { intros p w Hp Hw H0 Hh. destruct (J3 p w Hp Hw H0 Hh) as (q & Hq & Hne & Hs & Hval).
    exists q. split; [exact Hq|]. split; [exact Hne|]. split; [exact Hs|].
    rewrite Hkeep; [exact Hval|]. intros ->.
    change (deref s (row, col)) with (boardAt s row col) in Hval. lia. }
  split.
  - intros p Hp. destruct (decide (p = (row, col))) as [->|Hne].
    + rewrite placed_target by exact Hacc. reflexivity.
    + rewrite Hkeep by exact Hne. apply J2. exact Hp.
  - intros p w Hp Hw. destruct (decide (p = (row, col))) as [->|Hne].
    + rewrite placed_target by exact Hacc. simpl. lia.
    + rewrite Hkeep by exact Hne. rewrite deref_placed by exact Hvalid.
      case_decide; [contradiction|].
      rewrite has_clearIf by lia. intros H0 Hh.
      apply andb_false_iff in Hh as [Hh|Hh]; [apply Hold; assumption|].
      apply negb_false_iff, andb_true_iff in Hh as [Hpeer%bool_decide_eq_true Hwv%Z.eqb_eq].
      subst w. exists (row, col). split; [split; simpl; lia|].
      split; [congruence|]. split.
      * apply sees_sym. apply (elem_of_peers row col p Hr Hc Hp). exact Hpeer.
      * rewrite placed_target by exact Hacc. reflexivity.
Qed.

Lemma PlayMove_Ok_placed (row col value : Z) (s s' : Sudoku) :
  PlayMove row col value s = (s', Ok tt) ->
  accepted s row col value /\ s' = placed s row col value /\ nodead s'.
Proof.
  rewrite PlayMove_unfold. destruct (refusal s row col value) eqn:Hr; [discriminate|].
  apply refusal_None in Hr. fold (accepted s row col value) in Hr. cbv zeta.
  destruct (List.find _ _) as [d|] eqn:Hfind; [discriminate|]. simpl.
  intros Heq. apply (f_equal fst) in Heq. cbn [fst] in Heq. subst s'.
  split; [exact Hr|]. split; [reflexivity|].
  intros q Hq Hq0 Hnil. apply List.find_none with (x := q) in Hfind.
  - unfold deadb in Hfind. rewrite Hq0, Hnil in Hfind. discriminate.
  - apply list_elem_of_In, elem_of_Sudoku_Cells. exact Hq.
Qed.

Lemma forM_inv {X : Type} (I : Sudoku -> Prop) (l : list X) (body : unit -> X -> M unit)
    (s s' : Sudoku) :
  (forall x s1 s2, I s1 -> body tt x s1 = (s2, Ok tt) -> I s2) ->
  I s -> forM l tt body s = (s', Ok tt) -> I s'.
Proof.
  intros Hb. revert s. induction l as [|x l IH]; intros s HI; simpl.
  - intros H. apply (f_equal fst) in H. cbn [fst] in H. subst s'. exact HI.
  - unfold bind. destruct (body tt x s) as [s1 [[]|e|]] eqn:Hx; [|discriminate..].
    apply IH. eapply Hb; [exact HI|exact Hx].
Qed.

Lemma NewSudoku_tracks (b : list (list Z)) (s : Sudoku) :
  NewSudoku b = (s, Ok tt) -> tracks b s /\ nodead s.
Proof.
  unfold NewSudoku. apply (forM_inv (fun s => tracks b s /\ nodead s)).
  - intros row s1 s2 HI. apply (forM_inv (fun s => tracks b s /\ nodead s)); [|exact HI].
    intros col sa sb [Ht Hn]. cbv zeta. destruct (negb (clueAt b row col =? 0)).
    + intros Hplay. apply PlayMove_Ok_placed in Hplay as (Hacc & -> & Hdead).
      split; [apply tracks_placed; assumption|exact Hdead].
    + intros H. apply (f_equal fst) in H. cbn [fst] in H. subst sb. split; assumption.
  - split; [apply tracks_blank|apply nodead_blank].
Qed.

Lemma NewSudoku_values (b : list (list Z)) (s : Sudoku) (p : CellPtr) :
  NewSudoku b = (s, Ok tt) -> inb p -> cell_value (deref s p) = clue b p.
Proof.
  intros Hnew Hp. destruct (NewSudoku_tracks b s Hnew) as [[J2 _] _].
  destruct (Z.eq_dec (clue b p) 0) as [H0|H0].
  - destruct (Z.eq_dec (cell_value (deref s p)) 0) as [Hv|Hv]; [congruence|].
    rewrite (J2 p Hp Hv). reflexivity.
  - apply (fills_NewSudoku b s Hnew p.1 p.2); [apply Hp|apply Hp|exact H0].
Qed.

Lemma NewSudoku_candidates (b : list (list Z)) (s : Sudoku) (p : CellPtr) (v : Z) :
  NewSudoku b = (s, Ok tt) -> inb p -> 1 <= v <= 9 ->
  has (cell_moves (deref s p)) v = true <-> clue b p = 0 /\ free b p v.
Proof.
  intros Hnew Hp Hv. destruct (NewSudoku_tracks b s Hnew) as [[J2 J3] _].
  pose proof (wellFormed_NewSudoku b) as Hwf. rewrite Hnew in Hwf. simpl in Hwf.
  destruct Hwf as (_ & _ & _ & Hc1 & Hc2).
  pose proof (fun q Hq => NewSudoku_values b s q Hnew Hq) as Hval.
  split.
  - intros Hh.
    assert (H0 : clue b p = 0).
    { rewrite <- Hval by exact Hp.
      destruct (Z.eq_dec (cell_value (deref s p)) 0) as [|Hne]; [assumption|].
      destruct (Hc1 p Hp Hne) as [_ He]. rewrite He, has_empty in Hh. discriminate. }
    split; [exact H0|]. intros q Hq Hs Hcl.
    destruct (decide (q = p)) as [->|Hne]; [lia|].
    assert (Hset : cell_value (deref s q) <> 0) by (rewrite Hval by exact Hq; lia).
    destruct (Hc2 q p Hq Hp Hne (sees_sym _ _ Hs) Hset) as [_ Hno].
    rewrite Hval, Hcl in Hno by exact Hq. congruence.
  - intros [H0 Hfree]. destruct (has (cell_moves (deref s p)) v) eqn:Hh; [reflexivity|].
    exfalso. rewrite <- Hval in H0 by exact Hp.
    destruct (J3 p v Hp Hv H0 Hh) as (q & Hq & _ & Hs & Hqv).
    apply (Hfree q Hq Hs). rewrite <- Hval by exact Hq. exact Hqv.
Qed.

(** The grid of an accepted puzzle.  When [NewSudoku] returns no
    error, every cell of the grid holds its clue (0 for none), and a
    cell can play a value exactly when it has no clue and no cell that
    shares a row, a column or a square with it has the value as its
    clue. *)
Theorem NewSudoku_grid (b : list (list Z)) (s : Sudoku) (p : CellPtr) :
  NewSudoku b = (s, Ok tt) -> inb p ->
  cell_value (deref s p) = clueAt b p.1 p.2 /\
  forall v, 1 <= v <= 9 ->
    (Cell_CanPlay (deref s p) v = Ok true <->
     clueAt b p.1 p.2 = 0 /\
     forall q, inb q -> sees p q -> clueAt b q.1 q.2 <> v).
Proof.
  intros Hnew Hp. split; [apply NewSudoku_values; assumption|].
  intros v Hv. unfold Cell_CanPlay. rewrite Moves_Contains_in by exact Hv.
  rewrite <- (NewSudoku_candidates b s p v Hnew Hp Hv). split; congruence.
Qed.

Lemma NewSudoku_grid_fiveAtOrigin :
  cell_value (deref (NewSudoku fiveAtOrigin).1 (0, 1)) = clueAt fiveAtOrigin 0 1 /\
  forall v, 1 <= v <= 9 ->
    (Cell_CanPlay (deref (NewSudoku fiveAtOrigin).1 (0, 1)) v = Ok true <->
     clueAt fiveAtOrigin 0 1 = 0 /\
     forall q, inb q -> sees (0, 1) q -> clueAt fiveAtOrigin q.1 q.2 <> v).
Proof.
  apply (NewSudoku_grid fiveAtOrigin (NewSudoku fiveAtOrigin).1 (0, 1)).
  - vm_compute. reflexivity.
  - split; simpl; lia.
Defined.

Lemma forM_app {X A : Type} (l1 l2 : list X) (acc : A) (body : A -> X -> M A) (s : Sudoku) :
  forM (l1 ++ l2) acc body s
  = bind (forM l1 acc body) (fun acc' => forM l2 acc' body) s.
Proof.
  revert acc s. induction l1 as [|x l1 IH]; intros acc s; simpl; [reflexivity|].
  unfold bind. destruct (body acc x s) as [s1 [a|e|]]; [|reflexivity..].
  rewrite IH. reflexivity.
Qed.

Lemma forM_row (f : CellPtr -> M unit) (row : Z) (cols : list Z) (s : Sudoku) :
  forM (List.map (fun col => Sudoku_Cell row col) cols) tt (fun _ p => f p) s
  = forM cols tt (fun _ col => f (row, col)) s.
Proof.
  revert s. induction cols as [|col cols IH]; intros s; simpl; [reflexivity|].
  unfold bind. unfold Sudoku_Cell at 1. destruct (f (row, col) s) as [s1 [[]|e|]];
    [apply IH|reflexivity..].
Qed.

Lemma forM_grid (f : CellPtr -> M unit) (rows cols : list Z) (s : Sudoku) :
  forM rows tt (fun _ row => forM cols tt (fun _ col => f (row, col))) s
  = forM (List.flat_map (fun row => List.map (fun col => Sudoku_Cell row col) cols) rows)
         tt (fun _ p => f p) s.
Proof.
  revert s. induction rows as [|row rows IH]; intros s; simpl; [reflexivity|].
  rewrite forM_app. unfold bind. rewrite forM_row.
  destruct (forM cols tt _ s) as [s1 [[]|e|]]; [apply IH|reflexivity..].
Qed.

Lemma NewSudoku_cells (b : list (list Z)) :
  NewSudoku b = forM Sudoku_Cells tt (fun _ p => placeClue b p) blank.
Proof.
  unfold NewSudoku, Sudoku_Cells, Range.
  change (8 - 0 + 1) with 9.
  rewrite <- (forM_grid (placeClue b)). reflexivity.
Qed.

Lemma find_none_intro {X : Type} (f : X -> bool) (l : list X) :
  (forall x, x ∈ l -> f x = false) -> List.find f l = None.
Proof.
  induction l as [|a l IH]; intros H; simpl; [reflexivity|].
  rewrite (H a) by constructor. apply IH. intros x Hx. apply H. constructor. exact Hx.
Qed.

Lemma nonempty_has (m : Moves) :
  (forall v, 1 <= v <= 9 -> has m v = false) -> Moves_Slice m = [].
Proof.
  intros H. rewrite Moves_Slice_has. apply filter_nil.
  intros v Hv%elem_of_seqZ. apply H. lia.
Qed.

(** On a grid that follows the clues of a legal puzzle, the clue of an
    unset cell is accepted and leaves no unset cell without candidate. *)
Lemma legal_accepted (b : list (list Z)) (s : Sudoku) (p : CellPtr) :
  legal b -> tracks b s -> inb p -> clue b p <> 0 -> cell_value (deref s p) = 0 ->
  PlayMove p.1 p.2 (clue b p) s = (placed s p.1 p.2 (clue b p), Ok tt).
Proof.
  intros (L1 & L2 & L3) [J2 J3] Hp Hclue Hunset. destruct p as [row col].
  pose proof Hp as [Hr Hc]. simpl in Hr, Hc. cbn [fst snd].
  set (v := clue b (row, col)) in *.
  assert (Hv : 1 <= v <= 9) by (specialize (L1 (row, col) Hp); fold v in L1; lia).
  assert (Hcan : has (cell_moves (deref s (row, col))) v = true).
  { destruct (has (cell_moves (deref s (row, col))) v) eqn:Hh; [reflexivity|]. exfalso.
    destruct (J3 (row, col) v Hp Hv Hunset Hh) as (q & Hq & Hne & Hs & Hqv).
    apply (L2 (row, col) q Hp Hq (not_eq_sym Hne) Hs Hclue).
    rewrite <- J2 by (exact Hq || lia). exact Hqv. }
  assert (Hacc : accepted s row col v).
  { split; [exact Hr|]. split; [exact Hc|]. split; [exact Hv|]. split; [exact Hunset|].
    assert (Hin : forall c : Cells, (row, col) ∈ c -> has (union s c) v = true).
    { intros c Hin. rewrite has_union. apply List.existsb_exists. exists (row, col).
      split; [apply list_elem_of_In; exact Hin|exact Hcan]. }
    split; [apply Hin, elem_of_Row; simpl; lia|].
    split; [apply Hin, elem_of_Col; simpl; lia|].
    split; [|exact Hcan].
    apply Hin, elem_of_Square; [apply Z.quot_pos; lia|apply Z.quot_pos; lia|simpl; lia]. }
  rewrite PlayMove_accepted by exact Hacc. f_equal.
  rewrite find_none_intro; [reflexivity|].
  intros q Hq%elem_of_Sudoku_Cells. destruct (deadb _ q) eqn:Hdead; [|reflexivity]. exfalso.
  apply deadb_true in Hdead as [Hq0 Hqm].
  destruct (tracks_placed b s row col (conj J2 J3) Hacc) as [J2' J3'].
  fold v in J2', J3'.
  assert (Hall : forall w, 1 <= w <= 9 ->
            exists q', inb q' /\ q' <> q /\ sees q q' /\ clue b q' = w).
  { intros w Hw.
    assert (Hh : has (cell_moves (deref (placed s row col v) q)) w = false)
      by (rewrite Hqm; apply has_empty).
    destruct (J3' q w Hq Hw Hq0 Hh) as (q' & Hq' & Hne & Hs & Hval).
    exists q'. split; [exact Hq'|]. split; [exact Hne|]. split; [exact Hs|].
    rewrite <- J2' by (exact Hq' || lia). exact Hval. }
  destruct (Z.eq_dec (clue b q) 0) as [Hz|Hnz].
  - destruct (L3 q Hq Hz) as (w & Hw & Hfree).
    destruct (Hall w Hw) as (q' & Hq' & _ & Hs & Hcl). apply (Hfree q' Hq' Hs Hcl).
  - assert (Hw : 1 <= clue b q <= 9) by (specialize (L1 q Hq); lia).
    destruct (Hall (clue b q) Hw) as (q' & Hq' & Hne & Hs & Hcl).
    apply (L2 q q' Hq Hq' (not_eq_sym Hne) Hs Hnz Hcl).
Qed.

Lemma legal_placed_all (b : list (list Z)) (l : Cells) :
  legal b -> NoDup l -> Forall inb l ->
  forall s, tracks b s -> (forall p, p ∈ l -> cell_value (deref s p) = 0) ->
  exists s', forM l tt (fun _ p => placeClue b p) s = (s', Ok tt).
Proof.
  intros Hlegal Hnd. induction Hnd as [|p l Hp Hnd IH]; intros Hin s Ht Hunset; simpl.
  - eexists. reflexivity.
  - apply Forall_cons in Hin as [Hpin Hin]. unfold bind, placeClue at 1. cbv zeta.
    fold (clue b p).
    destruct (Z.eqb_spec (clue b p) 0) as [H0|H0]; simpl.
    + apply IH; [exact Hin|exact Ht|]. intros q Hq. apply Hunset. constructor. exact Hq.
    + assert (Hp0 : cell_value (deref s p) = 0) by (apply Hunset; constructor).
      rewrite (legal_accepted b s p Hlegal Ht Hpin H0 Hp0).
      assert (Hacc : accepted s p.1 p.2 (clue b p)).
      { pose proof (legal_accepted b s p Hlegal Ht Hpin H0 Hp0) as Hplay.
        apply PlayMove_Ok_placed in Hplay as [Hacc _]. exact Hacc. }
      apply IH; [exact Hin|exact (tracks_placed b s p.1 p.2 Ht Hacc)|].
      intros q Hq. rewrite deref_placed by (eapply has_valid; apply Hacc).
      destruct p as [row col]. cbn [fst snd]. case_decide as Heq.
      * subst q. contradiction.
      * rewrite cell_value_clearIf. apply Hunset. constructor. exact Hq.
Qed.

(** [NewSudoku] accepts exactly the legal puzzles: it returns no error
    if and only if every clue is 0 or a value between 1 and 9, no two
    cells that share a row, a column or a square have the same clue,
    and every cell without clue is left a value that no cell sharing a
    row, a column or a square with it has as its clue. *)
Theorem NewSudoku_accepts_the_legal_puzzles (b : list (list Z)) :
  (exists s, NewSudoku b = (s, Ok tt)) <->
  (forall p, inb p -> 0 <= clueAt b p.1 p.2 <= 9) /\
  (forall p q, inb p -> inb q -> p <> q -> sees p q -> clueAt b p.1 p.2 <> 0 ->
     clueAt b q.1 q.2 <> clueAt b p.1 p.2) /\
  (forall p, inb p -> clueAt b p.1 p.2 = 0 ->
     exists v, 1 <= v <= 9 /\ forall q, inb q -> sees p q -> clueAt b q.1 q.2 <> v).
Proof.
  change (_ /\ _ /\ _) with (legal b). split.
  - intros [s Hnew].
    pose proof (wellFormed_NewSudoku b) as Hwf. rewrite Hnew in Hwf. simpl in Hwf.
    destruct Hwf as (_ & _ & Hbound & Hc1 & Hc2).
    pose proof (fun q Hq => NewSudoku_values b s q Hnew Hq) as Hval.
    destruct (NewSudoku_tracks b s Hnew) as [_ Hdead].
    split; [|split].
    + intros p Hp. destruct (Z.eq_dec (clue b p) 0) as [H0|H0]; [lia|].
      rewrite <- Hval in H0 |- * by exact Hp. destruct (Hc1 p Hp H0). lia.
    + intros p q Hp Hq Hne Hs Hclue. rewrite <- !Hval by assumption.
      rewrite <- Hval in Hclue by exact Hp. apply (Hc2 p q Hp Hq Hne Hs Hclue).
    + intros p Hp H0. rewrite <- Hval in H0 by exact Hp.
      pose proof (Hdead p Hp H0) as Hne.
      destruct (Moves_Slice (cell_moves (deref s p))) as [|v rest] eqn:Hslice.
      * exfalso. apply Hne. apply Moves_Slice_nil; [|exact Hslice].
        intros n Hn. eapply Hbound. exact Hn.
      * assert (Hv : v ∈ Moves_Slice (cell_moves (deref s p))) by (rewrite Hslice; constructor).
        apply elem_of_Moves_Slice in Hv as [Hv Hh]. exists v. split; [exact Hv|].
        apply (NewSudoku_candidates b s p v Hnew Hp Hv). exact Hh.
  - intros Hlegal. rewrite NewSudoku_cells.
    apply legal_placed_all; [exact Hlegal|apply NoDup_Range| | |].
    + apply Forall_forall. intros p Hp%elem_of_Sudoku_Cells. exact Hp.
    + apply tracks_blank.
    + intros p Hp%elem_of_Sudoku_Cells. rewrite deref_blank, bool_decide_eq_true_2 by exact Hp.
      reflexivity.
Qed.
